(** * Survival-comparison engines of the NMF subtyping dashboard

    A shallow embedding of [src/lib/coxphAnalysis.ts] (hazard-ratio
    estimator, special functions and log-rank test) and of the parts of
    the [SurvivalCurve] component that call them, clean a curve, read
    its median and build the points and the rows of the chart.

    JavaScript numbers are read as real numbers: [+], [*], [/],
    [Math.sqrt], [Math.exp], [Math.log] are the exact operations of
    [R].  Rounding error, [NaN] and the infinities are outside this
    model; every statement below is a statement of exact arithmetic.
    Far in the tails the double-precision run saturates, a positive
    p-value rounding to 0 and a value of [normalCDF] rounding to 0 or
    to 1: the theorems on these values state such bounds without
    strictness.

    Objects keyed by subtype ([subtypeCounts], the record of medians,
    the rows of the chart) are read as finite maps from strings: a
    subtype named like a property that every object inherits is outside
    this model. *)

From Stdlib Require Import Reals Lra Lia List String ZArith Bool DecimalString.
From stdpp Require Import base gmap strings.
Import ListNotations.
Open Scope R_scope.

(** ** JavaScript numeric primitives *)

Module JS.

Definition ltb (a b : R) : bool := if Rlt_dec a b then true else false.
Definition gtb (a b : R) : bool := if Rgt_dec a b then true else false.
Definition leb (a b : R) : bool := if Rle_dec a b then true else false.
(** [a === b] on numbers. *)
Definition eqb (a b : R) : bool := if Req_dec_T a b then true else false.

(** [Math.round]: the nearest integer, halves rounded up. *)
Definition Math_round (x : R) : R := IZR (Zfloor (x + 1 / 2)).
Definition Math_max (a b : R) : R := Rmax a b.
Definition Math_min (a b : R) : R := Rmin a b.
Definition Math_abs (x : R) : R := Rabs x.
Definition Math_sqrt (x : R) : R := sqrt x.
Definition Math_exp (x : R) : R := exp x.
Definition Math_log (x : R) : R := ln x.
(** [Math.pow(x, y)] for a base [x >= 0] and a real exponent [y > 0]
    (the only use with a non-literal exponent, in [chiSquarePValue]). *)
Definition Math_pow (x y : R) : R :=
  if Rlt_dec 0 x then Rpower x y else 0.

(** [v || d] on an optional number: [undefined] and [0] are falsy. *)
Definition or_default (v : option R) (d : R) : R :=
  match v with
  | Some x => if Req_dec_T x 0 then d else x
  | None => d
  end.

(** [Array.prototype.includes] on numbers. *)
Definition includes (l : list R) (t : R) : bool := existsb (fun x => eqb x t) l.

(** [Array.prototype.sort((a, b) => key(a) - key(b))]: ascending and
    stable.  Each element is placed behind the elements already placed
    whose key is not larger. *)
Fixpoint sort_insert {A} (key : A -> R) (x : A) (l : list A) : list A :=
  match l with
  | [] => [x]
  | h :: r => if Rlt_dec (key x) (key h) then x :: l
              else h :: sort_insert key x r
  end.
Definition Array_sort {A} (key : A -> R) (l : list A) : list A :=
  fold_left (fun sorted x => sort_insert key x sorted) l [].

(** [Set<number>]: elements in order of first insertion. *)
Definition Set_add (s : list R) (t : R) : list R :=
  if includes s t then s else s ++ [t].

(** [Map<number, V>]: entries in order of first insertion of the key;
    [set] on a key already present replaces the value in place. *)
Fixpoint Map_set {V} (m : list (R * V)) (k : R) (v : V) : list (R * V) :=
  match m with
  | [] => [(k, v)]
  | (k', v') :: r =>
      if Req_dec_T k' k then (k', v) :: r else (k', v') :: Map_set r k v
  end.
Fixpoint Map_get {V} (m : list (R * V)) (k : R) : option V :=
  match m with
  | [] => None
  | (k', v') :: r => if Req_dec_T k' k then Some v' else Map_get r k
  end.

End JS.
Import JS.

(** ** Data of the [SurvivalCurve] component *)

Module SurvivalCurve.

Record SurvivalTimePoint := mkPoint {
  time : R;
  survival : R;
  censored : option R;
  events : option R;
  atRisk : option R
}.

Record SurvivalData := mkData {
  subtype : string;
  timePoints : list SurvivalTimePoint
}.

(** The cleaning the component applies before it draws a curve and
    before it reads the median: points sorted by time, survival forced
    non-increasing from 1. *)
Fixpoint monotonicFrom (lastSurvival : R) (sorted : list SurvivalTimePoint)
  : list SurvivalTimePoint :=
  match sorted with
  | [] => []
  | tp :: rest =>
      let s := Math_min lastSurvival (survival tp) in
      mkPoint (time tp) s (censored tp) (events tp) (atRisk tp)
        :: monotonicFrom s rest
  end.

Definition monotonic (group : SurvivalData) : SurvivalData :=
  let sorted := Array_sort time (timePoints group) in
  mkData (subtype group) (monotonicFrom 1 sorted).

End SurvivalCurve.
Import SurvivalCurve.

(** [Record<string, number>], possibly not supplied. *)
Abbreviation SubtypeCounts := (option (gmap string R)).

(** [subtypeCounts?.[name] || 100]. *)
Definition countOf (subtypeCounts : SubtypeCounts) (name : string) : R :=
  or_default (match subtypeCounts with
              | Some m => m !! name
              | None => None
              end) 100.

(** ** [coxphAnalysis.ts] *)

Module coxphAnalysis.

Record HazardRatioGroup := mkGroup {
  subtype : string;
  hazardRatio : R;
  lowerCI : R;
  upperCI : R;
  pValue : R;
  coefficient : R;
  se : R
}.

Record WaldTest := mkWald {
  chiSquare : R;
  df : nat;
  waldPValue : R
}.

Record CoxPHResult := mkCox {
  referenceGroup : string;
  groups : list HazardRatioGroup;
  waldTest : WaldTest
}.

Definition a1 : R := 0.254829592.
Definition a2 : R := -0.284496736.
Definition a3 : R := 1.421413741.
Definition a4 : R := -1.453152027.
Definition a5 : R := 1.061405429.
Definition p : R := 0.3275911.

(** The polynomial factor [(((((a5*t + a4)*t) + a3)*t + a2)*t + a1)*t]. *)
Definition poly (t : R) : R :=
  (((((a5 * t + a4) * t) + a3) * t + a2) * t + a1) * t.

Definition normalCDF (x : R) : R :=
  let sign := if Rlt_dec x 0 then -1 else 1 in
  let x := Math_abs x / Math_sqrt 2 in
  let t := 1 / (1 + p * x) in
  let y := 1 - poly t * Math_exp (- x * x) in
  0.5 * (1 + sign * y).

Definition gammaLn_c : list R :=
  [76.18009172947146; -86.50532032941677; 24.01409824083091;
   -1.231739572450155; 0.1208650973866179e-2; -0.5395239384953e-5].

Definition gammaLn (x : R) : R :=
  let tmp := x + 5.5 in
  let tmp := tmp - (x + 0.5) * Math_log tmp in
  let '(ser, _) :=
    fold_left (fun '(ser, y) cj => let y := y + 1 in (ser + cj / y, y))
              gammaLn_c (1.000000000190015, x) in
  - tmp + Math_log (2.5066282746310005 * ser / x).

(** The series loop of [gammainc], [n] running to 100 with an early
    exit; [fuel] is the number of iterations left. *)
Fixpoint gammainc_series (fuel : nat) (n : R) (a x sum del : R) : R :=
  match fuel with
  | O => sum
  | S fuel' =>
      let del := del * (x / (a + n)) in
      let sum := sum + del in
      if Rlt_dec (Math_abs del) (Math_abs sum * 1e-10) then sum
      else gammainc_series fuel' (n + 1) a x sum del
  end.

(** The continued-fraction loop of [gammainc] (modified Lentz). *)
Fixpoint gammainc_cf (fuel : nat) (i : R) (a b c d h : R) : R :=
  match fuel with
  | O => h
  | S fuel' =>
      let an := - i * (i - a) in
      let b := b + 2 in
      let d := an * d + b in
      let d := if Rlt_dec (Math_abs d) 1e-30 then 1e-30 else d in
      let c := b + an / c in
      let c := if Rlt_dec (Math_abs c) 1e-30 then 1e-30 else c in
      let d := 1 / d in
      let del := d * c in
      let h := h * del in
      if Rlt_dec (Math_abs (del - 1)) 1e-10 then h
      else gammainc_cf fuel' (i + 1) a b c d h
  end.

Definition gammainc (a x : R) : R :=
  if ltb x 0 || leb a 0 then 0
  else if eqb x 0 then 0
  else
    let gln := gammaLn a in
    if Rlt_dec x (a + 1) then
      let sum := 1 / a in
      let sum := gammainc_series 100 1 a x sum sum in
      sum * Math_exp (- x + a * Math_log x - gln)
    else
      let b := x + 1 - a in
      let h := gammainc_cf 100 1 a b 1e30 (1 / b) (1 / b) in
      1 - Math_exp (- x + a * Math_log x - gln) * h.

Definition chiSquareCDF (x : R) (df : R) : R :=
  if Rle_dec x 0 then 0
  else if Rle_dec df 0 then 0
  else gammainc (df / 2) (x / 2).

(** [points.find(p => p.time === t)?.survival || 1]. *)
Definition survivalAt (points : list SurvivalTimePoint) (t : R) : R :=
  or_default
    (option_map survival (find (fun p => eqb (time p) t) points)) 1.

(** The body of the loop over the common times: the sample
    [hr = ln(s2) / ln(s1)] pushed at time [t], if any. *)
Definition sampleAt (refPoints compPoints : list SurvivalTimePoint) (t : R)
  : list R :=
  let s1 := survivalAt refPoints t in
  let s2 := survivalAt compPoints t in
  if gtb s1 0.05 && ltb s1 0.99 && gtb s2 0.05 && ltb s2 0.99 then
    let hr := Math_log s2 / Math_log s1 in
    if gtb hr 0 && ltb hr 100 then [hr] else []
  else [].

Definition commonTimes (refPoints compPoints : list SurvivalTimePoint)
  : list R :=
  let refTimes := map time refPoints in
  let compTimes := map time compPoints in
  List.filter (fun t => includes compTimes t && gtb t 0) refTimes.

(** The valid per-time samples of one comparison group against the
    reference. *)
Definition hazardRatios (refPoints compPoints : list SurvivalTimePoint)
  : list R :=
  flat_map (sampleAt refPoints compPoints)
           (commonTimes refPoints compPoints).

(** The sample-size floor of the standard error. *)
Definition seFloor (n1 n2 : R) : R := Math_sqrt (1 / n1 + 1 / n2) * 0.5.

(** [meanLogHR]: the mean of the logarithms of the samples. *)
Definition meanLogHR (hazardRatios : list R) : R :=
  let logHRs := map Math_log hazardRatios in
  fold_left Rplus logHRs 0 / INR (length logHRs).

(** [baseSE]: the empirical standard deviation of the logarithms, the
    divisor being [logHRs.length - 1 || 1]. *)
Definition baseSE (hazardRatios : list R) : R :=
  let logHRs := map Math_log hazardRatios in
  let meanLogHR := meanLogHR hazardRatios in
  let variance :=
    fold_left (fun sum lhr => sum + (lhr - meanLogHR) ^ 2) logHRs 0
    / or_default (Some (INR (length logHRs) - 1)) 1 in
  Math_sqrt variance.

(** The entry pushed for a comparison group with a non-empty sample. *)
Definition groupEntry (n1 n2 : R) (name : string) (hazardRatios : list R)
  : HazardRatioGroup :=
  let meanLogHR := meanLogHR hazardRatios in
  let hazardRatio := Math_exp meanLogHR in
  let baseSE := baseSE hazardRatios in
  let sampleSizeAdj := Math_sqrt (1 / n1 + 1 / n2) in
  let se := Math_max baseSE (sampleSizeAdj * 0.5) in
  let z := 1.96 in
  let lowerCI := Math_exp (meanLogHR - z * se) in
  let upperCI := Math_exp (meanLogHR + z * se) in
  let zStat := meanLogHR / se in
  let pValue := 2 * (1 - normalCDF (Math_abs zStat)) in
  mkGroup name hazardRatio lowerCI upperCI pValue meanLogHR se.

(** One turn of the loop over the comparison groups: nothing is pushed
    when the group has no valid sample. *)
Definition groupOf (subtypeCounts : SubtypeCounts)
           (reference group : SurvivalData) : list HazardRatioGroup :=
  let n1 := countOf subtypeCounts (SurvivalCurve.subtype reference) in
  let n2 := countOf subtypeCounts (SurvivalCurve.subtype group) in
  let hrs := hazardRatios (timePoints reference) (timePoints group) in
  match hrs with
  | [] => []
  | _ => [groupEntry n1 n2 (SurvivalCurve.subtype group) hrs]
  end.

Definition waldOf (groups : list HazardRatioGroup) : WaldTest :=
  let chiSquare :=
    fold_left (fun sum g => sum + (coefficient g / se g) ^ 2) groups 0 in
  let df := length groups in
  mkWald chiSquare df (1 - chiSquareCDF chiSquare (INR df)).

Definition estimateCoxPH (survivalData : list SurvivalData)
           (subtypeCounts : SubtypeCounts) : option CoxPHResult :=
  if (length survivalData <? 2)%nat then None
  else
    match survivalData with
    | [] => None
    | reference :: comparisons =>
        let groups :=
          flat_map (groupOf subtypeCounts reference) comparisons in
        match groups with
        | [] => None
        | _ =>
            Some (mkCox (SurvivalCurve.subtype reference) groups
                        (waldOf groups))
        end
    end.

End coxphAnalysis.

(** ** [logRankTest.ts] *)

Module logRankTest.

Record LogRankResult := mkLogRank {
  pValue : R;
  chiSquare : R;
  degreesOfFreedom : nat
}.

Record GroupData := mkGroupData {
  subtype : string;
  timePointMap : list (R * R);
  events : list (R * R);
  initialCount : R
}.

(** The standard-normal evaluation written out inside
    [chiSquarePValue], coefficients as in the source. *)
Definition inlineNormalCDF (z : R) : R :=
  let a1 := 0.254829592 in
  let a2 := -0.284496736 in
  let a3 := 1.421413741 in
  let a4 := -1.453152027 in
  let a5 := 1.061405429 in
  let p := 0.3275911 in
  let sign := if Rlt_dec z 0 then -1 else 1 in
  let absZ := Math_abs z in
  let t := 1 / (1 + p * absZ) in
  let y := 1 - (((((a5 * t + a4) * t) + a3) * t + a2) * t + a1) * t
               * Math_exp (- absZ * absZ / 2) in
  0.5 * (1 + sign * y).

(** The loop of the [df > 1] path, [i] running to 99 with an early exit. *)
Fixpoint upperSeries (fuel : nat) (i : R) (x k sum term : R) : R :=
  match fuel with
  | O => sum
  | S fuel' =>
      let term := term * (x / (k + i)) in
      let sum := sum + term in
      if Rlt_dec term 1e-10 then sum
      else upperSeries fuel' (i + 1) x k sum term
  end.

Definition chiSquarePValue (chiSquare : R) (degreesOfFreedom : nat) : R :=
  if Nat.eqb degreesOfFreedom 1 then
    let z := Math_sqrt chiSquare in
    2 * (1 - inlineNormalCDF z)
  else
    let k := INR degreesOfFreedom / 2 in
    let x := chiSquare / 2 in
    let sum := upperSeries 100 0 x k 0 1 in
    let gamma := Math_exp (- x) * Math_pow x k * sum / k in
    Math_max 0 (Math_min 1 (1 - gamma)).

Definition allTimes (survivalData : list SurvivalData) : list R :=
  fold_left
    (fun s group =>
       fold_left (fun s tp => Set_add s (time tp)) (timePoints group) s)
    survivalData [].

Definition sortedTimes (survivalData : list SurvivalData) : list R :=
  Array_sort (fun t => t) (allTimes survivalData).

Definition timePointMapOf (group : SurvivalData) : list (R * R) :=
  fold_left (fun m tp => Map_set m (time tp) (survival tp))
            (timePoints group) [].

(** The estimated events of one group: a drop of more than 0.001
    against the previous known survival, along the global grid. *)
Definition eventsOf (timePointMap : list (R * R)) (sortedTimes : list R)
  : list (R * R) :=
  fst (fold_left
         (fun '(events, prevSurvival) time =>
            match Map_get timePointMap time with
            | Some s =>
                let survivalDrop := prevSurvival - s in
                ((if Rgt_dec survivalDrop 0.001
                  then Map_set events time
                         (Math_max 1 (Math_round (survivalDrop * 100)))
                  else events), s)
            | None => (events, prevSurvival)
            end)
         sortedTimes ([], 1)).

Definition groupDataOf (sortedTimes : list R) (group : SurvivalData)
  : GroupData :=
  let timePointMap := timePointMapOf group in
  mkGroupData (SurvivalCurve.subtype group) timePointMap
              (eventsOf timePointMap sortedTimes) 100.

(** The survival of the last entry of the map, in its iteration order,
    whose time is below [time]; 1 when there is none. *)
Definition lastSurvivalBefore (timePointMap : list (R * R)) (time : R) : R :=
  fold_left (fun lastSurvival '(t, s) =>
               if Rlt_dec t time then s else lastSurvival)
            timePointMap 1.

Definition atRiskAt (group : GroupData) (time : R) : R :=
  Math_round (initialCount group * lastSurvivalBefore (timePointMap group) time).

Definition eventsAt (group : GroupData) (time : R) : R :=
  or_default (Map_get (events group) time) 0.

(** The contribution of one group at one time to the numerator and to
    the denominator. *)
Definition accumulate (totalAtRisk totalEvents : R) (acc : R * R)
           (group : R * R) : R * R :=
  let '(numerator, denominator) := acc in
  let '(groupAtRisk_i, groupEvents_i) := group in
  let observed := groupEvents_i in
  let expected := (groupAtRisk_i / totalAtRisk) * totalEvents in
  let variance :=
    if Rgt_dec totalAtRisk 1 then
      (groupAtRisk_i * (totalAtRisk - groupAtRisk_i) * totalEvents
       * (totalAtRisk - totalEvents))
      / (totalAtRisk * totalAtRisk * (totalAtRisk - 1))
    else 0 in
  (numerator + (observed - expected), denominator + variance).

(** One turn of the loop over the grid. *)
Definition timeStep (groupData : list GroupData) (acc : R * R) (time : R)
  : R * R :=
  let groupAtRisk := map (fun g => atRiskAt g time) groupData in
  let groupEvents := map (fun g => eventsAt g time) groupData in
  let totalEvents := fold_left Rplus groupEvents 0 in
  let totalAtRisk := fold_left Rplus groupAtRisk 0 in
  if gtb totalAtRisk 0 && gtb totalEvents 0 then
    fold_left (accumulate totalAtRisk totalEvents)
              (firstn (length groupData - 1) (combine groupAtRisk groupEvents))
              acc
  else acc.

(** Numerator and denominator after the whole grid. *)
Definition statistic (survivalData : list SurvivalData) : R * R :=
  let times := sortedTimes survivalData in
  let groupData := map (groupDataOf times) survivalData in
  fold_left (timeStep groupData) times (0, 0).

Definition logRankTest (survivalData : list SurvivalData)
  : option LogRankResult :=
  if (length survivalData <? 2)%nat then None
  else
    match sortedTimes survivalData with
    | [] => None
    | _ =>
        let '(numerator, denominator) := statistic survivalData in
        if Rle_dec denominator 0 then None
        else
          let chiSquare := (numerator * numerator) / denominator in
          let df := (length survivalData - 1)%nat in
          Some (mkLogRank (chiSquarePValue chiSquare df) chiSquare df)
    end.

End logRankTest.

(** ** The calls made by the [SurvivalCurve] component *)

(** [logRankTest(data, subtypeCounts)]: the callee declares one
    parameter, so the second argument is dropped. *)
Definition logRankResult (data : list SurvivalData)
           (subtypeCounts : SubtypeCounts) : option logRankTest.LogRankResult :=
  logRankTest.logRankTest data.

(** [estimateCoxPH(data, subtypeCounts)]. *)
Definition coxPHResult (data : list SurvivalData)
           (subtypeCounts : SubtypeCounts) : option coxphAnalysis.CoxPHResult :=
  coxphAnalysis.estimateCoxPH data subtypeCounts.

(** ** Descriptions used in the statements *)

(** A point with its optional count fields removed. *)
Definition timeAndSurvival (tp : SurvivalTimePoint) : R * R :=
  (time tp, survival tp).

(** Two inputs that agree on the group order, on the group names and,
    group by group, on the sequence of (time, survival) pairs. *)
Definition sameCurves (d1 d2 : list SurvivalData) : Prop :=
  Forall2 (fun g1 g2 =>
             SurvivalCurve.subtype g1 = SurvivalCurve.subtype g2 /\
             map timeAndSurvival (timePoints g1)
             = map timeAndSurvival (timePoints g2)) d1 d2.

(** The supplied counts are positive (data model of [SubtypeCounts]). *)
Definition countsPositive (subtypeCounts : SubtypeCounts) : Prop :=
  forall m name v, subtypeCounts = Some m -> m !! name = Some v -> 0 < v.

(** A group with the optional count fields of every point erased. *)
Definition stripPoint (tp : SurvivalTimePoint) : SurvivalTimePoint :=
  mkPoint (time tp) (survival tp) None None None.

Definition strip (g : SurvivalData) : SurvivalData :=
  mkData (SurvivalCurve.subtype g) (map stripPoint (timePoints g)).

(** ** The at-risk reconstruction, described from the supplied points *)

(** The distinct times of a point list, in order of first appearance. *)
Definition distinctTimes (points : list SurvivalTimePoint) : list R :=
  fold_left Set_add (map time points) [].

(** The survival of the last point supplied for the time [k]. *)
Definition lastSuppliedAt (points : list SurvivalTimePoint) (k : R) : R :=
  List.last (map survival (List.filter (fun tp => eqb (time tp) k) points)) 1.

(** Among the distinct times below [t], the one that appeared last; the
    raw survival last supplied for it; 1 when no time is below [t]. *)
Definition rawSurvivalBefore (points : list SurvivalTimePoint) (t : R) : R :=
  match rev (List.filter (fun k => ltb k t) (distinctTimes points)) with
  | [] => 1
  | k :: _ => lastSuppliedAt points k
  end.

(** The reconstruction in the words of the specification: the supplied
    count of the group, 100 when the group is absent from the mapping,
    times the last cleaned survival strictly before [t]. *)
Definition spec_count (subtypeCounts : SubtypeCounts) (name : string) : R :=
  match subtypeCounts with
  | Some m => match m !! name with Some n => n | None => 100 end
  | None => 100
  end.

Definition spec_survivalJustBefore (group : SurvivalData) (t : R) : R :=
  List.last (map survival
            (List.filter (fun tp => ltb (time tp) t)
                         (timePoints (monotonic group)))) 1.

Definition spec_atRisk (subtypeCounts : SubtypeCounts) (group : SurvivalData)
           (t : R) : R :=
  Math_round (spec_count subtypeCounts (SurvivalCurve.subtype group)
              * spec_survivalJustBefore group t).

(** ** Curves already in the form the cleaning produces *)

(** Times in non-decreasing order: no point is later than a point
    behind it. *)
Fixpoint ascending (points : list SurvivalTimePoint) : Prop :=
  match points with
  | [] => True
  | tp :: rest =>
      List.Forall (fun tp' => time tp <= time tp') rest /\ ascending rest
  end.

(** Survival non-increasing, starting at most at [s]. *)
Fixpoint nonIncreasingFrom (s : R) (points : list SurvivalTimePoint) : Prop :=
  match points with
  | [] => True
  | tp :: rest => survival tp <= s /\ nonIncreasingFrom (survival tp) rest
  end.

Definition cleaned (group : SurvivalData) : Prop :=
  ascending (timePoints group) /\ nonIncreasingFrom 1 (timePoints group).

(** ** Example inputs *)

Definition point (t s : R) : SurvivalTimePoint := mkPoint t s None None None.

(** One point: survival 0.5 at time 1. *)
Definition halfAtOne (name : string) : SurvivalData :=
  mkData name [point 1 0.5].

(** The same curve with per-point counts filled in. *)
Definition halfAtOneCounted (name : string) : SurvivalData :=
  mkData name [mkPoint 1 0.5 (Some 3) (Some 50) (Some 100)].

(** Two points at the same time, the first at survival 1. *)
Definition repeatedTime (name : string) : SurvivalData :=
  mkData name [point 1 1; point 1 0.5].

(** A comparison curve whose raw survival rises from 0.03 to 0.5. *)
Definition risingData : list SurvivalData :=
  [mkData "A" [point 1 0.5; point 2 0.4];
   mkData "B" [point 0.5 0.03; point 1 0.5]].

(** Two groups that differ: survival 0.5 against 0.9 at time 1. *)
Definition unequalData : list SurvivalData :=
  [mkData "A" [point 1 0.5]; mkData "B" [point 1 0.9]].

(** ** The derivative of the polynomial factor *)

Definition dpoly (t : R) : R :=
  coxphAnalysis.a1 + 2 * coxphAnalysis.a2 * t
  + 3 * coxphAnalysis.a3 * (t * t)
  + 4 * coxphAnalysis.a4 * (t * t * t)
  + 5 * coxphAnalysis.a5 * (t * t * t * t).

(** ** A very large input *)

Definition refPoints : list SurvivalTimePoint := [point 1 0.5; point 2 0.5].

(** Survival squared at time 1 and raised to the fourth power at time 2. *)
Definition steepPoints : list SurvivalTimePoint :=
  [point 1 0.25; point 2 0.0625].

Definition groupName (prefix : string) (i : nat) : string :=
  (prefix ++ NilEmpty.string_of_uint (Nat.to_uint i))%string.

Definition steepCount : nat := Z.to_nat 8000000.
Definition sameCount : nat := Z.to_nat 27999996.

(** A reference group, 8,000,000 groups on [steepPoints] and 27,999,996
    groups on the reference's own points, each under its own name. *)
Definition manyComparisons : list SurvivalData :=
  map (fun i => mkData (groupName "steep" i) steepPoints) (seq 0 steepCount)
  ++ map (fun i => mkData (groupName "same" i) refPoints) (seq 0 sameCount).

Definition manyGroups : list SurvivalData :=
  mkData "ref" refPoints :: manyComparisons.

(** ** Integer companion of the continued-fraction loop

    For integer [a] and [b] the loop of [gammainc] walks the numerators
    [A] and denominators [B] of the convergents: [c = A / A1],
    [d = B1 / B], [h = A / (K B)], and [D = A B1 - A1 B].  The companion
    runs the same recurrence on integers and checks, turn by turn, that
    neither guard against small values fires and that the loop does not
    exit early. *)
Fixpoint lentzZ (fuel : nat) (n a b : Z) (A1 A B1 B D : Z) : option (Z * Z) :=
  match fuel with
  | O => Some (A, B)
  | S fuel' =>
      let an := (- n * (n - a))%Z in
      let b' := (b + 2)%Z in
      let A' := (b' * A + an * A1)%Z in
      let B' := (b' * B + an * B1)%Z in
      let D' := (- an * D)%Z in
      if ((0 <? an) && (A <=? A') && (B <=? B')
          && (Z.log2 A + Z.log2 B' + 2 <=? Z.log2 (Z.abs D' * 10 ^ 10)))%Z
      then lentzZ fuel' (n + 1) a b' A A' B B' D'
      else None
  end.

(** The sum [ser] of [gammaLn], written out. *)
Definition gammaLn_ser (x : R) : R :=
  1.000000000190015 + 76.18009172947146 / (x + 1)
  + -86.50532032941677 / (x + 1 + 1)
  + 24.01409824083091 / (x + 1 + 1 + 1)
  + -1.231739572450155 / (x + 1 + 1 + 1 + 1)
  + 0.1208650973866179e-2 / (x + 1 + 1 + 1 + 1 + 1)
  + -0.5395239384953e-5 / (x + 1 + 1 + 1 + 1 + 1 + 1).

(** ** The median survival and the drawn points of the [SurvivalCurve]
    component *)

(** The loop that reads the median off the cleaned points: the first
    point at or below 0.5, interpolated against the point before it.
    [prev] is the point at index [i - 1], absent at index 0.  When
    [curr] and [prev] share their time the quotient [slope] is an
    infinity, of the sign of its numerator, which is negative under the
    test [prev.survival > 0.5]: the correction
    [(0.5 - prev.survival) / slope] is then 0. *)
Fixpoint medianFrom (prev : option SurvivalTimePoint)
         (monotonic : list SurvivalTimePoint) : option R :=
  match monotonic with
  | [] => None
  | curr :: rest =>
      if leb (survival curr) 0.5 then
        match prev with
        | Some prev =>
            if gtb (survival prev) 0.5 then
              if eqb (time curr) (time prev) then Some (time prev)
              else
                let slope := (survival curr - survival prev)
                             / (time curr - time prev) in
                if eqb slope 0 then Some (time curr)
                else Some (time prev + (0.5 - survival prev) / slope)
            else Some (time curr)
        | None => Some (time curr)
        end
      else medianFrom (Some curr) rest
  end.

Definition medianOf (group : SurvivalData) : option R :=
  medianFrom None (timePoints (monotonic group)).

(** [medianSurvival]: a record keyed by subtype, a later group of the
    same name replacing the entry of an earlier one. *)
Definition medianSurvival (data : list SurvivalData)
  : gmap string (option R) :=
  fold_left (fun result group =>
               <[SurvivalCurve.subtype group := medianOf group]> result)
            data ∅.

Module Chart.

(** A drawn point: the cleaned survival with its standard error. *)
Record Point := mkPoint {
  time : R;
  survival : R;
  se : R;
  censored : option R;
  events : option R
}.

(** The standard error given to a cleaned survival value in a group of
    size [n]. *)
Definition standardError (n survival : R) : R :=
  if gtb survival 0.01 && ltb survival 0.99
  then survival * Math_sqrt ((1 - survival) / (n * survival))
  else 0.

(** The reducer over the sorted points of a group of size [n]. *)
Definition pushPoint (n : R) (acc : list Point) (tp : SurvivalTimePoint)
  : list Point :=
  let lastSurvival :=
    match List.last (map Some acc) None with
    | Some q => survival q
    | None => 1
    end in
  let survival := Math_min lastSurvival (SurvivalCurve.survival tp) in
  let se := standardError n survival in
  acc ++ [mkPoint (SurvivalCurve.time tp) survival se
                  (SurvivalCurve.censored tp) (SurvivalCurve.events tp)].

Definition sortedPoints (subtypeCounts : SubtypeCounts) (group : SurvivalData)
  : list Point :=
  let n := countOf subtypeCounts (SurvivalCurve.subtype group) in
  fold_left (pushPoint n)
            (Array_sort SurvivalCurve.time (timePoints group)) [].

(** A cleaned point as it is drawn for a group of size [n]. *)
Definition ofCleaned (n : R) (tp : SurvivalTimePoint) : Point :=
  mkPoint (SurvivalCurve.time tp) (SurvivalCurve.survival tp)
          (standardError n (SurvivalCurve.survival tp))
          (SurvivalCurve.censored tp) (SurvivalCurve.events tp).

(** The band drawn around a value. *)
Definition upper (survival se : R) : R := Math_min 1 (survival + 1.96 * se).
Definition lower (survival se : R) : R := Math_max 0 (survival - 1.96 * se).

(** [processedData]: each group's subtype with its drawn points. *)
Definition processedData (subtypeCounts : SubtypeCounts)
           (data : list SurvivalData) : list (string * list Point) :=
  map (fun group => (SurvivalCurve.subtype group,
                     sortedPoints subtypeCounts group)) data.

(** The times of the rows: the distinct times of the drawn points,
    sorted. *)
Definition sortedTimes (processedData : list (string * list Point))
  : list R :=
  Array_sort (fun t => t)
    (fold_left
       (fun s group => fold_left (fun s q => Set_add s (time q)) (snd group) s)
       processedData []).

(** [maxTime]: the last time of the grid, 100 for an empty grid. *)
Definition maxTime (sortedTimes : list R) : R := List.last sortedTimes 100.

(** [lastKnown] before the first row: survival 1 and standard error 0
    under every subtype. *)
Definition initialLastKnown (processedData : list (string * list Point))
  : gmap string (R * R) :=
  fold_left (fun lastKnown g => <[fst g := (1, 0)]> lastKnown)
            processedData ∅.

(** The turn of one group in the row of [time]: [lastKnown] is updated
    from the first point of the group at that time, if any, and the
    row receives the value and its band under the keys [subtype],
    [subtype_upper] and [subtype_lower].  [lastKnown] has an entry for
    every subtype from the start, so the last case is not reached. *)
Definition chartGroup (time : R)
           (state : gmap string (R * R) * gmap string R)
           (group : string * list Point)
  : gmap string (R * R) * gmap string R :=
  let '(lastKnown, point) := state in
  let lastKnown :=
    match find (fun q => eqb (Chart.time q) time) (snd group) with
    | Some tp => <[fst group := (survival tp, se tp)]> lastKnown
    | None => lastKnown
    end in
  match lastKnown !! fst group with
  | Some (survival, se) =>
      let point := <[fst group := survival]> point in
      let point :=
        <[(fst group ++ "_upper")%string := upper survival se]> point in
      let point :=
        <[(fst group ++ "_lower")%string := lower survival se]> point in
      (lastKnown, point)
  | None => (lastKnown, point)
  end.

(** One row: it starts as [{ time }] and every group takes its turn. *)
Definition chartRow (processedData : list (string * list Point))
           (state : gmap string (R * R) * list (gmap string R)) (time : R)
  : gmap string (R * R) * list (gmap string R) :=
  let '(lastKnown, chartPoints) := state in
  let '(lastKnown, point) :=
    fold_left (chartGroup time) processedData
              (lastKnown, {[ "time"%string := time ]}) in
  (lastKnown, chartPoints ++ [point]).

(** [chartData]: the rows of the chart, none for no data. *)
Definition chartData (subtypeCounts : SubtypeCounts)
           (data : list SurvivalData) : list (gmap string R) :=
  match data with
  | [] => []
  | _ =>
      let processedData := processedData subtypeCounts data in
      snd (fold_left (chartRow processedData) (sortedTimes processedData)
                     (initialLastKnown processedData, []))
  end.

End Chart.

(** The value the chart is to show for a group at time [t]: the
    survival of the last cleaned point at or before [t] with its
    standard error, and survival 1 with standard error 0 before the
    first point. *)
Definition drawnValue (subtypeCounts : SubtypeCounts) (group : SurvivalData)
           (t : R) : R * R :=
  match List.last
          (map Some (List.filter (fun q => leb (time q) t)
                                 (timePoints (monotonic group)))) None with
  | Some q =>
      (survival q,
       Chart.standardError
         (countOf subtypeCounts (SurvivalCurve.subtype group)) (survival q))
  | None => (1, 0)
  end.

(** The last point of a list whose time is among [times], and the
    value it stands for. *)
Definition lastAmong (times : list R) (points : list SurvivalTimePoint)
  : option SurvivalTimePoint :=
  List.last
    (map Some (List.filter (fun q => includes times (time q)) points)) None.

Definition valueOf (n : R) (q : option SurvivalTimePoint) : R * R :=
  match q with
  | Some q => (survival q, Chart.standardError n (survival q))
  | None => (1, 0)
  end.

(** The three keys a group writes in a row. *)
Definition keysOf (name : string) : list string :=
  [name; (name ++ "_upper")%string; (name ++ "_lower")%string].

(** Subtype names that do not meet the other keys of a row. *)
Definition rowKeysApart (data : list SurvivalData) : Prop :=
  List.NoDup (map SurvivalCurve.subtype data) /\
  forall g g', In g data -> In g' data ->
    SurvivalCurve.subtype g <> "time"%string /\
    SurvivalCurve.subtype g
    <> (SurvivalCurve.subtype g' ++ "_upper")%string /\
    SurvivalCurve.subtype g
    <> (SurvivalCurve.subtype g' ++ "_lower")%string.

(** The interpolation of the median between the last point above 0.5
    and the first point at or below it, as a relation: [(m, 0.5)] lies
    on the segment from [prev] to [curr]. *)
Definition crossesHalf (prev curr : SurvivalTimePoint) (m : R) : Prop :=
  time prev <= m <= time curr /\
  (0.5 - survival prev) * (time curr - time prev)
  = (survival curr - survival prev) * (m - time prev).

(** The smallest of 1 and the survival values of a list of points. *)
Definition runningMinimum (points : list SurvivalTimePoint) : R :=
  fold_left Rmin (map survival points) 1.

(** ** The grid of [logRankTest] *)

(** Times in strictly increasing order. *)
Fixpoint increasing (times : list R) : Prop :=
  match times with
  | [] => True
  | t :: rest => List.Forall (fun t' => t < t') rest /\ increasing rest
  end.

(** ** A change of the unit of time *)

Definition rescalePoint (k : R) (tp : SurvivalTimePoint) : SurvivalTimePoint :=
  mkPoint (k * time tp) (survival tp) (censored tp) (events tp) (atRisk tp).

Definition rescale (k : R) (group : SurvivalData) : SurvivalData :=
  mkData (SurvivalCurve.subtype group) (map (rescalePoint k) (timePoints group)).

(** The same change on the keys of a map from times. *)
Definition rescaleKeys (k : R) (m : list (R * R)) : list (R * R) :=
  map (fun e => (k * fst e, snd e)) m.

(** What a result of [estimateCoxPH] holds of a group besides its
    standard error, interval and p-value. *)
Definition estimate (e : coxphAnalysis.HazardRatioGroup) : string * R * R :=
  (coxphAnalysis.subtype e, coxphAnalysis.hazardRatio e,
   coxphAnalysis.coefficient e).
(** The entries of one input under two count mappings: pairwise the
    same group and the same samples. *)
Definition sameSamples (c1 c2 : SubtypeCounts) (r : SurvivalData)
           (e1 e2 : coxphAnalysis.HazardRatioGroup) : Prop :=
  exists g,
    e1 = coxphAnalysis.groupEntry (countOf c1 (SurvivalCurve.subtype r))
                    (countOf c1 (SurvivalCurve.subtype g))
                    (SurvivalCurve.subtype g)
                    (coxphAnalysis.hazardRatios (timePoints r) (timePoints g)) /\
    e2 = coxphAnalysis.groupEntry (countOf c2 (SurvivalCurve.subtype r))
                    (countOf c2 (SurvivalCurve.subtype g))
                    (SurvivalCurve.subtype g)
                    (coxphAnalysis.hazardRatios (timePoints r) (timePoints g)).

(** The entries and the Wald chi-square of a result, none and 0 for a
    null result. *)
Definition groupsOfResult (res : option coxphAnalysis.CoxPHResult)
  : list coxphAnalysis.HazardRatioGroup :=
  match res with
  | Some r => coxphAnalysis.groups r
  | None => []
  end.

Definition chiSquareOfResult (res : option coxphAnalysis.CoxPHResult) : R :=
  match res with
  | Some r => coxphAnalysis.chiSquare (coxphAnalysis.waldTest r)
  | None => 0
  end.

(** ** Further example inputs *)

(** A curve that falls from 0.8 at time 1 to 0.4 at time 3. *)
Definition fallingCurve : SurvivalData :=
  mkData "A" [point 3 0.4; point 1 0.8].

(** A curve that stays at or above 0.9995. *)
Definition flatCurve (name : string) : SurvivalData :=
  mkData name [point 1 1; point 2 0.9995].

(** ** Curves that the cleaning only reorders *)

(** The first step of the cleaning alone: the points sorted by time. *)
Definition sortedByTime (group : SurvivalData) : SurvivalData :=
  mkData (SurvivalCurve.subtype group) (Array_sort time (timePoints group)).

(** Read in time order, the survival values never rise and never
    exceed 1: the running minimum of the cleaning changes no value. *)
Definition falling (group : SurvivalData) : Prop :=
  nonIncreasingFrom 1 (Array_sort time (timePoints group)).

(** The times of the curve are supplied for the first time in
    increasing order; a time may be supplied again later. *)
Definition timesInOrder (group : SurvivalData) : Prop :=
  increasing (distinctTimes (timePoints group)).

(** A curve supplied out of time order whose survival falls with time,
    against a curve with one point. *)
Definition unorderedData : list SurvivalData :=
  [mkData "A" [point 2 0.4; point 1 0.5; point 3 0.3];
   mkData "B" [point 3 0.5]].

(** Two curves that fall with time; the first supplies time 1 again
    after time 2. *)
Definition resuppliedData : list SurvivalData :=
  [mkData "A" [point 1 0.5; point 2 0.4; point 1 0.45];
   mkData "B" [point 1 0.6; point 2 0.3]].

(** One steep comparison group and two copies of the reference: the
    Wald chi-square is 4.5 on three degrees of freedom. *)
Definition mixedGroups : list SurvivalData :=
  [mkData "ref" refPoints; mkData "B" steepPoints;
   mkData "C" refPoints; mkData "D" refPoints].

Definition mixedEntries : list coxphAnalysis.HazardRatioGroup :=
  [coxphAnalysis.groupEntry 100 100 "B" [2; 4];
   coxphAnalysis.groupEntry 100 100 "C"
     (coxphAnalysis.hazardRatios refPoints refPoints);
   coxphAnalysis.groupEntry 100 100 "D"
     (coxphAnalysis.hazardRatios refPoints refPoints)].

(** ** Elementary facts *)

Lemma ltb_true a b : a < b -> ltb a b = true.
Proof. intros H. unfold ltb. destruct (Rlt_dec a b); [reflexivity | contradiction]. Qed.

Lemma ltb_false a b : ~ a < b -> ltb a b = false.
Proof. intros H. unfold ltb. destruct (Rlt_dec a b); [contradiction | reflexivity]. Qed.

Lemma gtb_true a b : a > b -> gtb a b = true.
Proof. intros H. unfold gtb. destruct (Rgt_dec a b); [reflexivity | contradiction]. Qed.

Lemma gtb_false a b : ~ a > b -> gtb a b = false.
Proof. intros H. unfold gtb. destruct (Rgt_dec a b); [contradiction | reflexivity]. Qed.

Lemma ltb_spec a b : ltb a b = true <-> a < b.
Proof. unfold ltb. destruct (Rlt_dec a b); split; auto; discriminate. Qed.

Lemma gtb_spec a b : gtb a b = true <-> a > b.
Proof. unfold gtb. destruct (Rgt_dec a b); split; auto; discriminate. Qed.

Lemma eqb_refl a : eqb a a = true.
Proof. unfold eqb. destruct (Req_dec_T a a); [reflexivity | contradiction]. Qed.

Lemma eqb_spec a b : eqb a b = true <-> a = b.
Proof. unfold eqb. destruct (Req_dec_T a b); split; auto; discriminate. Qed.

Lemma eqb_true a b : a = b -> eqb a b = true.
Proof. intros ->. apply eqb_refl. Qed.

Lemma eqb_false a b : a <> b -> eqb a b = false.
Proof. intros H. unfold eqb. destruct (Req_dec_T a b); [contradiction | reflexivity]. Qed.

Lemma leb_true a b : a <= b -> leb a b = true.
Proof. intros H. unfold leb. destruct (Rle_dec a b); [reflexivity | contradiction]. Qed.

Lemma leb_false a b : ~ a <= b -> leb a b = false.
Proof. intros H. unfold leb. destruct (Rle_dec a b); [contradiction | reflexivity]. Qed.

(** Evaluation of the comparisons of a goal whose operands are decided
    by linear arithmetic. *)
Ltac cmp_eval :=
  repeat match goal with
    | |- context [eqb ?a ?b] =>
        first [rewrite (eqb_true a b) by lra | rewrite (eqb_false a b) by lra]
    | |- context [ltb ?a ?b] =>
        first [rewrite (ltb_true a b) by lra | rewrite (ltb_false a b) by lra]
    | |- context [gtb ?a ?b] =>
        first [rewrite (gtb_true a b) by lra | rewrite (gtb_false a b) by lra]
    | |- context [leb ?a ?b] =>
        first [rewrite (leb_true a b) by lra | rewrite (leb_false a b) by lra]
    | |- context [Req_dec_T ?a ?b] =>
        first [ assert (a = b) as Hcmp by lra;
                destruct (Req_dec_T a b) as [_|?]; [clear Hcmp|contradiction]
              | assert (a <> b) as Hcmp by lra;
                destruct (Req_dec_T a b) as [?|_]; [contradiction|clear Hcmp] ]
    | |- context [Rlt_dec ?a ?b] =>
        first [ assert (a < b) as Hcmp by lra;
                destruct (Rlt_dec a b) as [_|?]; [clear Hcmp|contradiction]
              | assert (~ a < b) as Hcmp by lra;
                destruct (Rlt_dec a b) as [?|_]; [contradiction|clear Hcmp] ]
    | |- context [Rgt_dec ?a ?b] =>
        first [ assert (a > b) as Hcmp by lra;
                destruct (Rgt_dec a b) as [_|?]; [clear Hcmp|contradiction]
              | assert (~ a > b) as Hcmp by lra;
                destruct (Rgt_dec a b) as [?|_]; [contradiction|clear Hcmp] ]
    | |- context [Rle_dec ?a ?b] =>
        first [ assert (a <= b) as Hcmp by lra;
                destruct (Rle_dec a b) as [_|?]; [clear Hcmp|contradiction]
              | assert (~ a <= b) as Hcmp by lra;
                destruct (Rle_dec a b) as [?|_]; [contradiction|clear Hcmp] ]
    end.

Lemma includes_spec l t : includes l t = true <-> In t l.
Proof.
  unfold includes. rewrite existsb_exists. split.
  - intros [x [Hin Heq]]. apply eqb_spec in Heq. now subst.
  - intros Hin. exists t. split; [assumption | apply eqb_refl].
Qed.

Lemma Math_round_IZR z : Math_round (IZR z) = IZR z.
Proof.
  unfold Math_round. f_equal. apply Zfloor_eq. lra.
Qed.

Lemma Math_round_eq z x : IZR z <= x + 1 / 2 < IZR z + 1 -> Math_round x = IZR z.
Proof. intros H. unfold Math_round. f_equal. now apply Zfloor_eq. Qed.

(** [Math.round] of an expression whose value lies in the half-open
    unit interval around the integer [z]. *)
Ltac round_eval z :=
  match goal with
  | |- context [Math_round ?x] => rewrite (Math_round_eq z x) by lra
  end.

(** Evaluation of a closed call: list recursion, comparisons, minimum
    and maximum. *)
Ltac js_eval :=
  repeat first [ progress cmp_eval
               | progress simpl
               | progress unfold Math_min, Math_max, Rmin, Rmax ].

Lemma or_default_pos v d : 0 < d -> (forall x, v = Some x -> 0 <= x) -> 0 < or_default v d.
Proof.
  intros Hd Hv. unfold or_default. destruct v as [x|]; [|assumption].
  destruct (Req_dec_T x 0); [assumption|].
  specialize (Hv x eq_refl). lra.
Qed.

Lemma countOf_pos subtypeCounts name :
  countsPositive subtypeCounts -> 0 < countOf subtypeCounts name.
Proof.
  intros Hpos. unfold countOf. apply or_default_pos; [lra|].
  intros x Hx. destruct subtypeCounts as [m|]; [|discriminate].
  left. eapply Hpos; eauto.
Qed.

Lemma exp_monotone a b : a <= b -> exp a <= exp b.
Proof.
  intros [Hlt|Heq]; [left; now apply exp_increasing | right; now rewrite Heq].
Qed.

Lemma fold_left_Rplus_acc l a : fold_left Rplus l a = a + fold_left Rplus l 0.
Proof.
  revert a. induction l as [|x l IH]; intros a; simpl.
  - lra.
  - rewrite IH. rewrite (IH (0 + x)). lra.
Qed.

(** ** Only time and survival are read *)

Section OnlyTimeAndSurvival.

Import logRankTest coxphAnalysis.

Lemma fold_left_map_in {A B C} (f : A -> B -> A) (g : C -> B) l a :
  fold_left f (map g l) a = fold_left (fun a x => f a (g x)) l a.
Proof. revert a. induction l as [|x l IH]; intros a; simpl; auto. Qed.

Lemma map_time_strip pts : map time (map stripPoint pts) = map time pts.
Proof. rewrite map_map. reflexivity. Qed.

Lemma find_strip t pts :
  option_map survival (find (fun q => eqb (time q) t) (map stripPoint pts))
  = option_map survival (find (fun q => eqb (time q) t) pts).
Proof.
  induction pts as [|q pts IH]; simpl; [reflexivity|].
  destruct (eqb (time q) t); [reflexivity | exact IH].
Qed.

Lemma hazardRatios_strip r g :
  hazardRatios (map stripPoint r) (map stripPoint g) = hazardRatios r g.
Proof.
  unfold hazardRatios, commonTimes. rewrite !map_time_strip.
  apply flat_map_ext. intros t. unfold sampleAt, survivalAt.
  now rewrite !find_strip.
Qed.

Lemma groupOf_strip c r g : groupOf c (strip r) (strip g) = groupOf c r g.
Proof. unfold groupOf, strip; simpl. now rewrite hazardRatios_strip. Qed.

Lemma flat_map_groupOf_strip c r l :
  flat_map (groupOf c (strip r)) (map strip l) = flat_map (groupOf c r) l.
Proof.
  induction l as [|g l IH]; simpl; [reflexivity|].
  now rewrite groupOf_strip, IH.
Qed.

Lemma estimateCoxPH_strip d c :
  estimateCoxPH (map strip d) c = estimateCoxPH d c.
Proof.
  unfold estimateCoxPH. rewrite length_map.
  destruct (length d <? 2)%nat; [reflexivity|].
  destruct d as [|r l]; [reflexivity|].
  simpl map. cbv iota beta zeta.
  rewrite flat_map_groupOf_strip. reflexivity.
Qed.

Lemma allTimes_strip_from d s :
  fold_left
    (fun s group =>
       fold_left (fun s tp => Set_add s (time tp)) (timePoints group) s)
    (map strip d) s
  = fold_left
      (fun s group =>
         fold_left (fun s tp => Set_add s (time tp)) (timePoints group) s)
      d s.
Proof.
  revert s. induction d as [|g d IH]; intros s; simpl; [reflexivity|].
  rewrite IH. f_equal. now rewrite fold_left_map_in.
Qed.

Lemma sortedTimes_strip d : sortedTimes (map strip d) = sortedTimes d.
Proof. unfold sortedTimes, allTimes. now rewrite allTimes_strip_from. Qed.

Lemma groupDataOf_strip times g :
  groupDataOf times (strip g) = groupDataOf times g.
Proof.
  unfold groupDataOf, timePointMapOf, strip; simpl.
  now rewrite fold_left_map_in.
Qed.

Lemma statistic_strip d : statistic (map strip d) = statistic d.
Proof.
  unfold statistic. rewrite sortedTimes_strip, map_map.
  f_equal. f_equal. apply map_ext. intros g. apply groupDataOf_strip.
Qed.

Lemma logRankTest_strip d :
  logRankTest.logRankTest (map strip d) = logRankTest.logRankTest d.
Proof.
  unfold logRankTest.logRankTest.
  now rewrite statistic_strip, sortedTimes_strip, length_map.
Qed.

Lemma stripPoint_view tp tp' :
  timeAndSurvival tp = timeAndSurvival tp' -> stripPoint tp = stripPoint tp'.
Proof.
  unfold timeAndSurvival, stripPoint. intros H. injection H as Ht Hs.
  now rewrite Ht, Hs.
Qed.

Lemma map_stripPoint_view l l' :
  map timeAndSurvival l = map timeAndSurvival l' ->
  map stripPoint l = map stripPoint l'.
Proof.
  revert l'. induction l as [|x l IH]; intros [|y l'] H;
    try discriminate; [reflexivity|].
  cbn [map] in *. injection H as Ht Hs Hl.
  f_equal; [apply stripPoint_view; unfold timeAndSurvival; congruence
           | now apply IH].
Qed.

Lemma sameCurves_strip d1 d2 : sameCurves d1 d2 -> map strip d1 = map strip d2.
Proof.
  induction 1 as [|g1 g2 d1 d2 [Hn Hp] _ IH]; simpl; [reflexivity|].
  rewrite IH. f_equal. unfold strip. rewrite Hn.
  f_equal. now apply map_stripPoint_view.
Qed.

(** C10.  Inputs that agree, group by group and in the same order, on
    the names and on the sequence of (time, survival) pairs give the
    same log-rank result and the same hazard-ratio result, whatever
    their per-point [censored], [events] and [atRisk] fields hold:
    both engines read [time] and [survival] only. *)
Theorem engines_read_time_and_survival_only :
  forall (d1 d2 : list SurvivalData) (subtypeCounts : SubtypeCounts),
    sameCurves d1 d2 ->
    logRankTest.logRankTest d1 = logRankTest.logRankTest d2 /\
    estimateCoxPH d1 subtypeCounts = estimateCoxPH d2 subtypeCounts.
Proof.
  intros d1 d2 c H. apply sameCurves_strip in H. split.
  - rewrite <- (logRankTest_strip d1), <- (logRankTest_strip d2). now rewrite H.
  - rewrite <- (estimateCoxPH_strip d1), <- (estimateCoxPH_strip d2). now rewrite H.
Qed.

Lemma engines_read_time_and_survival_only_witness :
  logRankTest.logRankTest [halfAtOneCounted "A"; halfAtOne "B"]
  = logRankTest.logRankTest [halfAtOne "A"; halfAtOneCounted "B"] /\
  estimateCoxPH [halfAtOneCounted "A"; halfAtOne "B"] None
  = estimateCoxPH [halfAtOne "A"; halfAtOneCounted "B"] None.
Proof.
  apply (engines_read_time_and_survival_only
           [halfAtOneCounted "A"; halfAtOne "B"]
           [halfAtOne "A"; halfAtOneCounted "B"] None).
  repeat constructor.
Defined.

End OnlyTimeAndSurvival.

(** ** Shape of the results of [estimateCoxPH] *)

Section CoxPHShape.

Import coxphAnalysis.

Lemma estimateCoxPH_short data c :
  (length data < 2)%nat -> estimateCoxPH data c = None.
Proof.
  intros H. unfold estimateCoxPH.
  destruct (Nat.ltb_spec (length data) 2); [reflexivity | lia].
Qed.

Lemma estimateCoxPH_Some data c res :
  estimateCoxPH data c = Some res ->
  exists r comps,
    data = r :: comps /\ comps <> [] /\
    groups res = flat_map (groupOf c r) comps /\
    groups res <> [] /\
    referenceGroup res = SurvivalCurve.subtype r /\
    waldTest res = waldOf (groups res).
Proof.
  unfold estimateCoxPH.
  destruct (Nat.ltb_spec (length data) 2) as [Hlt|Hge]; [discriminate|].
  destruct data as [|r comps]; [discriminate|].
  cbv zeta. destruct (flat_map (groupOf c r) comps) as [|e es] eqn:E;
    [discriminate|].
  intros H. injection H as <-. exists r, comps. simpl.
  repeat split; try congruence.
  destruct comps; [simpl in Hge; lia | discriminate].
Qed.

Lemma estimateCoxPH_eval r comps c :
  (1 <= length comps)%nat ->
  flat_map (groupOf c r) comps <> [] ->
  estimateCoxPH (r :: comps) c
  = Some (mkCox (SurvivalCurve.subtype r) (flat_map (groupOf c r) comps)
                (waldOf (flat_map (groupOf c r) comps))).
Proof.
  intros Hlen Hne. unfold estimateCoxPH.
  destruct (Nat.ltb_spec (length (r :: comps)) 2) as [Hlt|Hge];
    [simpl in Hlt; lia|].
  cbv zeta. destruct (flat_map (groupOf c r) comps); [contradiction|reflexivity].
Qed.

Lemma groupOf_In c r g e :
  In e (groupOf c r g) ->
  hazardRatios (timePoints r) (timePoints g) <> [] /\
  e = groupEntry (countOf c (SurvivalCurve.subtype r))
                 (countOf c (SurvivalCurve.subtype g))
                 (SurvivalCurve.subtype g)
                 (hazardRatios (timePoints r) (timePoints g)).
Proof.
  unfold groupOf.
  destruct (hazardRatios (timePoints r) (timePoints g)) eqn:E.
  - intros [].
  - intros [<-|[]]. split; [discriminate | reflexivity].
Qed.

Lemma groups_In c r comps e :
  In e (flat_map (groupOf c r) comps) ->
  exists g, In g comps /\
    hazardRatios (timePoints r) (timePoints g) <> [] /\
    e = groupEntry (countOf c (SurvivalCurve.subtype r))
                   (countOf c (SurvivalCurve.subtype g))
                   (SurvivalCurve.subtype g)
                   (hazardRatios (timePoints r) (timePoints g)).
Proof.
  rewrite in_flat_map. intros [g [Hg He]]. exists g.
  split; [assumption | now apply groupOf_In].
Qed.

Lemma seFloor_pos n1 n2 : 0 < n1 -> 0 < n2 -> 0 < seFloor n1 n2.
Proof.
  intros H1 H2. unfold seFloor, Math_sqrt.
  assert (0 < 1 / n1) by (apply Rdiv_lt_0_compat; lra).
  assert (0 < 1 / n2) by (apply Rdiv_lt_0_compat; lra).
  assert (0 < sqrt (1 / n1 + 1 / n2)) by (apply sqrt_lt_R0; lra).
  lra.
Qed.

Lemma se_groupEntry_floor n1 n2 name hrs :
  seFloor n1 n2 <= se (groupEntry n1 n2 name hrs).
Proof. unfold groupEntry, seFloor; simpl. apply Rmax_r. Qed.

Lemma baseSE_single h : baseSE [h] = 0.
Proof.
  unfold baseSE, meanLogHR; simpl.
  unfold or_default. destruct (Req_dec_T (1 - 1) 0) as [_|Hn]; [|lra].
  replace ((0 + (Math_log h - (0 + Math_log h) / 1)
                * ((Math_log h - (0 + Math_log h) / 1) * 1)) / 1)
    with 0 by (field_simplify; lra).
  unfold Math_sqrt. apply sqrt_0.
Qed.

Lemma se_groupEntry_single n1 n2 name h :
  0 < n1 -> 0 < n2 -> se (groupEntry n1 n2 name [h]) = seFloor n1 n2.
Proof.
  intros H1 H2. pose proof (seFloor_pos n1 n2 H1 H2) as Hf.
  unfold groupEntry; cbn [se]. rewrite baseSE_single.
  fold (seFloor n1 n2). unfold Math_max. apply Rmax_right. lra.
Qed.

(** The properties of one entry, for positive counts. *)
Lemma groupEntry_sound n1 n2 name hrs :
  0 < n1 -> 0 < n2 ->
  let e := groupEntry n1 n2 name hrs in
  0 < hazardRatio e /\ 0 < lowerCI e /\ 0 < upperCI e /\ 0 < se e /\
  lowerCI e <= hazardRatio e <= upperCI e /\
  coefficient e = ln (hazardRatio e) /\
  lowerCI e = exp (coefficient e - 1.96 * se e) /\
  upperCI e = exp (coefficient e + 1.96 * se e).
Proof.
  intros H1 H2 e.
  assert (Hse : 0 < se e).
  { pose proof (seFloor_pos n1 n2 H1 H2).
    pose proof (se_groupEntry_floor n1 n2 name hrs). subst e. lra. }
  subst e. revert Hse.
  unfold groupEntry; cbn [hazardRatio lowerCI upperCI se coefficient].
  unfold Math_exp.
  generalize (Math_max (baseSE hrs) (Math_sqrt (1 / n1 + 1 / n2) * 0.5)).
  generalize (meanLogHR hrs).
  intros m s Hs.
  repeat split; try apply exp_pos; try assumption.
  - apply exp_monotone. lra.
  - apply exp_monotone. lra.
  - now rewrite ln_exp.
Qed.

Lemma groupOf_eval c r g :
  hazardRatios (timePoints r) (timePoints g) <> [] ->
  groupOf c r g
  = [groupEntry (countOf c (SurvivalCurve.subtype r))
                (countOf c (SurvivalCurve.subtype g))
                (SurvivalCurve.subtype g)
                (hazardRatios (timePoints r) (timePoints g))].
Proof.
  intros Hne. unfold groupOf.
  destruct (hazardRatios (timePoints r) (timePoints g));
    [contradiction | reflexivity].
Qed.

Lemma countsPositive_None : countsPositive None.
Proof. intros m name v H. discriminate. Qed.

End CoxPHShape.

(** ** A curve compared with itself *)

Section SelfComparison.

Import coxphAnalysis.

Lemma ln_neg s : 0 < s -> s < 1 -> ln s < 0.
Proof. intros H0 H1. rewrite <- ln_1. now apply ln_increasing. Qed.

Lemma sampleAt_same refPoints compPoints t :
  survivalAt compPoints t = survivalAt refPoints t ->
  sampleAt refPoints compPoints t
  = if gtb (survivalAt refPoints t) 0.05 && ltb (survivalAt refPoints t) 0.99
    then [1] else [].
Proof.
  intros Heq. unfold sampleAt. cbv zeta. rewrite Heq.
  destruct (Rgt_dec (survivalAt refPoints t) 0.05) as [Hg|Hg];
    [rewrite (gtb_true _ _ Hg) | rewrite (gtb_false _ _ Hg); reflexivity].
  destruct (Rlt_dec (survivalAt refPoints t) 0.99) as [Hl|Hl];
    [rewrite (ltb_true _ _ Hl) | rewrite (ltb_false _ _ Hl); reflexivity].
  cbn [andb].
  assert (Hln : ln (survivalAt refPoints t) < 0) by (apply ln_neg; lra).
  unfold Math_log.
  replace (ln (survivalAt refPoints t) / ln (survivalAt refPoints t)) with 1
    by (field; lra).
  rewrite gtb_true by lra. rewrite ltb_true by lra. reflexivity.
Qed.

Lemma sampleAt_self pts t :
  sampleAt pts pts t
  = if gtb (survivalAt pts t) 0.05 && ltb (survivalAt pts t) 0.99
    then [1] else [].
Proof. now apply sampleAt_same. Qed.

Lemma hazardRatios_self_ones pts :
  Forall (fun h => h = 1) (hazardRatios pts pts).
Proof.
  unfold hazardRatios. apply List.Forall_forall. intros h Hin.
  apply in_flat_map in Hin. destruct Hin as [t [_ Hh]].
  rewrite sampleAt_self in Hh.
  destruct (gtb _ _ && ltb _ _); simpl in Hh; [|contradiction].
  destruct Hh as [<-|[]]. reflexivity.
Qed.

Lemma survivalAt_first pts pt :
  find (fun q => eqb (time q) (time pt)) pts = Some pt ->
  survival pt <> 0 -> survivalAt pts (time pt) = survival pt.
Proof.
  intros Hf Hs. unfold survivalAt. rewrite Hf. simpl.
  destruct (Req_dec_T (survival pt) 0); [contradiction | reflexivity].
Qed.

Lemma hazardRatios_self_nonempty pts pt :
  find (fun q => eqb (time q) (time pt)) pts = Some pt ->
  time pt > 0 -> 0.05 < survival pt < 0.99 ->
  hazardRatios pts pts <> [].
Proof.
  intros Hf Ht Hs Hnil.
  assert (Hin : In 1 (hazardRatios pts pts)).
  { unfold hazardRatios. apply in_flat_map. exists (time pt). split.
    - unfold commonTimes. apply filter_In. split.
      + apply in_map. now apply find_some in Hf.
      + apply andb_true_intro. split.
        * apply includes_spec. apply in_map. now apply find_some in Hf.
        * now apply gtb_true.
    - rewrite sampleAt_self, survivalAt_first by (assumption || lra).
      rewrite gtb_true, ltb_true by lra. now left. }
  rewrite Hnil in Hin. contradiction.
Qed.

Lemma fold_left_Rplus_zeros l :
  Forall (fun x => x = 0) l -> fold_left Rplus l 0 = 0.
Proof.
  induction 1 as [|x l Hx _ IH]; simpl; [reflexivity|].
  rewrite Hx, Rplus_0_l. exact IH.
Qed.

Lemma groupEntry_ones n1 n2 name hrs :
  hrs <> [] -> Forall (fun h => h = 1) hrs ->
  coefficient (groupEntry n1 n2 name hrs) = 0 /\
  hazardRatio (groupEntry n1 n2 name hrs) = 1.
Proof.
  intros Hne Hones. unfold groupEntry; cbn [coefficient hazardRatio].
  unfold meanLogHR. cbv zeta.
  assert (Hsum : fold_left Rplus (map Math_log hrs) 0 = 0).
  { apply fold_left_Rplus_zeros. apply List.Forall_forall. intros x Hx.
    apply in_map_iff in Hx. destruct Hx as [h [<- Hh]].
    rewrite List.Forall_forall in Hones. rewrite (Hones h Hh).
    unfold Math_log. apply ln_1. }
  rewrite Hsum. unfold Rdiv. rewrite Rmult_0_l.
  split; [reflexivity | unfold Math_exp; apply exp_0].
Qed.

End SelfComparison.

(** ** The hazard-ratio estimator: entries, standard error, self-comparison *)

Section CoxPHClaims.

Import coxphAnalysis.

Lemma halfAtOne_samples :
  hazardRatios [point 1 0.5] [point 1 0.5] <> [].
Proof.
  apply (hazardRatios_self_nonempty [point 1 0.5] (point 1 0.5)).
  - simpl. now rewrite eqb_refl.
  - simpl. lra.
  - simpl. lra.
Qed.

Lemma halfAtOne_result :
  estimateCoxPH [halfAtOne "A"; halfAtOne "B"] None
  = Some (mkCox "A"
            [groupEntry 100 100 "B" (hazardRatios [point 1 0.5] [point 1 0.5])]
            (waldOf
               [groupEntry 100 100 "B"
                  (hazardRatios [point 1 0.5] [point 1 0.5])])).
Proof.
  pose proof halfAtOne_samples as Hne.
  assert (Hg : flat_map (groupOf None (halfAtOne "A")) [halfAtOne "B"]
               = [groupEntry 100 100 "B"
                    (hazardRatios [point 1 0.5] [point 1 0.5])]).
  { simpl. rewrite app_nil_r. rewrite groupOf_eval by exact Hne.
    unfold countOf, or_default. reflexivity. }
  rewrite estimateCoxPH_eval.
  - now rewrite Hg.
  - simpl. lia.
  - rewrite Hg. discriminate.
Qed.

(** C8.  In every non-null result of [estimateCoxPH], for positive
    supplied counts, every entry has a positive hazard ratio, positive
    interval endpoints and a positive standard error, the hazard ratio
    lies between the endpoints, the coefficient is the logarithm of the
    hazard ratio, and the endpoints are [exp (coefficient -/+ 1.96 se)]. *)
Theorem hazard_ratio_entries_sound :
  forall (data : list SurvivalData) (subtypeCounts : SubtypeCounts)
         (res : CoxPHResult),
    countsPositive subtypeCounts ->
    estimateCoxPH data subtypeCounts = Some res ->
    Forall (fun e =>
              0 < hazardRatio e /\ 0 < lowerCI e /\ 0 < upperCI e /\
              0 < se e /\
              lowerCI e <= hazardRatio e <= upperCI e /\
              coefficient e = ln (hazardRatio e) /\
              lowerCI e = exp (coefficient e - 1.96 * se e) /\
              upperCI e = exp (coefficient e + 1.96 * se e))
           (groups res).
Proof.
  intros data c res Hpos Hres.
  apply estimateCoxPH_Some in Hres.
  destruct Hres as [r [comps [_ [_ [Hg _]]]]].
  rewrite Hg. apply List.Forall_forall. intros e He.
  apply groups_In in He. destruct He as [g [_ [_ ->]]].
  apply groupEntry_sound; now apply countOf_pos.
Qed.

Lemma hazard_ratio_entries_sound_witness :
  Forall (fun e =>
            0 < hazardRatio e /\ 0 < lowerCI e /\ 0 < upperCI e /\
            0 < se e /\
            lowerCI e <= hazardRatio e <= upperCI e /\
            coefficient e = ln (hazardRatio e) /\
            lowerCI e = exp (coefficient e - 1.96 * se e) /\
            upperCI e = exp (coefficient e + 1.96 * se e))
         [groupEntry 100 100 "B" (hazardRatios [point 1 0.5] [point 1 0.5])].
Proof.
  exact (hazard_ratio_entries_sound
           [halfAtOne "A"; halfAtOne "B"] None _
           countsPositive_None halfAtOne_result).
Defined.

(** C9.  For positive counts, every retained entry comes from a
    comparison group whose standard error is at least the floor
    [sqrt (1/n1 + 1/n2) * 0.5], the floor is positive, so the standard
    error is not zero and neither division by it divides by zero; with
    exactly one valid sample the empirical standard deviation is 0 and
    the standard error is the floor. *)
Theorem se_floor_excludes_zero_division :
  forall (data : list SurvivalData) (subtypeCounts : SubtypeCounts)
         (res : CoxPHResult) (e : HazardRatioGroup),
    countsPositive subtypeCounts ->
    estimateCoxPH data subtypeCounts = Some res ->
    In e (groups res) ->
    exists reference group,
      nth_error data 0 = Some reference /\ In group (tl data) /\
      subtype e = SurvivalCurve.subtype group /\
      let n1 := countOf subtypeCounts (SurvivalCurve.subtype reference) in
      let n2 := countOf subtypeCounts (SurvivalCurve.subtype group) in
      let hrs := hazardRatios (timePoints reference) (timePoints group) in
      0 < n1 /\ 0 < n2 /\
      se e >= sqrt (1 / n1 + 1 / n2) * 0.5 /\
      sqrt (1 / n1 + 1 / n2) * 0.5 > 0 /\
      se e <> 0 /\
      (length hrs = 1%nat ->
       baseSE hrs = 0 /\ se e = sqrt (1 / n1 + 1 / n2) * 0.5).
Proof.
  intros data c res e Hpos Hres He.
  apply estimateCoxPH_Some in Hres.
  destruct Hres as [r [comps [-> [_ [Hg _]]]]].
  rewrite Hg in He. apply groups_In in He.
  destruct He as [g [Hin [Hne ->]]].
  exists r, g. cbv zeta.
  pose proof (countOf_pos c (SurvivalCurve.subtype r) Hpos) as H1.
  pose proof (countOf_pos c (SurvivalCurve.subtype g) Hpos) as H2.
  pose proof (seFloor_pos _ _ H1 H2) as Hf.
  pose proof (se_groupEntry_floor
                (countOf c (SurvivalCurve.subtype r))
                (countOf c (SurvivalCurve.subtype g))
                (SurvivalCurve.subtype g)
                (hazardRatios (timePoints r) (timePoints g))) as Hle.
  unfold seFloor, Math_sqrt in Hf, Hle.
  repeat split; try assumption; try lra.
  - destruct (hazardRatios (timePoints r) (timePoints g)) as [|h [|h' l]];
      try discriminate. apply baseSE_single.
  - destruct (hazardRatios (timePoints r) (timePoints g)) as [|h [|h' l]];
      try discriminate. now apply se_groupEntry_single.
Qed.

Lemma se_floor_excludes_zero_division_witness :
  exists reference group,
    nth_error [halfAtOne "A"; halfAtOne "B"] 0 = Some reference /\
    In group [halfAtOne "B"] /\
    "B"%string = SurvivalCurve.subtype group /\
    let n1 := countOf None (SurvivalCurve.subtype reference) in
    let n2 := countOf None (SurvivalCurve.subtype group) in
    let hrs := hazardRatios (timePoints reference) (timePoints group) in
    0 < n1 /\ 0 < n2 /\
    se (groupEntry 100 100 "B" (hazardRatios [point 1 0.5] [point 1 0.5]))
    >= sqrt (1 / n1 + 1 / n2) * 0.5 /\
    sqrt (1 / n1 + 1 / n2) * 0.5 > 0 /\
    se (groupEntry 100 100 "B" (hazardRatios [point 1 0.5] [point 1 0.5]))
    <> 0 /\
    (length hrs = 1%nat ->
     baseSE hrs = 0 /\
     se (groupEntry 100 100 "B" (hazardRatios [point 1 0.5] [point 1 0.5]))
     = sqrt (1 / n1 + 1 / n2) * 0.5).
Proof.
  exact (se_floor_excludes_zero_division
           [halfAtOne "A"; halfAtOne "B"] None _ _
           countsPositive_None halfAtOne_result (or_introl eq_refl)).
Defined.

(** C7, as the code has it.  When some point of a curve [c] with a
    positive time and a survival strictly between 0.05 and 0.99 is the
    first point of [c] carrying its time, [estimateCoxPH [c; c]] is a
    result with a single entry whose coefficient is 0 and whose hazard
    ratio is 1. *)
Theorem reference_against_itself :
  forall (c : SurvivalData) (subtypeCounts : SubtypeCounts)
         (pt : SurvivalTimePoint),
    find (fun q => eqb (time q) (time pt)) (timePoints c) = Some pt ->
    time pt > 0 -> 0.05 < survival pt < 0.99 ->
    exists res e,
      estimateCoxPH [c; c] subtypeCounts = Some res /\
      groups res = [e] /\ coefficient e = 0 /\ hazardRatio e = 1.
Proof.
  intros c counts pt Hf Ht Hs.
  pose proof (hazardRatios_self_nonempty _ _ Hf Ht Hs) as Hne.
  pose proof (hazardRatios_self_ones (timePoints c)) as Hones.
  assert (Hg : flat_map (groupOf counts c) [c]
               = [groupEntry (countOf counts (SurvivalCurve.subtype c))
                             (countOf counts (SurvivalCurve.subtype c))
                             (SurvivalCurve.subtype c)
                             (hazardRatios (timePoints c) (timePoints c))]).
  { simpl. rewrite app_nil_r. now apply groupOf_eval. }
  eexists. eexists. split; [|split].
  - rewrite estimateCoxPH_eval; [reflexivity | simpl; lia |].
    rewrite Hg. discriminate.
  - simpl. exact Hg.
  - now apply groupEntry_ones.
Qed.

Lemma reference_against_itself_witness :
  exists res e,
    estimateCoxPH [halfAtOne "A"; halfAtOne "A"] None = Some res /\
    groups res = [e] /\ coefficient e = 0 /\ hazardRatio e = 1.
Proof.
  apply (reference_against_itself (halfAtOne "A") None (point 1 0.5)).
  - simpl. now rewrite eqb_refl.
  - simpl. lra.
  - simpl. lra.
Defined.

End CoxPHClaims.

Section CoxPHRepeatedTime.

Import coxphAnalysis.

Lemma repeatedTime_samples :
  hazardRatios [point 1 1; point 1 0.5] [point 1 1; point 1 0.5] = [].
Proof.
  unfold hazardRatios, commonTimes, includes. simpl.
  cmp_eval. simpl. rewrite !sampleAt_self.
  unfold survivalAt. simpl. cmp_eval. simpl. unfold or_default.
  cmp_eval. simpl. cmp_eval. reflexivity.
Qed.

(** C7 as stated fails: a curve with a point at a positive time and
    survival 0.5, compared with itself, gives no result when an
    earlier point carries the same time at survival 1. *)
Lemma reference_against_itself_repeated_time :
  (exists pt, In pt (timePoints (repeatedTime "A")) /\
              time pt > 0 /\ 0.05 < survival pt < 0.99) /\
  estimateCoxPH [repeatedTime "A"; repeatedTime "A"] None = None.
Proof.
  split.
  - exists (point 1 0.5). simpl. split; [auto | lra].
  - unfold estimateCoxPH. simpl. unfold groupOf. simpl.
    rewrite repeatedTime_samples. reflexivity.
Qed.

End CoxPHRepeatedTime.

(** ** Shape of the results of [logRankTest] *)

Section LogRankShape.

Import logRankTest.

Lemma logRankTest_short data :
  (length data < 2)%nat -> logRankTest.logRankTest data = None.
Proof.
  intros H. unfold logRankTest.logRankTest.
  destruct (Nat.ltb_spec (length data) 2); [reflexivity | lia].
Qed.

Lemma logRankTest_empty_grid data :
  sortedTimes data = [] -> logRankTest.logRankTest data = None.
Proof.
  intros H. unfold logRankTest.logRankTest. rewrite H.
  destruct (length data <? 2)%nat; reflexivity.
Qed.

Lemma logRankTest_no_variance data :
  snd (statistic data) <= 0 -> logRankTest.logRankTest data = None.
Proof.
  intros H. unfold logRankTest.logRankTest.
  destruct (length data <? 2)%nat; [reflexivity|].
  destruct (sortedTimes data); [reflexivity|].
  destruct (statistic data) as [n d]. simpl in H.
  destruct (Rle_dec d 0); [reflexivity | contradiction].
Qed.

Lemma logRankTest_Some data r :
  logRankTest.logRankTest data = Some r ->
  (2 <= length data)%nat /\ sortedTimes data <> [] /\
  0 < snd (statistic data) /\
  chiSquare r
  = fst (statistic data) * fst (statistic data) / snd (statistic data) /\
  degreesOfFreedom r = (length data - 1)%nat /\
  pValue r = chiSquarePValue (chiSquare r) (degreesOfFreedom r).
Proof.
  unfold logRankTest.logRankTest.
  destruct (Nat.ltb_spec (length data) 2) as [Hlt|Hge]; [discriminate|].
  destruct (sortedTimes data) as [|t ts]; [discriminate|].
  destruct (statistic data) as [n d]. simpl.
  destruct (Rle_dec d 0) as [Hle|Hgt]; [discriminate|].
  intros H. injection H as <-. simpl.
  repeat split; try assumption; try discriminate. lra.
Qed.

Lemma logRankTest_eval data :
  (2 <= length data)%nat -> sortedTimes data <> [] ->
  0 < snd (statistic data) ->
  logRankTest.logRankTest data
  = Some (mkLogRank
            (chiSquarePValue
               (fst (statistic data) * fst (statistic data)
                / snd (statistic data))
               (length data - 1))
            (fst (statistic data) * fst (statistic data)
             / snd (statistic data))
            (length data - 1)).
Proof.
  intros Hlen Hgrid Hden. unfold logRankTest.logRankTest.
  destruct (Nat.ltb_spec (length data) 2) as [Hlt|Hge]; [lia|].
  destruct (sortedTimes data) as [|t ts]; [contradiction|].
  destruct (statistic data) as [n d]. simpl in *.
  destruct (Rle_dec d 0) as [Hle|Hgt]; [lra | reflexivity].
Qed.

End LogRankShape.

(** ** Insufficient input *)

Section InsufficientInput.

Import logRankTest coxphAnalysis.

(** C5.  [logRankTest] returns null for fewer than two groups, for an
    empty time grid and for a variance denominator that is not
    positive; [estimateCoxPH] returns null for fewer than two groups
    and when no comparison group has a valid sample.  Both functions
    are total: null is a value, nothing is raised. *)
Theorem insufficient_input_is_null :
  forall (data : list SurvivalData) (subtypeCounts : SubtypeCounts),
    ((length data < 2)%nat \/ sortedTimes data = [] \/
     snd (statistic data) <= 0 ->
     logRankTest.logRankTest data = None) /\
    ((length data < 2)%nat \/
     (exists reference comparisons,
         data = reference :: comparisons /\
         Forall (fun g => hazardRatios (timePoints reference) (timePoints g)
                          = []) comparisons) ->
     estimateCoxPH data subtypeCounts = None).
Proof.
  intros data c. split.
  - intros [H|[H|H]].
    + now apply logRankTest_short.
    + now apply logRankTest_empty_grid.
    + now apply logRankTest_no_variance.
  - intros [H|[r [comps [-> H]]]].
    + now apply estimateCoxPH_short.
    + unfold estimateCoxPH.
      destruct (length (r :: comps) <? 2)%nat; [reflexivity|].
      cbv zeta.
      assert (Hnil : flat_map (groupOf c r) comps = []).
      { induction H as [|g comps Hg _ IH]; simpl; [reflexivity|].
        rewrite IH, app_nil_r. unfold groupOf. now rewrite Hg. }
      now rewrite Hnil.
Qed.

Lemma insufficient_input_is_null_witness :
  logRankTest.logRankTest [halfAtOne "A"] = None /\
  estimateCoxPH [repeatedTime "A"; repeatedTime "B"] None = None.
Proof.
  split.
  - apply (insufficient_input_is_null [halfAtOne "A"] None).
    left. simpl. lia.
  - apply (insufficient_input_is_null
             [repeatedTime "A"; repeatedTime "B"] None).
    right. exists (repeatedTime "A"), [repeatedTime "B"].
    split; [reflexivity|]. constructor; [|constructor].
    exact repeatedTime_samples.
Defined.

End InsufficientInput.

(** ** Two identical curves *)

Section IdenticalCurves.

Import logRankTest.

Lemma accumulate_identical a e num den :
  0 < 0 + a + a ->
  fst (accumulate (0 + a + a) (0 + e + e) (num, den) (a, e)) = num.
Proof.
  intros Ha. unfold accumulate. cbn [fst].
  replace (a / (0 + a + a) * (0 + e + e)) with e by (field; lra). lra.
Qed.

Lemma timeStep_identical gd1 gd2 acc t :
  timePointMap gd1 = timePointMap gd2 ->
  events gd1 = events gd2 ->
  initialCount gd1 = initialCount gd2 ->
  fst (timeStep [gd1; gd2] acc t) = fst acc.
Proof.
  intros Hm He Hn. unfold timeStep. cbn [map length Nat.sub fold_left].
  assert (Ha : atRiskAt gd2 t = atRiskAt gd1 t)
    by (unfold atRiskAt; now rewrite Hm, Hn).
  assert (Hv : eventsAt gd2 t = eventsAt gd1 t)
    by (unfold eventsAt; now rewrite He).
  rewrite Ha, Hv.
  destruct (Rgt_dec (0 + atRiskAt gd1 t + atRiskAt gd1 t) 0) as [Hpos|Hn0];
    [rewrite (gtb_true _ _ Hpos) | rewrite (gtb_false _ _ Hn0); reflexivity].
  destruct (gtb (0 + eventsAt gd1 t + eventsAt gd1 t) 0); [|reflexivity].
  cbn [andb combine firstn fold_left]. destruct acc as [num den].
  apply accumulate_identical. lra.
Qed.

Lemma statistic_identical g1 g2 :
  timePoints g1 = timePoints g2 -> fst (statistic [g1; g2]) = 0.
Proof.
  intros Hp. unfold statistic. cbv zeta. cbn [map].
  set (times := sortedTimes [g1; g2]).
  assert (Hinv : forall ts acc,
             fst (fold_left
                    (timeStep [groupDataOf times g1; groupDataOf times g2])
                    ts acc) = fst acc).
  { induction ts as [|t ts IH]; intros acc; simpl; [reflexivity|].
    rewrite IH. apply timeStep_identical;
      unfold groupDataOf, timePointMapOf; simpl; rewrite ?Hp; reflexivity. }
  now rewrite Hinv.
Qed.

Lemma chiSquarePValue_zero : chiSquarePValue 0 1 = 0.999999999.
Proof.
  unfold chiSquarePValue. cbn [Nat.eqb]. unfold Math_sqrt. rewrite sqrt_0.
  unfold inlineNormalCDF. cbv zeta.
  destruct (Rlt_dec 0 0) as [H|_]; [lra|].
  unfold Math_abs. rewrite Rabs_R0. unfold Math_exp.
  replace (- 0 * 0 / 2) with 0 by lra. rewrite exp_0.
  replace (1 / (1 + 0.3275911 * 0)) with 1 by (field; lra).
  lra.
Qed.

(** C6.  For two groups with the same points, a non-null log-rank
    result has chi-square exactly 0 (observed minus expected vanishes
    at every grid time) and p-value 0.999999999, within 1e-9 of 1. *)
Theorem identical_curves_no_difference :
  forall (g1 g2 : SurvivalData) (r : LogRankResult),
    timePoints g1 = timePoints g2 ->
    logRankTest.logRankTest [g1; g2] = Some r ->
    fst (statistic [g1; g2]) = 0 /\
    chiSquare r = 0 /\ pValue r = 0.999999999 /\
    Rabs (pValue r - 1) <= 1e-9.
Proof.
  intros g1 g2 r Hp Hr.
  pose proof (statistic_identical g1 g2 Hp) as Hnum.
  apply logRankTest_Some in Hr.
  destruct Hr as [_ [_ [Hden [Hchi [Hdf Hpv]]]]].
  assert (H0 : chiSquare r = 0).
  { rewrite Hchi, Hnum. unfold Rdiv. now rewrite !Rmult_0_l. }
  assert (H1 : pValue r = 0.999999999).
  { rewrite Hpv, H0, Hdf. simpl. apply chiSquarePValue_zero. }
  repeat split; try assumption.
  rewrite H1. rewrite Rabs_left1; lra.
Qed.

Lemma halfAtOne_grid : sortedTimes [halfAtOne "A"; halfAtOne "B"] = [1].
Proof.
  unfold sortedTimes, allTimes, Array_sort, Set_add, includes. simpl.
  cmp_eval. reflexivity.
Qed.

Lemma halfAtOne_statistic :
  0 < snd (statistic [halfAtOne "A"; halfAtOne "B"]).
Proof.
  unfold statistic. rewrite halfAtOne_grid. cbv zeta.
  unfold groupDataOf, timePointMapOf, eventsOf. simpl.
  cmp_eval. simpl. repeat round_eval 50%Z.
  unfold Math_max, Rmax. cmp_eval.
  unfold timeStep, atRiskAt, eventsAt, lastSurvivalBefore, or_default. simpl.
  cmp_eval. repeat round_eval 100%Z. cmp_eval. simpl.
  unfold accumulate. cmp_eval. simpl. lra.
Qed.

Lemma halfAtOne_logRank :
  logRankTest.logRankTest [halfAtOne "A"; halfAtOne "B"]
  = Some (mkLogRank
            (chiSquarePValue
               (fst (statistic [halfAtOne "A"; halfAtOne "B"])
                * fst (statistic [halfAtOne "A"; halfAtOne "B"])
                / snd (statistic [halfAtOne "A"; halfAtOne "B"])) 1)
            (fst (statistic [halfAtOne "A"; halfAtOne "B"])
             * fst (statistic [halfAtOne "A"; halfAtOne "B"])
             / snd (statistic [halfAtOne "A"; halfAtOne "B"])) 1).
Proof.
  apply (logRankTest_eval [halfAtOne "A"; halfAtOne "B"]).
  - simpl. lia.
  - rewrite halfAtOne_grid. discriminate.
  - exact halfAtOne_statistic.
Qed.

Lemma identical_curves_no_difference_witness :
  exists r,
    logRankTest.logRankTest [halfAtOne "A"; halfAtOne "B"] = Some r /\
    fst (statistic [halfAtOne "A"; halfAtOne "B"]) = 0 /\
    chiSquare r = 0 /\ pValue r = 0.999999999 /\
    Rabs (pValue r - 1) <= 1e-9.
Proof.
  eexists. split; [exact halfAtOne_logRank|].
  exact (identical_curves_no_difference
           (halfAtOne "A") (halfAtOne "B") _ eq_refl halfAtOne_logRank).
Defined.

End IdenticalCurves.

(** ** The at-risk reconstruction of [logRankTest] *)

Section AtRisk.

Import logRankTest.

Lemma Map_set_present {V} (f f' : R -> V) (D : list R) (k : R) (v : V) :
  In k D -> List.NoDup D ->
  f' k = v -> (forall x, x <> k -> f' x = f x) ->
  Map_set (map (fun x => (x, f x)) D) k v = map (fun x => (x, f' x)) D.
Proof.
  intros Hin Hnd Hk Hother.
  induction D as [|d D IH]; [contradiction|].
  simpl. apply List.NoDup_cons_iff in Hnd. destruct Hnd as [Hd Hnd].
  destruct (Req_dec_T d k) as [->|Hne].
  - rewrite Hk. f_equal. apply map_ext_in. intros x Hx.
    rewrite Hother; [reflexivity|]. intros ->. contradiction.
  - rewrite (Hother d Hne). f_equal. apply IH; [|assumption].
    destruct Hin as [->|Hin]; [contradiction | assumption].
Qed.

Lemma Map_set_absent {V} (f f' : R -> V) (D : list R) (k : R) (v : V) :
  ~ In k D ->
  f' k = v -> (forall x, x <> k -> f' x = f x) ->
  Map_set (map (fun x => (x, f x)) D) k v
  = map (fun x => (x, f' x)) (D ++ [k]).
Proof.
  intros Hin Hk Hother.
  induction D as [|d D IH]; simpl.
  - now rewrite Hk.
  - destruct (Req_dec_T d k) as [->|Hne].
    + exfalso. apply Hin. now left.
    + rewrite (Hother d Hne). f_equal. apply IH.
      intros H. apply Hin. now right.
Qed.

Lemma Set_add_NoDup s t : List.NoDup s -> List.NoDup (Set_add s t).
Proof.
  intros Hnd. unfold Set_add. destruct (includes s t) eqn:E; [assumption|].
  apply List.NoDup_app; try assumption.
  - constructor; [intros [] | constructor].
  - intros x Hx [<-|[]]. apply includes_spec in Hx. congruence.
Qed.

Lemma distinctTimes_snoc points tp :
  distinctTimes (points ++ [tp]) = Set_add (distinctTimes points) (time tp).
Proof. unfold distinctTimes. now rewrite map_app, fold_left_app. Qed.

Lemma distinctTimes_NoDup points : List.NoDup (distinctTimes points).
Proof.
  induction points as [|tp points IH] using rev_ind.
  - constructor.
  - rewrite distinctTimes_snoc. now apply Set_add_NoDup.
Qed.

Lemma lastSuppliedAt_snoc points tp k :
  lastSuppliedAt (points ++ [tp]) k
  = if eqb (time tp) k then survival tp else lastSuppliedAt points k.
Proof.
  unfold lastSuppliedAt. rewrite List.filter_app, map_app. simpl.
  destruct (eqb (time tp) k); simpl.
  - apply List.last_last.
  - now rewrite app_nil_r.
Qed.

(** The map built by [logRankTest] for a group holds, for each distinct
    time in order of first appearance, the survival supplied last. *)
Lemma timePointMapOf_entries group :
  timePointMapOf group
  = map (fun k => (k, lastSuppliedAt (timePoints group) k))
        (distinctTimes (timePoints group)).
Proof.
  unfold timePointMapOf. generalize (timePoints group) as points.
  induction points as [|tp points IH] using rev_ind; [reflexivity|].
  rewrite fold_left_app. simpl. rewrite IH, distinctTimes_snoc.
  unfold Set_add.
  destruct (includes (distinctTimes points) (time tp)) eqn:E.
  - apply includes_spec in E.
    apply Map_set_present; try assumption.
    + apply distinctTimes_NoDup.
    + now rewrite lastSuppliedAt_snoc, eqb_refl.
    + intros x Hx. rewrite lastSuppliedAt_snoc.
      rewrite eqb_false by congruence. reflexivity.
  - apply Map_set_absent.
    + intros H. apply includes_spec in H. congruence.
    + now rewrite lastSuppliedAt_snoc, eqb_refl.
    + intros x Hx. rewrite lastSuppliedAt_snoc.
      rewrite eqb_false by congruence. reflexivity.
Qed.

Lemma lastSurvivalBefore_entries (f : R -> R) (D : list R) (t acc : R) :
  fold_left (fun lastSurvival '(k, s) =>
               if Rlt_dec k t then s else lastSurvival)
            (map (fun k => (k, f k)) D) acc
  = match rev (List.filter (fun k => ltb k t) D) with
    | [] => acc
    | k :: _ => f k
    end.
Proof.
  revert acc. induction D as [|d D IH]; intros acc; [reflexivity|].
  simpl. rewrite IH. unfold ltb at 2.
  destruct (Rlt_dec d t) as [Hlt|Hge]; [|reflexivity].
  simpl. destruct (rev (List.filter (fun k => ltb k t) D)); reflexivity.
Qed.

Lemma lastSurvivalBefore_raw group t :
  lastSurvivalBefore (timePointMapOf group) t
  = rawSurvivalBefore (timePoints group) t.
Proof.
  unfold lastSurvivalBefore, rawSurvivalBefore.
  rewrite timePointMapOf_entries. apply lastSurvivalBefore_entries.
Qed.

(** C1, as the code has it.  For every group and every time, the
    at-risk count of [logRankTest] is [round (initialCount * s)], where
    [initialCount] is the count the group's data holds and [s] is the
    raw survival last supplied for the distinct time below the grid
    time that appeared last in the group's points (1 when there is
    none); no cleaning is applied. *)
Theorem at_risk_reconstruction :
  forall (data : list SurvivalData) (group : SurvivalData) (t : R),
    atRiskAt (groupDataOf (sortedTimes data) group) t
    = Math_round (initialCount (groupDataOf (sortedTimes data) group)
                  * rawSurvivalBefore (timePoints group) t).
Proof.
  intros data group t.
  unfold atRiskAt, groupDataOf. cbn [initialCount timePointMap].
  now rewrite lastSurvivalBefore_raw.
Qed.

(** The count held for a group is the constant of the source, and the
    call made by the component gives the same result whatever mapping
    it passes. *)
Lemma initialCount_constant (data : list SurvivalData)
      (subtypeCounts : SubtypeCounts) (group : SurvivalData) :
  initialCount (groupDataOf (sortedTimes data) group) = 100 /\
  logRankResult data subtypeCounts = logRankResult data None.
Proof. split; reflexivity. Qed.

(** With the count 50 supplied for group A, the reconstruction at grid
    time 1 is 100, where the stated formula gives 50. *)
Lemma supplied_count_not_used :
  In 1 (sortedTimes [halfAtOne "A"; halfAtOne "B"]) /\
  atRiskAt (groupDataOf (sortedTimes [halfAtOne "A"; halfAtOne "B"])
                        (halfAtOne "A")) 1 = 100 /\
  spec_atRisk (Some {[ "A"%string := 50 ]}) (halfAtOne "A") 1 = 50.
Proof.
  assert (Hcode : atRiskAt (groupDataOf
                              (sortedTimes [halfAtOne "A"; halfAtOne "B"])
                              (halfAtOne "A")) 1 = 100).
  { unfold atRiskAt, groupDataOf, timePointMapOf, lastSurvivalBefore. simpl.
    cmp_eval. round_eval 100%Z. reflexivity. }
  assert (Hspec : spec_atRisk (Some {[ "A"%string := 50 ]}) (halfAtOne "A") 1
                  = 50).
  { unfold spec_atRisk, spec_count, spec_survivalJustBefore. simpl.
    rewrite lookup_singleton_eq. cmp_eval. simpl. round_eval 50%Z.
    reflexivity. }
  rewrite Hcode, Hspec, halfAtOne_grid.
  repeat split. now left.
Qed.

End AtRisk.

(** ** The engines and the cleaning of the component *)

Section Cleaning.

Import logRankTest coxphAnalysis.

Lemma sort_insert_behind {A} (key : A -> R) (x : A) (l : list A) :
  List.Forall (fun h => key h <= key x) l -> sort_insert key x l = l ++ [x].
Proof.
  induction 1 as [|h l Hh _ IH]; simpl; [reflexivity|].
  destruct (Rlt_dec (key x) (key h)) as [Hlt|_]; [lra|].
  now rewrite IH.
Qed.

Lemma Array_sort_from_ascending (points acc : list SurvivalTimePoint) :
  ascending points ->
  List.Forall (fun a => List.Forall (fun q => time a <= time q) points) acc ->
  fold_left (fun sorted x => sort_insert time x sorted) points acc
  = acc ++ points.
Proof.
  revert acc. induction points as [|tp points IH]; intros acc Hasc Hacc.
  - simpl. now rewrite app_nil_r.
  - simpl. destruct Hasc as [Htp Hasc].
    rewrite sort_insert_behind.
    + rewrite IH; [now rewrite <- app_assoc | assumption |].
      apply List.Forall_app. split.
      * eapply List.Forall_impl; [|exact Hacc]. intros a Ha.
        now apply List.Forall_inv_tail in Ha.
      * constructor; [assumption | constructor].
    + eapply List.Forall_impl; [|exact Hacc]. intros a Ha.
      now apply List.Forall_inv in Ha.
Qed.

Lemma Array_sort_ascending points :
  ascending points -> Array_sort time points = points.
Proof.
  intros H. unfold Array_sort.
  rewrite Array_sort_from_ascending; [reflexivity | assumption | constructor].
Qed.

Lemma monotonicFrom_nonIncreasing s points :
  nonIncreasingFrom s points -> monotonicFrom s points = points.
Proof.
  revert s. induction points as [|tp points IH]; intros s H; [reflexivity|].
  simpl in *. destruct H as [Hs H].
  unfold Math_min. rewrite Rmin_right by assumption.
  rewrite IH by assumption. now destruct tp.
Qed.

Lemma monotonic_cleaned group : cleaned group -> monotonic group = group.
Proof.
  intros [Hasc Hmono]. unfold monotonic.
  rewrite Array_sort_ascending by assumption.
  rewrite monotonicFrom_nonIncreasing by assumption.
  now destruct group.
Qed.

Lemma risingData_cleaned :
  map monotonic risingData
  = [mkData "A" [point 1 0.5; point 2 0.4];
     mkData "B" [point 0.5 0.03; point 1 0.03]].
Proof.
  unfold risingData, monotonic, Array_sort, point. js_eval. reflexivity.
Qed.

Lemma risingData_grid : sortedTimes risingData = [0.5; 1; 2].
Proof.
  unfold sortedTimes, allTimes, Array_sort, Set_add, includes. js_eval.
  reflexivity.
Qed.

Lemma risingData_cleaned_grid :
  sortedTimes (map monotonic risingData) = [0.5; 1; 2].
Proof.
  rewrite risingData_cleaned.
  unfold sortedTimes, allTimes, Array_sort, Set_add, includes. js_eval.
  reflexivity.
Qed.

Lemma risingData_statistic :
  statistic risingData
  = (0 + (0 - 100 / (0 + 100 + 100) * (0 + 0 + 97)) +
     (50 - 100 / (0 + 100 + 3) * (0 + 50 + 0)) +
     (10 - 50 / (0 + 50 + 50) * (0 + 10 + 0)),
     0 +
     100 * (0 + 100 + 100 - 100) * (0 + 0 + 97) *
     (0 + 100 + 100 - (0 + 0 + 97)) /
     ((0 + 100 + 100) * (0 + 100 + 100) * (0 + 100 + 100 - 1)) +
     100 * (0 + 100 + 3 - 100) * (0 + 50 + 0) * (0 + 100 + 3 - (0 + 50 + 0)) /
     ((0 + 100 + 3) * (0 + 100 + 3) * (0 + 100 + 3 - 1)) +
     50 * (0 + 50 + 50 - 50) * (0 + 10 + 0) * (0 + 50 + 50 - (0 + 10 + 0)) /
     ((0 + 50 + 50) * (0 + 50 + 50) * (0 + 50 + 50 - 1))).
Proof.
  unfold statistic. rewrite risingData_grid. cbv zeta.
  unfold risingData, groupDataOf, timePointMapOf, eventsOf. js_eval.
  repeat first [round_eval 50%Z | round_eval 10%Z | round_eval 97%Z].
  js_eval.
  unfold timeStep, atRiskAt, eventsAt, lastSurvivalBefore, or_default. js_eval.
  repeat first [round_eval 100%Z | round_eval 50%Z | round_eval 3%Z].
  js_eval.
  unfold accumulate. js_eval. reflexivity.
Qed.

Lemma risingData_cleaned_statistic :
  statistic (map monotonic risingData)
  = (0 + (0 - 100 / (0 + 100 + 100) * (0 + 0 + 97)) +
     (50 - 100 / (0 + 100 + 3) * (0 + 50 + 0)) +
     (10 - 50 / (0 + 50 + 3) * (0 + 10 + 0)),
     0 +
     100 * (0 + 100 + 100 - 100) * (0 + 0 + 97) *
     (0 + 100 + 100 - (0 + 0 + 97)) /
     ((0 + 100 + 100) * (0 + 100 + 100) * (0 + 100 + 100 - 1)) +
     100 * (0 + 100 + 3 - 100) * (0 + 50 + 0) * (0 + 100 + 3 - (0 + 50 + 0)) /
     ((0 + 100 + 3) * (0 + 100 + 3) * (0 + 100 + 3 - 1)) +
     50 * (0 + 50 + 3 - 50) * (0 + 10 + 0) * (0 + 50 + 3 - (0 + 10 + 0)) /
     ((0 + 50 + 3) * (0 + 50 + 3) * (0 + 50 + 3 - 1))).
Proof.
  unfold statistic. rewrite risingData_cleaned_grid, risingData_cleaned.
  cbv zeta.
  unfold groupDataOf, timePointMapOf, eventsOf. js_eval.
  repeat first [round_eval 50%Z | round_eval 10%Z | round_eval 97%Z].
  js_eval.
  unfold timeStep, atRiskAt, eventsAt, lastSurvivalBefore, or_default. js_eval.
  repeat first [round_eval 100%Z | round_eval 50%Z | round_eval 3%Z].
  js_eval.
  unfold accumulate. js_eval. reflexivity.
Qed.

Lemma risingData_samples :
  hazardRatios [point 1 0.5; point 2 0.4] [point 0.5 0.03; point 1 0.5] = [1].
Proof.
  unfold hazardRatios, commonTimes, includes. js_eval.
  rewrite sampleAt_same; unfold survivalAt, or_default; js_eval; reflexivity.
Qed.

Lemma risingData_cleaned_samples :
  hazardRatios [point 1 0.5; point 2 0.4] [point 0.5 0.03; point 1 0.03] = [].
Proof.
  unfold hazardRatios, commonTimes, includes. js_eval.
  unfold sampleAt, survivalAt, or_default. js_eval. reflexivity.
Qed.

(** C2 as stated fails: on a comparison curve whose raw survival rises,
    each engine gives one result on the supplied curves and another on
    the cleaned curves. *)
Lemma engines_run_on_supplied_points :
  estimateCoxPH risingData None
  <> estimateCoxPH (map monotonic risingData) None /\
  logRankTest.logRankTest risingData
  <> logRankTest.logRankTest (map monotonic risingData).
Proof.
  split.
  - rewrite risingData_cleaned. unfold risingData, estimateCoxPH, groupOf.
    simpl. rewrite risingData_samples, risingData_cleaned_samples. simpl.
    discriminate.
  - rewrite (logRankTest_eval risingData);
      [| simpl; lia | rewrite risingData_grid; discriminate
       | rewrite risingData_statistic; simpl; lra].
    rewrite (logRankTest_eval (map monotonic risingData));
      [| simpl; lia | rewrite risingData_cleaned_grid; discriminate
       | rewrite risingData_cleaned_statistic; simpl; lra].
    rewrite risingData_statistic, risingData_cleaned_statistic.
    cbn [fst snd]. intros H. injection H as _ H. lra.
Qed.

(** With no counts supplied, for the group of [risingData] whose raw
    survival rises from 0.03 to 0.5, the reconstruction at grid time 2
    is 50 (from the raw 0.5), where the stated formula gives 3 (from
    the cleaned 0.03). *)
Lemma raw_survival_used :
  In 2 (sortedTimes risingData) /\
  atRiskAt (groupDataOf (sortedTimes risingData)
                        (mkData "B" [point 0.5 0.03; point 1 0.5])) 2 = 50 /\
  spec_atRisk None (mkData "B" [point 0.5 0.03; point 1 0.5]) 2 = 3.
Proof.
  rewrite risingData_grid. repeat split.
  - simpl. auto.
  - unfold atRiskAt, groupDataOf, timePointMapOf, lastSurvivalBefore. js_eval.
    round_eval 50%Z. reflexivity.
  - unfold spec_atRisk, spec_count, spec_survivalJustBefore, monotonic,
      Array_sort. js_eval. round_eval 3%Z. reflexivity.
Qed.

(** C1 as stated fails twice over: a supplied count does not reach the
    reconstruction (100 where the stated formula gives 50), and the
    survival it multiplies is the raw one, not the cleaned one (50
    where the stated formula gives 3). *)
Lemma at_risk_not_as_stated :
  (In 1 (sortedTimes [halfAtOne "A"; halfAtOne "B"]) /\
   atRiskAt (groupDataOf (sortedTimes [halfAtOne "A"; halfAtOne "B"])
                         (halfAtOne "A")) 1 = 100 /\
   spec_atRisk (Some {[ "A"%string := 50 ]}) (halfAtOne "A") 1 = 50) /\
  (In 2 (sortedTimes risingData) /\
   atRiskAt (groupDataOf (sortedTimes risingData)
                         (mkData "B" [point 0.5 0.03; point 1 0.5])) 2 = 50 /\
   spec_atRisk None (mkData "B" [point 0.5 0.03; point 1 0.5]) 2 = 3) /\
  atRiskAt (groupDataOf (sortedTimes [halfAtOne "A"; halfAtOne "B"])
                        (halfAtOne "A")) 1
  <> spec_atRisk (Some {[ "A"%string := 50 ]}) (halfAtOne "A") 1 /\
  atRiskAt (groupDataOf (sortedTimes risingData)
                        (mkData "B" [point 0.5 0.03; point 1 0.5])) 2
  <> spec_atRisk None (mkData "B" [point 0.5 0.03; point 1 0.5]) 2.
Proof.
  pose proof supplied_count_not_used as Hcount.
  pose proof raw_survival_used as Hraw.
  split; [exact Hcount|]. split; [exact Hraw|].
  destruct Hcount as [_ [H1 H2]]. destruct Hraw as [_ [H3 H4]].
  rewrite H1, H2, H3, H4. split; lra.
Qed.

End Cleaning.

(** ** The two evaluations of the standard normal distribution *)

Section NormalCDF.

Import logRankTest coxphAnalysis.

Lemma poly_derivable : derivable poly.
Proof. unfold poly. reg. Qed.

Lemma poly_derive t (pr : derivable_pt poly t) : derive_pt poly t pr = dpoly t.
Proof. unfold dpoly. revert pr. unfold poly. intros pr. reg. Qed.

Lemma poly_derivable_pt_lim t : derivable_pt_lim poly t (dpoly t).
Proof.
  apply (derive_pt_eq_1 poly t (dpoly t) (poly_derivable t)).
  apply poly_derive.
Qed.

Lemma dpoly_pos t : 0 < dpoly t.
Proof.
  unfold dpoly.
  assert (Hq : 2.6 <= 3 * a3 + 4 * a4 * t + 5 * a5 * (t * t)).
  { unfold a3, a4, a5. pose proof (pow2_ge_0 (t - 0.5476)). nra. }
  assert (Hlow : a1 + 2 * a2 * t + 2.6 * (t * t)
                 <= a1 + 2 * a2 * t + 3 * a3 * (t * t)
                    + 4 * a4 * (t * t * t) + 5 * a5 * (t * t * t * t)).
  { assert (0 <= t * t) by nra. nra. }
  assert (0 < a1 + 2 * a2 * t + 2.6 * (t * t)).
  { unfold a1, a2. pose proof (pow2_ge_0 (t - 0.1094)). nra. }
  lra.
Qed.

(** The polynomial factor is strictly increasing. *)
Lemma poly_increasing a b : a < b -> poly a < poly b.
Proof.
  intros Hab.
  destruct (MVT_cor2 poly dpoly a b Hab) as [c [Hc _]].
  - intros c _. apply poly_derivable_pt_lim.
  - pose proof (dpoly_pos c). nra.
Qed.

Lemma poly_0 : poly 0 = 0.
Proof. unfold poly. lra. Qed.

Lemma poly_1 : poly 1 = 0.999999999.
Proof. unfold poly, a1, a2, a3, a4, a5. lra. Qed.

Lemma poly_unit t : 0 < t <= 1 -> 0 < poly t < 1.
Proof.
  intros [H0 H1]. split.
  - rewrite <- poly_0. now apply poly_increasing.
  - destruct H1 as [H1| ->].
    + pose proof (poly_increasing t 1 H1). rewrite poly_1 in *. lra.
    + rewrite poly_1. lra.
Qed.

Lemma inlineNormalCDF_nonneg z :
  0 <= z ->
  inlineNormalCDF z
  = 0.5 * (1 + 1 * (1 - poly (1 / (1 + p * z)) * exp (- z * z / 2))).
Proof.
  intros Hz. unfold inlineNormalCDF. cbv zeta.
  destruct (Rlt_dec z 0) as [Hneg|_]; [lra|].
  unfold Math_abs, Math_exp. rewrite (Rabs_right z) by lra. reflexivity.
Qed.

Lemma normalCDF_nonneg z :
  0 <= z ->
  normalCDF z
  = 0.5 * (1 + 1 * (1 - poly (1 / (1 + p * (z / sqrt 2)))
                        * exp (- z * z / 2))).
Proof.
  intros Hz. unfold normalCDF. cbv zeta.
  destruct (Rlt_dec z 0) as [Hneg|_]; [lra|].
  unfold Math_abs, Math_exp, Math_sqrt. rewrite (Rabs_right z) by lra.
  pose proof Rlt_sqrt2_0 as Hs. pose proof (sqrt_sqrt 2 ltac:(lra)) as Hss.
  replace (- (z / sqrt 2) * (z / sqrt 2)) with (- z * z / (sqrt 2 * sqrt 2))
    by (field; lra).
  now rewrite Hss.
Qed.

Lemma sqrt2_gt_1 : 1 < sqrt 2.
Proof. rewrite <- sqrt_1 at 1. apply sqrt_lt_1; lra. Qed.

(** For every positive [z] the evaluation inside [chiSquarePValue] lies
    strictly above [normalCDF]: its rational argument is
    [1 / (1 + p z)] where [normalCDF] has [1 / (1 + p z / sqrt 2)]. *)
Lemma inlineNormalCDF_above z : 0 < z -> normalCDF z < inlineNormalCDF z.
Proof.
  intros Hz.
  rewrite inlineNormalCDF_nonneg, normalCDF_nonneg by lra.
  pose proof sqrt2_gt_1 as Hs.
  assert (Hp : 0 < p) by (unfold p; lra).
  assert (Hx : z / sqrt 2 < z).
  { apply Rmult_lt_reg_r with (sqrt 2); [lra|].
    unfold Rdiv. rewrite Rmult_assoc, Rinv_l by lra. nra. }
  assert (Hxpos : 0 < z / sqrt 2) by (apply Rdiv_lt_0_compat; lra).
  assert (Ht : 1 / (1 + p * z) < 1 / (1 + p * (z / sqrt 2))).
  { generalize dependent (z / sqrt 2). intros x Hx Hxpos.
    unfold Rdiv. rewrite !Rmult_1_l.
    assert (0 < p * x) by (apply Rmult_lt_0_compat; lra).
    assert (0 < p * z) by (apply Rmult_lt_0_compat; lra).
    apply Rinv_lt_contravar.
    - apply Rmult_lt_0_compat; lra.
    - apply Rplus_lt_compat_l. apply Rmult_lt_compat_l; lra. }
  pose proof (poly_increasing _ _ Ht) as Hpoly.
  pose proof (exp_pos (- z * z / 2)) as He.
  nra.
Qed.

Lemma chiSquarePValue_df1 chi :
  chiSquarePValue chi 1 = 2 * (1 - inlineNormalCDF (sqrt chi)).
Proof. reflexivity. Qed.

Lemma unequalData_grid : sortedTimes unequalData = [1].
Proof.
  unfold sortedTimes, allTimes, Array_sort, Set_add, includes. js_eval.
  reflexivity.
Qed.

Lemma unequalData_statistic :
  statistic unequalData
  = (0 + (50 - 100 / (0 + 100 + 100) * (0 + 50 + 10)),
     0 + 100 * (0 + 100 + 100 - 100) * (0 + 50 + 10)
         * (0 + 100 + 100 - (0 + 50 + 10))
         / ((0 + 100 + 100) * (0 + 100 + 100) * (0 + 100 + 100 - 1))).
Proof.
  unfold statistic. rewrite unequalData_grid. cbv zeta.
  unfold unequalData, groupDataOf, timePointMapOf, eventsOf. js_eval.
  repeat first [round_eval 50%Z | round_eval 10%Z].
  js_eval.
  unfold timeStep, atRiskAt, eventsAt, lastSurvivalBefore, or_default. js_eval.
  repeat round_eval 100%Z.
  js_eval.
  unfold accumulate. js_eval. reflexivity.
Qed.

(** C3 fails on the code.  The evaluation written out in
    [chiSquarePValue] is not [normalCDF]: at [z = 1] the two differ, and
    for the two groups of [unequalData] (one degree of freedom, positive
    chi-square) the p-value returned by [logRankTest] is strictly below
    [2 * (1 - normalCDF (sqrt chiSquare))]. *)
Theorem log_rank_p_value_is_not_normalCDF :
  normalCDF 1 < inlineNormalCDF 1 /\
  exists r,
    logRankTest.logRankTest unequalData = Some r /\
    degreesOfFreedom r = 1%nat /\ 0 < logRankTest.chiSquare r /\
    logRankTest.pValue r
    < 2 * (1 - normalCDF (sqrt (logRankTest.chiSquare r))).
Proof.
  split; [apply inlineNormalCDF_above; lra|].
  eexists. split.
  - apply (logRankTest_eval unequalData).
    + simpl. lia.
    + rewrite unequalData_grid. discriminate.
    + rewrite unequalData_statistic. simpl. lra.
  - cbn [degreesOfFreedom logRankTest.chiSquare logRankTest.pValue length
         Nat.sub].
    assert (Hchi : 0 < fst (statistic unequalData) * fst (statistic unequalData)
                       / snd (statistic unequalData)).
    { rewrite unequalData_statistic. simpl. lra. }
    repeat split; [assumption|].
    rewrite chiSquarePValue_df1.
    pose proof (inlineNormalCDF_above _ (sqrt_lt_R0 _ Hchi)). lra.
Qed.

End NormalCDF.

(** ** The aggregate Wald p-value on a very large input *)

Section WaldPValue.

Import coxphAnalysis.

Lemma gammainc_cf_step fuel i a b c d h :
  1e-30 <= Rabs (- i * (i - a) * d + (b + 2)) ->
  1e-30 <= Rabs (b + 2 + - i * (i - a) / c) ->
  1e-10 <= Rabs (1 / (- i * (i - a) * d + (b + 2))
                 * (b + 2 + - i * (i - a) / c) - 1) ->
  gammainc_cf (S fuel) i a b c d h
  = gammainc_cf fuel (i + 1) a (b + 2)
      (b + 2 + - i * (i - a) / c)
      (1 / (- i * (i - a) * d + (b + 2)))
      (h * (1 / (- i * (i - a) * d + (b + 2))
            * (b + 2 + - i * (i - a) / c))).
Proof.
  intros Hd Hc Hdel. cbn [gammainc_cf]. unfold Math_abs.
  destruct (Rlt_dec (Rabs (- i * (i - a) * d + (b + 2))) 1e-30) as [H|_];
    [exfalso; apply (Rlt_not_le _ _ H); assumption|].
  destruct (Rlt_dec (Rabs (b + 2 + - i * (i - a) / c)) 1e-30) as [H|_];
    [exfalso; apply (Rlt_not_le _ _ H); assumption|].
  destruct (Rlt_dec _ 1e-10) as [H|_];
    [exfalso; apply (Rlt_not_le _ _ H); assumption|].
  reflexivity.
Qed.

Lemma Rabs_div_pos x P : 0 < P -> Rabs (x / P) = Rabs x / P.
Proof.
  intros HP. unfold Rdiv. rewrite Rabs_mult, (Rabs_right (/ P)); [reflexivity|].
  apply Rle_ge, Rlt_le, Rinv_0_lt_compat, HP.
Qed.

Lemma le_div_pos c y P : 0 < P -> c * P <= y -> c <= y / P.
Proof.
  intros HP H. apply Rmult_le_reg_r with P; [assumption|].
  unfold Rdiv. rewrite Rmult_assoc, Rinv_l, Rmult_1_r by lra. exact H.
Qed.

Lemma lt_div_pos c y P : 0 < P -> c * P < y -> c < y / P.
Proof.
  intros HP H. apply Rmult_lt_reg_r with P; [assumption|].
  unfold Rdiv. rewrite Rmult_assoc, Rinv_l, Rmult_1_r by lra. exact H.
Qed.

Lemma log2_product_lt (A B X : Z) :
  (0 < A)%Z -> (0 < B)%Z ->
  (Z.log2 A + Z.log2 B + 2 <= Z.log2 X)%Z -> (A * B < X)%Z.
Proof.
  intros HA HB Hlog.
  assert (HX : (0 < X)%Z).
  { destruct (Z.lt_trichotomy 0 X) as [H|[H|H]]; [assumption| |].
    - subst X. simpl in Hlog. pose proof (Z.log2_nonneg A). pose proof (Z.log2_nonneg B). lia.
    - rewrite (Z.log2_nonpos X) in Hlog by lia. pose proof (Z.log2_nonneg A). pose proof (Z.log2_nonneg B). lia. }
  pose proof (Z.log2_spec A HA) as [_ HA2].
  pose proof (Z.log2_spec B HB) as [_ HB2].
  pose proof (Z.log2_spec X HX) as [HX1 _].
  pose proof (Z.log2_nonneg A). pose proof (Z.log2_nonneg B).
  assert (A * B < 2 ^ Z.succ (Z.log2 A) * 2 ^ Z.succ (Z.log2 B))%Z.
  { apply Z.mul_lt_mono_nonneg; lia. }
  rewrite <- Z.pow_add_r in H1 by lia.
  assert (2 ^ (Z.succ (Z.log2 A) + Z.succ (Z.log2 B)) <= 2 ^ Z.log2 X)%Z.
  { apply Z.pow_le_mono_r; lia. }
  lia.
Qed.

Lemma lentzZ_sound (K : R) : 0 < K ->
  forall fuel n a b A1 A B1 B D A' B',
    (0 < A1)%Z -> (0 < A)%Z -> (0 < B1)%Z -> (0 < B)%Z ->
    D = (A * B1 - A1 * B)%Z ->
    lentzZ fuel n a b A1 A B1 B D = Some (A', B') ->
    (0 < A')%Z /\ (0 < B')%Z /\
    gammainc_cf fuel (IZR n) (IZR a) (IZR b)
                (IZR A / IZR A1) (IZR B1 / IZR B) (IZR A / (K * IZR B))
    = IZR A' / (K * IZR B').
Proof.
  intros HK. induction fuel as [|fuel IH];
    intros n a b A1 A B1 B D A' B' HA1 HA HB1 HB HD Hrun.
  - simpl in Hrun. injection Hrun as <- <-. simpl. auto.
  - cbn [lentzZ] in Hrun.
    set (an := (- n * (n - a))%Z) in *.
    set (b' := (b + 2)%Z) in *.
    set (An := (b' * A + an * A1)%Z) in *.
    set (Bn := (b' * B + an * B1)%Z) in *.
    set (Dn := (- an * D)%Z) in *.
    destruct ((0 <? an)%Z) eqn:Ean; [|discriminate].
    destruct ((A <=? An)%Z) eqn:EA; [|discriminate].
    destruct ((B <=? Bn)%Z) eqn:EB; [|discriminate].
    destruct ((Z.log2 A + Z.log2 Bn + 2 <=? Z.log2 (Z.abs Dn * 10 ^ 10))%Z) eqn:EL;
      [|discriminate].
    cbn [andb] in Hrun.
    apply Z.ltb_lt in Ean. apply Z.leb_le in EA, EB, EL.
    assert (HAn : (0 < An)%Z) by lia.
    assert (HBn : (0 < Bn)%Z) by lia.
    assert (HDn : Dn = (An * B - A * Bn)%Z) by (subst Dn An Bn D; ring).
    specialize (IH (n + 1)%Z a b' A An B Bn Dn A' B' HA HAn HB HBn HDn Hrun).
    destruct IH as [HA' [HB' IH]].
    split; [assumption|]. split; [assumption|].
    assert (RA1 : 0 < IZR A1) by (now apply IZR_lt).
    assert (RA : 0 < IZR A) by (now apply IZR_lt).
    assert (RB1 : 0 < IZR B1) by (now apply IZR_lt).
    assert (RB : 0 < IZR B) by (now apply IZR_lt).
    assert (RAn : 0 < IZR An) by (now apply IZR_lt).
    assert (RBn : 0 < IZR Bn) by (now apply IZR_lt).
    assert (Ran : - IZR n * (IZR n - IZR a) = IZR an).
    { subst an. rewrite mult_IZR, opp_IZR, minus_IZR. reflexivity. }
    assert (Rb : IZR b + 2 = IZR b').
    { subst b'. rewrite plus_IZR. reflexivity. }
    assert (Rd : - IZR n * (IZR n - IZR a) * (IZR B1 / IZR B) + (IZR b + 2)
                 = IZR Bn / IZR B).
    { rewrite Ran, Rb. subst Bn. rewrite plus_IZR, !mult_IZR. field. lra. }
    assert (Rc : IZR b + 2 + - IZR n * (IZR n - IZR a) / (IZR A / IZR A1)
                 = IZR An / IZR A).
    { rewrite Ran, Rb. subst An. rewrite plus_IZR, !mult_IZR. field. lra. }
    assert (Rdel : 1 / (IZR Bn / IZR B) * (IZR An / IZR A) - 1
                   = IZR Dn / (IZR A * IZR Bn)).
    { rewrite HDn, minus_IZR, !mult_IZR. field. lra. }
    rewrite gammainc_cf_step.
    + rewrite Rd, Rc, Rb.
      replace (IZR n + 1) with (IZR (n + 1)) by (rewrite plus_IZR; reflexivity).
      replace (1 / (IZR Bn / IZR B)) with (IZR B / IZR Bn) by (field; lra).
      replace (IZR A / (K * IZR B) * (IZR B / IZR Bn * (IZR An / IZR A)))
        with (IZR An / (K * IZR Bn)) by (field; lra).
      exact IH.
    + rewrite Rd. rewrite Rabs_right.
      * apply Rle_trans with 1; [lra|].
        apply Rmult_le_reg_r with (IZR B); [lra|].
        unfold Rdiv. rewrite Rmult_assoc, Rinv_l by lra.
        rewrite Rmult_1_l, Rmult_1_r. now apply IZR_le.
      * apply Rle_ge. apply Rlt_le. apply Rdiv_lt_0_compat; lra.
    + rewrite Rc. rewrite Rabs_right.
      * apply Rle_trans with 1; [lra|].
        apply Rmult_le_reg_r with (IZR A); [lra|].
        unfold Rdiv. rewrite Rmult_assoc, Rinv_l by lra.
        rewrite Rmult_1_l, Rmult_1_r. now apply IZR_le.
      * apply Rle_ge. apply Rlt_le. apply Rdiv_lt_0_compat; lra.
    + rewrite Rd, Rc, Rdel.
      pose proof (log2_product_lt A Bn _ HA HBn EL) as Hlt.
      apply IZR_lt in Hlt. rewrite !mult_IZR, abs_IZR in Hlt.
      replace (IZR (10 ^ 10)) with 1e10 in Hlt by (simpl; lra).
      set (P := IZR A * IZR Bn) in *.
      assert (RP : 0 < P) by (apply Rmult_lt_0_compat; lra).
      rewrite (Rabs_div_pos _ _ RP). apply le_div_pos; [assumption | lra].
Qed.

Lemma lentz_value :
  match lentzZ 100 1 17999998 3 1 (10 ^ 30) 1 3 (10 ^ 30 - 3) with
  | Some (A, B) => (18 * 10 ^ 30 * B <? 10000 * A)%Z
  | None => false
  end = true.
Proof. vm_compute. reflexivity. Qed.

Lemma gammainc_cf_big :
  0.0018 < gammainc_cf 100 1 17999998 3 1e30 (1 / 3) (1 / 3).
Proof.
  pose proof lentz_value as Hv.
  destruct (lentzZ 100 1 17999998 3 1 (10 ^ 30) 1 3 (10 ^ 30 - 3))
    as [[A' B']|] eqn:Hrun; [|discriminate].
  apply Z.ltb_lt in Hv.
  assert (HK : 0 < 1e30) by lra.
  assert (H1 : (0 < 1)%Z) by lia.
  assert (H3 : (0 < 3)%Z) by lia.
  assert (HA : (0 < 10 ^ 30)%Z) by lia.
  destruct (lentzZ_sound 1e30 HK _ _ _ _ _ _ _ _ _ _ _
              H1 HA H1 H3 eq_refl Hrun)
    as [HA' [HB' Heq]].
  replace (IZR (10 ^ 30) / IZR 1) with 1e30 in Heq by (simpl; lra).
  replace (IZR 1 / IZR 3) with (1 / 3) in Heq by lra.
  replace (IZR (10 ^ 30) / (1e30 * IZR 3)) with (1 / 3) in Heq
    by (simpl; lra).
  rewrite Heq.
  apply IZR_lt in Hv. rewrite !mult_IZR in Hv.
  replace (IZR (10 ^ 30)) with 1e30 in Hv by (simpl; lra).
  apply IZR_lt in HB'.
  apply lt_div_pos; lra.
Qed.

Lemma ln_le_minus_1 y : 0 < y -> ln y <= y - 1.
Proof.
  intros Hy. destruct (Req_dec_T (ln y) 0) as [H0|Hn].
  - rewrite H0. rewrite <- (exp_ln y Hy), H0, exp_0. lra.
  - pose proof (exp_ineq1 (ln y) Hn) as H. rewrite exp_ln in H by assumption. lra.
Qed.

Lemma ln_quot x y : 0 < x -> 0 < y -> ln (x / y) = ln x - ln y.
Proof.
  intros Hx Hy. unfold Rdiv. rewrite ln_mult, ln_Rinv; try assumption.
  - lra.
  - now apply Rinv_0_lt_compat.
Qed.

Lemma gammaLn_unfold x :
  gammaLn x
  = - (x + 5.5 - (x + 0.5) * ln (x + 5.5))
    + ln (2.5066282746310005 * gammaLn_ser x / x).
Proof. reflexivity. Qed.

Lemma gammaLn_ser_big : 0 < gammaLn_ser 17999998 < 1.000001.
Proof. unfold gammaLn_ser. split; lra. Qed.

Lemma exponent_big :
  - ln (4243 * (2.5066282746310005 * gammaLn_ser 17999998 / 17999998))
  <= - (18000000) + 17999998 * ln 18000000 - gammaLn 17999998.
Proof.
  rewrite gammaLn_unfold.
  pose proof gammaLn_ser_big as [Hs0 Hs1].
  set (S := 2.5066282746310005 * gammaLn_ser 17999998 / 17999998).
  assert (HS : 0 < S) by (unfold S; apply Rdiv_lt_0_compat; lra).
  rewrite ln_mult by lra.
  replace (17999998 + 5.5) with 18000003.5 by lra.
  replace (17999998 + 0.5) with 17999998.5 by lra.
  assert (H1 : ln 18000003.5 - ln 18000000 <= 3.5 / 18000000).
  { rewrite <- ln_quot by lra.
    eapply Rle_trans; [apply ln_le_minus_1; lra | lra]. }
  assert (H2 : ln 18000003.5 <= 2 * ln 4243).
  { replace (2 * ln 4243) with (ln (4243 * 4243)) by (rewrite ln_mult by lra; lra).
    destruct (Rle_lt_or_eq_dec 18000003.5 (4243 * 4243) ltac:(lra)) as [Hlt|Heq].
    - left. apply ln_increasing; lra.
    - rewrite Heq. lra. }
  nra.
Qed.

Lemma exp_factor_big :
  1692 < exp (- (18000000) + 17999998 * ln 18000000 - gammaLn 17999998).
Proof.
  pose proof gammaLn_ser_big as [Hs0 Hs1].
  set (S := 2.5066282746310005 * gammaLn_ser 17999998 / 17999998).
  assert (HS : 0 < S) by (unfold S; apply Rdiv_lt_0_compat; lra).
  assert (HS1 : 4243 * S < / 1692).
  { unfold S. apply Rmult_lt_reg_r with 17999998; [lra|].
    replace (4243 * (2.5066282746310005 * gammaLn_ser 17999998 / 17999998)
             * 17999998)
      with (4243 * 2.5066282746310005 * gammaLn_ser 17999998) by (field; lra).
    lra. }
  eapply Rlt_le_trans; [|apply exp_monotone, exponent_big].
  fold S. rewrite exp_Ropp, exp_ln by lra.
  rewrite <- (Rinv_inv 1692) at 1.
  apply Rinv_lt_contravar; [|assumption].
  apply Rmult_lt_0_compat; lra.
Qed.

(** The regularised incomplete gamma function of the code is negative
    at [a = 17999998], [x = 18000000]. *)
Lemma gammainc_big : gammainc 17999998 18000000 < -2.
Proof.
  unfold gammainc. cmp_eval. cbn [orb]. cmp_eval. cbv zeta.
  replace (18000000 + 1 - 17999998) with 3 by lra.
  pose proof gammainc_cf_big as Hh.
  pose proof exp_factor_big as He.
  unfold Math_exp, Math_log.
  set (E := exp (- (18000000) + 17999998 * ln 18000000 - gammaLn 17999998)) in *.
  set (h := gammainc_cf 100 1 17999998 3 1e30 (1 / 3) (1 / 3)) in *.
  assert (1692 * 0.0018 < E * h) by (apply Rmult_le_0_lt_compat; lra).
  lra.
Qed.

Lemma div_eq c a b : b <> 0 -> a = c * b -> a / b = c.
Proof. intros Hb ->. field. exact Hb. Qed.

Lemma ln_quarter : Math_log 0.25 / Math_log 0.5 = 2.
Proof.
  unfold Math_log. replace 0.25 with (0.5 * 0.5) by lra.
  rewrite ln_mult by lra.
  assert (ln 0.5 < 0) by (apply ln_neg; lra). field. lra.
Qed.

Lemma ln_sixteenth : Math_log 0.0625 / Math_log 0.5 = 4.
Proof.
  unfold Math_log. replace 0.0625 with (0.5 * 0.5 * (0.5 * 0.5)) by lra.
  rewrite !ln_mult by lra.
  assert (ln 0.5 < 0) by (apply ln_neg; lra). field. lra.
Qed.

Lemma steep_samples : hazardRatios refPoints steepPoints = [2; 4].
Proof.
  unfold hazardRatios, commonTimes, includes, refPoints, steepPoints. js_eval.
  unfold sampleAt, survivalAt, or_default. js_eval.
  rewrite ln_quarter, ln_sixteenth. js_eval. reflexivity.
Qed.

Lemma same_samples :
  hazardRatios refPoints refPoints <> [] /\
  Forall (fun h => h = 1) (hazardRatios refPoints refPoints).
Proof.
  split; [|apply hazardRatios_self_ones].
  apply (hazardRatios_self_nonempty refPoints (point 1 0.5)).
  - unfold refPoints. js_eval. reflexivity.
  - simpl. lra.
  - simpl. lra.
Qed.

Lemma steep_entry name :
  (coefficient (groupEntry 100 100 name [2; 4])
   / se (groupEntry 100 100 name [2; 4])) ^ 2 = 4.5.
Proof.
  unfold groupEntry. cbn [coefficient se].
  pose proof ln_lt_2 as HL.
  assert (H4 : ln 4 = 2 * ln 2).
  { replace 4 with (2 * 2) by lra. rewrite ln_mult by lra. lra. }
  assert (Hm : meanLogHR [2; 4] = 1.5 * ln 2).
  { unfold meanLogHR, Math_log. simpl. rewrite H4. lra. }
  assert (Hv : baseSE [2; 4] = sqrt (0.5 * (ln 2 * ln 2))).
  { unfold baseSE. rewrite Hm. unfold Math_sqrt, Math_log, or_default. simpl.
    destruct (Req_dec_T (1 + 1 - 1) 0) as [H|_]; [lra|].
    apply f_equal. rewrite H4. generalize (ln 2). intros L. nra. }
  rewrite Hm, Hv.
  assert (Hfloor : Math_sqrt (1 / 100 + 1 / 100) * 0.5
                   <= sqrt (0.5 * (ln 2 * ln 2))).
  { unfold Math_sqrt.
    replace 0.5 with (sqrt (0.5 * 0.5)) at 1 by (apply sqrt_square; lra).
    rewrite <- sqrt_mult by lra. apply sqrt_le_1; nra. }
  unfold Math_max. rewrite Rmax_left by assumption.
  assert (Hpos : 0 < 0.5 * (ln 2 * ln 2)) by nra.
  pose proof (sqrt_lt_R0 _ Hpos) as Hs.
  pose proof (sqrt_sqrt _ (Rlt_le _ _ Hpos)) as Hss.
  set (s := sqrt (0.5 * (ln 2 * ln 2))) in *.
  replace ((1.5 * ln 2 / s) ^ 2) with ((1.5 * ln 2) * (1.5 * ln 2) / (s * s))
    by (field; lra).
  rewrite Hss. apply div_eq; [lra | generalize (ln 2); intros L; nra].
Qed.

Lemma same_entry name :
  (coefficient (groupEntry 100 100 name (hazardRatios refPoints refPoints))
   / se (groupEntry 100 100 name (hazardRatios refPoints refPoints))) ^ 2 = 0.
Proof.
  destruct same_samples as [Hne Hones].
  destruct (groupEntry_ones 100 100 name _ Hne Hones) as [H0 _].
  rewrite H0. unfold Rdiv. rewrite Rmult_0_l. simpl. lra.
Qed.

Lemma steep_groups (name : nat -> string) (l : list nat) :
  flat_map (groupOf None (mkData "ref" refPoints))
           (map (fun i => mkData (name i) steepPoints) l)
  = map (fun i => groupEntry 100 100 (name i) [2; 4]) l.
Proof.
  induction l as [|i l IH]; [reflexivity|].
  cbn [map flat_map]. rewrite IH, groupOf_eval.
  - cbn [timePoints SurvivalCurve.subtype]. rewrite steep_samples. reflexivity.
  - cbn [timePoints]. rewrite steep_samples. discriminate.
Qed.

Lemma same_groups (name : nat -> string) (l : list nat) :
  flat_map (groupOf None (mkData "ref" refPoints))
           (map (fun i => mkData (name i) refPoints) l)
  = map (fun i => groupEntry 100 100 (name i)
                    (hazardRatios refPoints refPoints)) l.
Proof.
  induction l as [|i l IH]; [reflexivity|].
  cbn [map flat_map]. rewrite IH, groupOf_eval.
  - reflexivity.
  - apply same_samples.
Qed.

Lemma wald_sum (v : R) (l : list HazardRatioGroup) (acc : R) :
  (forall g, In g l -> (coefficient g / se g) ^ 2 = v) ->
  fold_left (fun sum g => sum + (coefficient g / se g) ^ 2) l acc
  = acc + INR (length l) * v.
Proof.
  revert acc. induction l as [|g l IH]; intros acc Hv.
  - simpl. lra.
  - cbn [fold_left length]. rewrite IH.
    + rewrite (Hv g) by (now left). rewrite S_INR. lra.
    + intros g' Hg'. apply Hv. now right.
Qed.

Lemma INR_steepCount : INR steepCount = 8000000.
Proof. unfold steepCount. rewrite INR_IZR_INZ, Z2Nat.id by lia. reflexivity. Qed.

Lemma INR_sameCount : INR sameCount = 27999996.
Proof. unfold sameCount. rewrite INR_IZR_INZ, Z2Nat.id by lia. reflexivity. Qed.

Lemma manyComparisons_length :
  length manyComparisons = (steepCount + sameCount)%nat.
Proof.
  unfold manyComparisons. now rewrite length_app, !length_map, !length_seq.
Qed.

Lemma manyGroups_entries :
  flat_map (groupOf None (mkData "ref" refPoints)) manyComparisons
  = map (fun i => groupEntry 100 100 (groupName "steep" i) [2; 4])
        (seq 0 steepCount)
    ++ map (fun i => groupEntry 100 100 (groupName "same" i)
                       (hazardRatios refPoints refPoints))
           (seq 0 sameCount).
Proof.
  unfold manyComparisons.
  now rewrite flat_map_app, steep_groups, same_groups.
Qed.

Lemma manyGroups_entries_length :
  length (flat_map (groupOf None (mkData "ref" refPoints)) manyComparisons)
  = (steepCount + sameCount)%nat.
Proof.
  rewrite manyGroups_entries.
  now rewrite length_app, !length_map, !length_seq.
Qed.

Lemma manyGroups_wald :
  waldOf (flat_map (groupOf None (mkData "ref" refPoints)) manyComparisons)
  = mkWald 36000000 (steepCount + sameCount)
           (1 - gammainc 17999998 18000000).
Proof.
  unfold waldOf. rewrite manyGroups_entries_length.
  rewrite manyGroups_entries, fold_left_app.
  rewrite (wald_sum 0).
  2:{ intros g Hg. apply in_map_iff in Hg. destruct Hg as [i [<- _]].
      apply same_entry. }
  rewrite (wald_sum 4.5).
  2:{ intros g Hg. apply in_map_iff in Hg. destruct Hg as [i [<- _]].
      apply steep_entry. }
  rewrite !length_map, !length_seq.
  rewrite plus_INR, INR_steepCount, INR_sameCount.
  replace (0 + 8000000 * 4.5 + 27999996 * 0) with 36000000 by lra.
  f_equal. f_equal. unfold chiSquareCDF.
  destruct (Rle_dec 36000000 0) as [H|_]; [lra|].
  destruct (Rle_dec (8000000 + 27999996) 0) as [H|_]; [lra|].
  f_equal; lra.
Qed.

Lemma manyGroups_result :
  estimateCoxPH manyGroups None
  = Some (mkCox "ref"
            (flat_map (groupOf None (mkData "ref" refPoints)) manyComparisons)
            (mkWald 36000000 (steepCount + sameCount)
                    (1 - gammainc 17999998 18000000))).
Proof.
  unfold manyGroups. rewrite estimateCoxPH_eval.
  - now rewrite manyGroups_wald.
  - rewrite manyComparisons_length. unfold steepCount. lia.
  - intros Hnil. apply (f_equal (@length _)) in Hnil.
    rewrite manyGroups_entries_length in Hnil.
    unfold steepCount in Hnil. simpl length in Hnil. lia.
Qed.

(** C4 fails on the code, on the aggregate Wald p-value: for a
    reference group with 35,999,996 comparison groups, 8,000,000 of
    them on the squared and fourth-power survival of the reference and
    the others on the reference's own points, [estimateCoxPH] returns
    chi-square 36,000,000 on 35,999,996 degrees of freedom with a
    p-value above 3: after its 100 turns the continued fraction of
    [gammainc] is still far from its limit, and no bound is applied. *)
Theorem wald_p_value_above_one :
  exists res,
    estimateCoxPH manyGroups None = Some res /\
    df (waldTest res) = (steepCount + sameCount)%nat /\
    INR (df (waldTest res)) = 35999996 /\
    chiSquare (waldTest res) = 36000000 /\
    3 < waldPValue (waldTest res).
Proof.
  eexists. split; [exact manyGroups_result|].
  cbn [waldTest df chiSquare waldPValue].
  repeat split.
  - rewrite plus_INR, INR_steepCount, INR_sameCount. lra.
  - pose proof gammainc_big. lra.
Qed.

End WaldPValue.

(** ** The p-values that stay in the unit interval *)

Section UnitInterval.

Import logRankTest coxphAnalysis.

Lemma exp_nonpos_le_1 x : x <= 0 -> exp x <= 1.
Proof. intros H. rewrite <- exp_0. now apply exp_monotone. Qed.

Lemma tail_unit t x : 0 < t <= 1 -> x <= 0 -> 0 < poly t * exp x < 1.
Proof.
  intros Ht Hx. pose proof (poly_unit t Ht) as [Hp0 Hp1].
  pose proof (exp_pos x) as He0. pose proof (exp_nonpos_le_1 x Hx) as He1.
  split; [now apply Rmult_lt_0_compat|]. nra.
Qed.

Lemma rational_argument_unit q z : 0 < q -> 0 <= z -> 0 < 1 / (1 + q * z) <= 1.
Proof.
  intros Hq Hz. assert (H : 0 <= q * z) by (apply Rmult_le_pos; lra).
  split.
  - apply Rdiv_lt_0_compat; lra.
  - apply Rmult_le_reg_r with (1 + q * z); [lra|].
    unfold Rdiv. rewrite Rmult_assoc, Rinv_l by lra. lra.
Qed.

Lemma p_pos : 0 < p.
Proof. unfold p. lra. Qed.

(** [2 * (1 - normalCDF z)] for [z >= 0]. *)
Lemma normalCDF_tail z : 0 <= z -> 0 < 2 * (1 - normalCDF z) < 1.
Proof.
  intros Hz. rewrite normalCDF_nonneg by assumption.
  pose proof Rlt_sqrt2_0 as Hs.
  assert (Hx : 0 <= z / sqrt 2).
  { unfold Rdiv. apply Rmult_le_pos; [assumption|].
    apply Rlt_le, Rinv_0_lt_compat, Hs. }
  pose proof (tail_unit (1 / (1 + p * (z / sqrt 2))) (- z * z / 2)
                (rational_argument_unit p _ p_pos Hx) ltac:(nra)).
  lra.
Qed.

(** [2 * (1 - inlineNormalCDF z)] for [z >= 0]. *)
Lemma inlineNormalCDF_tail z : 0 <= z -> 0 < 2 * (1 - inlineNormalCDF z) < 1.
Proof.
  intros Hz. rewrite inlineNormalCDF_nonneg by assumption.
  pose proof (tail_unit (1 / (1 + p * z)) (- z * z / 2)
                (rational_argument_unit p _ p_pos Hz) ltac:(nra)).
  lra.
Qed.

Lemma groupEntry_pValue_unit n1 n2 name hrs :
  0 <= pValue (groupEntry n1 n2 name hrs) < 1.
Proof.
  unfold groupEntry. cbn [pValue].
  pose proof (normalCDF_tail _ (Rabs_pos (meanLogHR hrs
                / Math_max (baseSE hrs) (Math_sqrt (1 / n1 + 1 / n2) * 0.5)))).
  unfold Math_abs. lra.
Qed.

(** X1.  The p-values that do stay in the unit interval: for positive
    supplied counts, every per-group Wald p-value of an [estimateCoxPH]
    result lies in the unit interval and is never 1, [normalCDF] being
    above one half at the absolute value of the z-statistic.  The lower
    bound is not strict: for a large z-statistic the double-precision
    value is 0. *)
Theorem p_values_in_unit_interval :
  forall (data : list SurvivalData) (subtypeCounts : SubtypeCounts)
         (res : CoxPHResult),
    countsPositive subtypeCounts ->
    estimateCoxPH data subtypeCounts = Some res ->
    Forall (fun e => 0 <= pValue e < 1) (groups res).
Proof.
  intros data c res _ Hres. apply estimateCoxPH_Some in Hres.
  destruct Hres as [r [comps [_ [_ [Hg _]]]]].
  rewrite Hg. apply List.Forall_forall. intros e He.
  apply groups_In in He. destruct He as [g [_ [_ ->]]].
  apply groupEntry_pValue_unit.
Qed.

Lemma p_values_in_unit_interval_witness :
  Forall (fun e => 0 <= pValue e < 1)
         [groupEntry 100 100 "B" (hazardRatios [point 1 0.5] [point 1 0.5])].
Proof.
  exact (p_values_in_unit_interval [halfAtOne "A"; halfAtOne "B"] None _
           countsPositive_None halfAtOne_result).
Defined.

End UnitInterval.

Section NormalCDFShape.

Import logRankTest coxphAnalysis.

Lemma normalCDF_neg z :
  z < 0 ->
  normalCDF z
  = 0.5 * (1 + -1 * (1 - poly (1 / (1 + p * (- z / sqrt 2)))
                         * exp (- z * z / 2))).
Proof.
  intros Hz. unfold normalCDF. cbv zeta.
  destruct (Rlt_dec z 0) as [_|Hpos]; [|lra].
  unfold Math_abs, Math_exp, Math_sqrt. rewrite (Rabs_left z) by lra.
  pose proof Rlt_sqrt2_0 as Hs. pose proof (sqrt_sqrt 2 ltac:(lra)) as Hss.
  replace (- (- z / sqrt 2) * (- z / sqrt 2)) with (- z * z / (sqrt 2 * sqrt 2))
    by (field; lra).
  now rewrite Hss.
Qed.

(** The factor subtracted from 1 decreases when the argument grows. *)
Lemma tail_decreasing ua ub a b :
  0 <= ua < ub -> 0 <= a < b ->
  0 < poly (1 / (1 + p * ub)) * exp (- b * b / 2)
    < poly (1 / (1 + p * ua)) * exp (- a * a / 2).
Proof.
  intros [Hua Hu] [Ha Hab].
  assert (Hp : 0 < p) by (unfold p; lra).
  assert (Hpa : 0 <= p * ua) by (apply Rmult_le_pos; lra).
  assert (Hpb : p * ua < p * ub) by (apply Rmult_lt_compat_l; lra).
  assert (Ht : 1 / (1 + p * ub) < 1 / (1 + p * ua)).
  { unfold Rdiv. rewrite !Rmult_1_l. apply Rinv_lt_contravar.
    - apply Rmult_lt_0_compat; lra.
    - lra. }
  assert (Htb : 0 < 1 / (1 + p * ub) <= 1).
  { split.
    - apply Rdiv_lt_0_compat; lra.
    - apply Rmult_le_reg_r with (1 + p * ub); [lra|].
      unfold Rdiv. rewrite Rmult_assoc, Rinv_l by lra. lra. }
  pose proof (poly_increasing _ _ Ht) as Hpoly.
  pose proof (poly_unit _ Htb) as [Hpb0 _].
  assert (He : exp (- b * b / 2) < exp (- a * a / 2))
    by (apply exp_increasing; nra).
  pose proof (exp_pos (- b * b / 2)) as Heb.
  split; [now apply Rmult_lt_0_compat | nra].
Qed.

Lemma div_sqrt2_lt a b : a < b -> a / sqrt 2 < b / sqrt 2.
Proof.
  intros H. pose proof Rlt_sqrt2_0 as Hs.
  unfold Rdiv. apply Rmult_lt_compat_r; [now apply Rinv_0_lt_compat | assumption].
Qed.

Lemma div_sqrt2_nonneg a : 0 <= a -> 0 <= a / sqrt 2.
Proof.
  intros H. pose proof Rlt_sqrt2_0 as Hs.
  unfold Rdiv. apply Rmult_le_pos; [assumption|].
  now apply Rlt_le, Rinv_0_lt_compat.
Qed.

Lemma normalCDF_sides z :
  (z < 0 -> 0 < normalCDF z < 0.5) /\ (0 <= z -> 0.5 < normalCDF z < 1).
Proof.
  split; intros Hz.
  - rewrite normalCDF_neg by assumption.
    pose proof (tail_unit (1 / (1 + p * (- z / sqrt 2))) (- z * z / 2)
                  (rational_argument_unit p _ p_pos
                     (div_sqrt2_nonneg (- z) ltac:(lra))) ltac:(nra)) as H.
    lra.
  - pose proof (normalCDF_tail z Hz) as H. lra.
Qed.

(** X2.  [normalCDF] takes its values in the unit interval and never
    returns one half: it is below one half on the negative numbers and
    above one half elsewhere. The bounds 0 and 1 are not strict: far out
    in the tails the double-precision value is 0 or 1. *)
Theorem normalCDF_range :
  forall z : R,
    0 <= normalCDF z <= 1 /\
    (z < 0 -> normalCDF z < 0.5) /\
    (0 <= z -> 0.5 < normalCDF z).
Proof.
  intros z. pose proof (normalCDF_sides z) as [Hn Hp].
  destruct (Rlt_dec z 0) as [Hneg|Hpos].
  - specialize (Hn Hneg). repeat split; try lra.
  - specialize (Hp ltac:(lra)). repeat split; try lra.
Qed.

Lemma normalCDF_range_witness :
  0 <= normalCDF 0 <= 1 /\ (- (1) < 0 -> normalCDF (- (1)) < 0.5) /\
  (0 <= 0 -> 0.5 < normalCDF 0).
Proof.
  destruct (normalCDF_range 0) as [H0 [_ H2]].
  destruct (normalCDF_range (- (1))) as [_ [H1 _]].
  split; [exact H0|]. split; [exact H1 | exact H2].
Defined.

(** X3.  [normalCDF (-z) = 1 - normalCDF z] away from 0; at 0 the value
    is [0.5 + 5e-10], the coefficients summing to [0.999999999]. *)
Theorem normalCDF_reflection :
  forall z : R,
    (z <> 0 -> normalCDF (- z) = 1 - normalCDF z) /\
    normalCDF 0 = 0.5000000005.
Proof.
  intros z. split.
  - intros Hz. destruct (Rlt_dec z 0) as [Hneg|Hpos].
    + rewrite (normalCDF_neg z) by assumption.
      rewrite (normalCDF_nonneg (- z)) by lra.
      replace (- - z * - z / 2) with (- z * z / 2) by field. lra.
    + rewrite (normalCDF_neg (- z)) by lra.
      rewrite (normalCDF_nonneg z) by lra.
      replace (- - z * - z / 2) with (- z * z / 2) by field.
      replace (- - z) with z by lra. lra.
  - rewrite normalCDF_nonneg by lra.
    replace (0 / sqrt 2) with 0 by (unfold Rdiv; lra).
    replace (1 / (1 + p * 0)) with 1 by (field; lra).
    replace (- 0 * 0 / 2) with 0 by field.
    rewrite exp_0, poly_1. lra.
Qed.

Lemma normalCDF_lt a b : a < b -> normalCDF a < normalCDF b.
Proof.
  intros Hab.
  destruct (Rlt_dec a 0) as [Ha|Ha]; destruct (Rlt_dec b 0) as [Hb|Hb].
  - rewrite (normalCDF_neg a), (normalCDF_neg b) by assumption.
    pose proof (tail_decreasing (- b / sqrt 2) (- a / sqrt 2) (- b) (- a)) as H.
    destruct H as [_ H].
    + split; [apply div_sqrt2_nonneg; lra | apply div_sqrt2_lt; lra].
    + lra.
    + replace (- - a * - a / 2) with (- a * a / 2) in H by field.
      replace (- - b * - b / 2) with (- b * b / 2) in H by field. lra.
  - pose proof (normalCDF_sides a) as [H1 _].
    pose proof (normalCDF_sides b) as [_ H2].
    specialize (H1 Ha). specialize (H2 ltac:(lra)). lra.
  - lra.
  - rewrite (normalCDF_nonneg a), (normalCDF_nonneg b) by lra.
    pose proof (tail_decreasing (a / sqrt 2) (b / sqrt 2) a b) as H.
    destruct H as [_ H].
    + split; [apply div_sqrt2_nonneg; lra | apply div_sqrt2_lt; lra].
    + lra.
    + lra.
Qed.

Lemma normalCDF_le a b : a <= b -> normalCDF a <= normalCDF b.
Proof.
  intros [H| ->]; [left; now apply normalCDF_lt | right; reflexivity].
Qed.

(** X4.  In exact arithmetic [normalCDF] never decreases: of two
    arguments the larger one gives a value at least as large. Across the
    step at 0 the order is strict: a negative argument gives a smaller
    value than a non-negative one. *)
Theorem normalCDF_increasing :
  forall a b : R,
    a <= b ->
    normalCDF a <= normalCDF b /\
    (a < 0 -> 0 <= b -> normalCDF a < normalCDF b).
Proof.
  intros a b Hab. split.
  - destruct Hab as [Hlt|Heq].
    + left. now apply normalCDF_lt.
    + right. now rewrite Heq.
  - intros Ha Hb.
    pose proof (normalCDF_sides a) as [H1 _].
    pose proof (normalCDF_sides b) as [_ H2].
    specialize (H1 Ha). specialize (H2 Hb). lra.
Qed.

Lemma normalCDF_increasing_witness :
  normalCDF (- (1)) <= normalCDF 1 /\
  (- (1) < 0 -> 0 <= 1 -> normalCDF (- (1)) < normalCDF 1).
Proof. apply (normalCDF_increasing (- (1)) 1). lra. Defined.

Lemma normalCDF_reflection_witness :
  normalCDF (- (1)) = 1 - normalCDF 1 /\ normalCDF 0 = 0.5000000005.
Proof.
  destruct (normalCDF_reflection 1) as [H1 H0].
  split; [apply H1; lra | exact H0].
Defined.

(** For one degree of freedom and a non-negative statistic the p-value
    is the polynomial factor times the exponential. *)
Lemma chiSquarePValue_df1_closed chi :
  0 <= chi ->
  chiSquarePValue chi 1
  = poly (1 / (1 + p * sqrt chi)) * exp (- sqrt chi * sqrt chi / 2).
Proof.
  intros Hc. rewrite chiSquarePValue_df1.
  rewrite inlineNormalCDF_nonneg by apply sqrt_pos. lra.
Qed.

(** X5.  In exact arithmetic, on one degree of freedom a larger
    statistic never gives a larger p-value, and the p-value lies in the
    unit interval without reaching 1. The lower bound is not strict: for
    a large statistic the double-precision value is 0. *)
Theorem chiSquarePValue_decreasing :
  forall c1 c2 : R,
    0 <= c1 <= c2 ->
    0 <= chiSquarePValue c2 1 /\
    chiSquarePValue c2 1 <= chiSquarePValue c1 1 /\
    chiSquarePValue c1 1 < 1.
Proof.
  intros c1 c2 [H1 H12].
  rewrite !chiSquarePValue_df1_closed by lra.
  pose proof (tail_unit (1 / (1 + p * sqrt c1)) (- sqrt c1 * sqrt c1 / 2)
                (rational_argument_unit p _ p_pos (sqrt_pos c1))
                ltac:(pose proof (sqrt_pos c1); nra)) as Hc1.
  pose proof (tail_unit (1 / (1 + p * sqrt c2)) (- sqrt c2 * sqrt c2 / 2)
                (rational_argument_unit p _ p_pos (sqrt_pos c2))
                ltac:(pose proof (sqrt_pos c2); nra)) as Hc2.
  split; [lra|]. split; [|lra].
  destruct H12 as [Hlt|Heq]; [|rewrite Heq; lra].
  left. apply tail_decreasing;
    (split; [apply sqrt_pos | apply sqrt_lt_1; lra]).
Qed.

Lemma chiSquarePValue_decreasing_witness :
  0 <= chiSquarePValue 4 1 /\
  chiSquarePValue 4 1 <= chiSquarePValue 1 1 /\
  chiSquarePValue 1 1 < 1.
Proof. apply (chiSquarePValue_decreasing 1 4). lra. Defined.

End NormalCDFShape.

(** ** The part the supplied counts play in [estimateCoxPH] *)

Section CoxPHCounts.

Import coxphAnalysis.

Lemma groups_counts c1 c2 r comps :
  Forall2 (sameSamples c1 c2 r)
          (flat_map (groupOf c1 r) comps) (flat_map (groupOf c2 r) comps).
Proof.
  induction comps as [|g comps IH]; simpl; [constructor|].
  unfold groupOf at 1 3.
  destruct (hazardRatios (timePoints r) (timePoints g)) eqn:E; simpl.
  - exact IH.
  - constructor; [|exact IH]. exists g. rewrite E. split; reflexivity.
Qed.

Lemma estimateCoxPH_counts data c1 c2 :
  match estimateCoxPH data c1, estimateCoxPH data c2 with
  | Some r1, Some r2 =>
      exists r comps,
        data = r :: comps /\
        referenceGroup r1 = referenceGroup r2 /\
        waldTest r1 = waldOf (groups r1) /\
        waldTest r2 = waldOf (groups r2) /\
        Forall2 (sameSamples c1 c2 r) (groups r1) (groups r2)
  | None, None => True
  | _, _ => False
  end.
Proof.
  unfold estimateCoxPH.
  destruct (Nat.ltb_spec (length data) 2) as [Hlt|Hge]; [exact I|].
  destruct data as [|r comps]; [exact I|]. cbv zeta.
  pose proof (groups_counts c1 c2 r comps) as H.
  destruct (flat_map (groupOf c1 r) comps) as [|e1 l1];
    destruct (flat_map (groupOf c2 r) comps) as [|e2 l2];
    try (inversion H; fail); [exact I|].
  exists r, comps. simpl. repeat split; assumption.
Qed.

Lemma estimate_groupEntry n1 n2 name hrs :
  estimate (groupEntry n1 n2 name hrs)
  = (name, exp (meanLogHR hrs), meanLogHR hrs).
Proof. reflexivity. Qed.

Lemma sameSamples_estimates c1 c2 r l1 l2 :
  Forall2 (sameSamples c1 c2 r) l1 l2 -> map estimate l1 = map estimate l2.
Proof.
  induction 1 as [|e1 e2 l1 l2 [g [-> ->]] _ IH]; simpl; [reflexivity|].
  now rewrite !estimate_groupEntry, IH.
Qed.

(** X6.  The supplied counts decide neither whether a result is returned
    nor which groups it holds, and they leave the reference group, every
    hazard ratio and coefficient and the degrees of freedom as they are:
    only standard errors, intervals and p-values depend on them. *)
Theorem counts_leave_estimates :
  forall (data : list SurvivalData) (c1 c2 : SubtypeCounts),
    option_map (fun res => (referenceGroup res, map estimate (groups res),
                            df (waldTest res)))
               (estimateCoxPH data c1)
    = option_map (fun res => (referenceGroup res, map estimate (groups res),
                              df (waldTest res)))
                 (estimateCoxPH data c2).
Proof.
  intros data c1 c2. pose proof (estimateCoxPH_counts data c1 c2) as H.
  destruct (estimateCoxPH data c1) as [r1|], (estimateCoxPH data c2) as [r2|];
    try contradiction; [|reflexivity].
  destruct H as [r [comps [_ [Href [Hw1 [Hw2 Hg]]]]]]. simpl.
  rewrite Href, Hw1, Hw2, (sameSamples_estimates _ _ _ _ _ Hg).
  unfold waldOf. cbn [df]. rewrite <- !(length_map estimate).
  now rewrite (sameSamples_estimates _ _ _ _ _ Hg).
Qed.

Lemma estimateCoxPH_countOf data c1 c2 :
  (forall name, countOf c1 name = countOf c2 name) ->
  estimateCoxPH data c1 = estimateCoxPH data c2.
Proof.
  intros Hc. pose proof (estimateCoxPH_counts data c1 c2) as H.
  destruct (estimateCoxPH data c1) as [r1|], (estimateCoxPH data c2) as [r2|];
    try contradiction; [|reflexivity].
  destruct H as [r [comps [_ [Href [Hw1 [Hw2 Hg]]]]]].
  assert (Heq : groups r1 = groups r2).
  { clear - Hg Hc. induction Hg as [|e1 e2 l1 l2 [g [-> ->]] _ IH];
      [reflexivity|]. now rewrite IH, !Hc. }
  destruct r1, r2. simpl in *. congruence.
Qed.

Lemma countOf_zero (m : gmap string R) (name x : string) :
  countOf (Some (<[name := 0]> m)) x = countOf (Some (delete name m)) x.
Proof.
  unfold countOf, or_default.
  destruct (decide (name = x)) as [->|Hne].
  - rewrite lookup_insert_eq, lookup_delete_eq.
    destruct (Req_dec_T 0 0); [reflexivity | contradiction].
  - now rewrite lookup_insert_ne, lookup_delete_ne by assumption.
Qed.

Lemma countOf_hundred (m : gmap string R) (name x : string) :
  countOf (Some (<[name := 100]> m)) x = countOf (Some (delete name m)) x.
Proof.
  unfold countOf, or_default.
  destruct (decide (name = x)) as [->|Hne].
  - rewrite lookup_insert_eq, lookup_delete_eq.
    destruct (Req_dec_T 100 0); [lra | reflexivity].
  - now rewrite lookup_insert_ne, lookup_delete_ne by assumption.
Qed.

(** X7.  A count of 0 is not used: the result is the one obtained with
    the entry left out, which is the one obtained with the count 100;
    and an empty mapping gives the result of no mapping at all. *)
Theorem zero_count_reads_as_default :
  forall (data : list SurvivalData) (m : gmap string R) (name : string),
    estimateCoxPH data (Some (<[name := 0]> m))
    = estimateCoxPH data (Some (delete name m)) /\
    estimateCoxPH data (Some (<[name := 0]> m))
    = estimateCoxPH data (Some (<[name := 100]> m)) /\
    estimateCoxPH data (Some ∅) = estimateCoxPH data None.
Proof.
  intros data m name.
  split; [|split]; apply estimateCoxPH_countOf; intros x.
  - apply countOf_zero.
  - now rewrite countOf_zero, countOf_hundred.
  - unfold countOf. now rewrite lookup_empty.
Qed.

End CoxPHCounts.

(** ** Larger groups, narrower intervals *)

Section CoxPHLargerCounts.

Import coxphAnalysis.

Lemma seFloor_antitone n1 n2 n1' n2' :
  0 < n1 <= n1' -> 0 < n2 <= n2' -> seFloor n1' n2' <= seFloor n1 n2.
Proof.
  intros [H1 H1'] [H2 H2']. unfold seFloor, Math_sqrt.
  apply Rmult_le_compat_r; [lra|]. apply sqrt_le_1_alt.
  assert (/ n1' <= / n1) by (apply Rinv_le_contravar; lra).
  assert (/ n2' <= / n2) by (apply Rinv_le_contravar; lra).
  unfold Rdiv. lra.
Qed.

Lemma se_groupEntry n1 n2 name hrs :
  se (groupEntry n1 n2 name hrs) = Rmax (baseSE hrs) (seFloor n1 n2).
Proof. reflexivity. Qed.

Lemma pValue_groupEntry n1 n2 name hrs :
  pValue (groupEntry n1 n2 name hrs)
  = 2 * (1 - normalCDF (Rabs (meanLogHR hrs / se (groupEntry n1 n2 name hrs)))).
Proof. reflexivity. Qed.

Lemma Rabs_quotient_antitone m s s' :
  0 < s' <= s -> Rabs (m / s) <= Rabs (m / s').
Proof.
  intros [H0 Hs]. rewrite !Rabs_div_pos by lra.
  unfold Rdiv. apply Rmult_le_compat_l; [apply Rabs_pos|].
  apply Rinv_le_contravar; lra.
Qed.

Lemma groupEntry_larger_counts n1 n2 n1' n2' name hrs :
  0 < n1 <= n1' -> 0 < n2 <= n2' ->
  let e := groupEntry n1 n2 name hrs in
  let e' := groupEntry n1' n2' name hrs in
  0 < se e' <= se e /\
  lowerCI e <= lowerCI e' /\ upperCI e' <= upperCI e /\
  pValue e' <= pValue e /\
  (coefficient e / se e) ^ 2 <= (coefficient e' / se e') ^ 2.
Proof.
  intros H1 H2 e e'.
  assert (Hse' : 0 < se e').
  { apply (groupEntry_sound n1' n2' name hrs); lra. }
  assert (Hse : se e' <= se e).
  { unfold e, e'. rewrite !se_groupEntry.
    pose proof (seFloor_antitone n1 n2 n1' n2' H1 H2).
    apply Rmax_lub.
    - apply Rmax_l.
    - eapply Rle_trans; [eassumption | apply Rmax_r]. }
  pose proof (Rabs_quotient_antitone (meanLogHR hrs) (se e) (se e')
                (conj Hse' Hse)) as Hz.
  repeat split; try assumption.
  - unfold e, e', groupEntry. cbn [lowerCI]. apply exp_monotone.
    fold (seFloor n1 n2) (seFloor n1' n2').
    change (Math_max (baseSE hrs) (seFloor n1 n2)) with (se e).
    change (Math_max (baseSE hrs) (seFloor n1' n2')) with (se e'). lra.
  - unfold e, e', groupEntry. cbn [upperCI]. apply exp_monotone.
    fold (seFloor n1 n2) (seFloor n1' n2').
    change (Math_max (baseSE hrs) (seFloor n1 n2)) with (se e).
    change (Math_max (baseSE hrs) (seFloor n1' n2')) with (se e'). lra.
  - unfold e, e'. rewrite !pValue_groupEntry.
    pose proof (normalCDF_le _ _ Hz). fold e e'. lra.
  - change (coefficient e) with (meanLogHR hrs).
    change (coefficient e') with (meanLogHR hrs).
    rewrite <- !Rsqr_pow2. apply Rsqr_le_abs_1. exact Hz.
Qed.

Lemma wald_sum_le l1 l2 acc1 acc2 :
  Forall2 (fun e1 e2 => (coefficient e1 / se e1) ^ 2
                        <= (coefficient e2 / se e2) ^ 2) l1 l2 ->
  acc1 <= acc2 ->
  fold_left (fun sum g => sum + (coefficient g / se g) ^ 2) l1 acc1
  <= fold_left (fun sum g => sum + (coefficient g / se g) ^ 2) l2 acc2.
Proof.
  intros H. revert acc1 acc2.
  induction H as [|e1 e2 l1 l2 He _ IH]; intros acc1 acc2 Hacc; simpl.
  - assumption.
  - apply IH. lra.
Qed.

(** X8.  With positive counts, raising counts never widens an interval:
    the entries keep their order, each standard error and each p-value
    is no larger, each interval lies inside the one it had, and the Wald
    statistic is no smaller. *)
Theorem larger_counts_narrow_intervals :
  forall (data : list SurvivalData) (c1 c2 : SubtypeCounts)
         (r1 r2 : CoxPHResult),
    countsPositive c1 ->
    (forall name, countOf c1 name <= countOf c2 name) ->
    estimateCoxPH data c1 = Some r1 ->
    estimateCoxPH data c2 = Some r2 ->
    Forall2 (fun e1 e2 =>
               subtype e1 = subtype e2 /\
               0 < se e2 <= se e1 /\
               lowerCI e1 <= lowerCI e2 /\ upperCI e2 <= upperCI e1 /\
               pValue e2 <= pValue e1)
            (groups r1) (groups r2) /\
    chiSquare (waldTest r1) <= chiSquare (waldTest r2).
Proof.
  intros data c1 c2 r1 r2 Hpos Hle H1 H2.
  pose proof (estimateCoxPH_counts data c1 c2) as H.
  rewrite H1, H2 in H.
  destruct H as [r [comps [_ [_ [Hw1 [Hw2 Hg]]]]]].
  assert (Hall : Forall2 (fun e1 e2 =>
               subtype e1 = subtype e2 /\
               0 < se e2 <= se e1 /\
               lowerCI e1 <= lowerCI e2 /\ upperCI e2 <= upperCI e1 /\
               pValue e2 <= pValue e1 /\
               (coefficient e1 / se e1) ^ 2 <= (coefficient e2 / se e2) ^ 2)
            (groups r1) (groups r2)).
  { eapply Forall2_impl; [exact Hg|]. intros e1 e2 [g [-> ->]].
    pose proof (groupEntry_larger_counts
                  (countOf c1 (SurvivalCurve.subtype r))
                  (countOf c1 (SurvivalCurve.subtype g))
                  (countOf c2 (SurvivalCurve.subtype r))
                  (countOf c2 (SurvivalCurve.subtype g))
                  (SurvivalCurve.subtype g)
                  (hazardRatios (timePoints r) (timePoints g))
                  (conj (countOf_pos c1 _ Hpos) (Hle _))
                  (conj (countOf_pos c1 _ Hpos) (Hle _))) as He.
    cbv zeta in He. split; [reflexivity|]. tauto. }
  split.
  - eapply Forall2_impl; [exact Hall|]. cbv beta. tauto.
  - rewrite Hw1, Hw2. unfold waldOf. cbn [chiSquare].
    apply wald_sum_le; [|lra].
    eapply Forall2_impl; [exact Hall|]. cbv beta. tauto.
Qed.

End CoxPHLargerCounts.

Section CoxPHLargerCountsWitness.

Import coxphAnalysis.

Lemma halfAtOne_result_with (c : SubtypeCounts) :
  estimateCoxPH [halfAtOne "A"; halfAtOne "B"] c
  = Some (mkCox "A"
            [groupEntry (countOf c "A") (countOf c "B") "B"
                        (hazardRatios [point 1 0.5] [point 1 0.5])]
            (waldOf
               [groupEntry (countOf c "A") (countOf c "B") "B"
                           (hazardRatios [point 1 0.5] [point 1 0.5])])).
Proof.
  pose proof halfAtOne_samples as Hne.
  assert (Hg : flat_map (groupOf c (halfAtOne "A")) [halfAtOne "B"]
               = [groupEntry (countOf c "A") (countOf c "B") "B"
                    (hazardRatios [point 1 0.5] [point 1 0.5])]).
  { simpl. rewrite app_nil_r. rewrite groupOf_eval by exact Hne.
    reflexivity. }
  rewrite estimateCoxPH_eval.
  - now rewrite Hg.
  - simpl. lia.
  - rewrite Hg. discriminate.
Qed.

Lemma default_le_fourHundred name :
  countOf None name <= countOf (Some {[ "A"%string := 400 ]}) name.
Proof.
  unfold countOf, or_default.
  destruct (decide ("A"%string = name)) as [<-|Hne].
  - rewrite lookup_singleton_eq. destruct (Req_dec_T 400 0); lra.
  - rewrite lookup_singleton_ne by assumption. lra.
Qed.

Lemma larger_counts_narrow_intervals_witness :
  Forall2 (fun e1 e2 =>
             subtype e1 = subtype e2 /\
             0 < se e2 <= se e1 /\
             lowerCI e1 <= lowerCI e2 /\ upperCI e2 <= upperCI e1 /\
             pValue e2 <= pValue e1)
          [groupEntry 100 100 "B" (hazardRatios [point 1 0.5] [point 1 0.5])]
          [groupEntry (countOf (Some {[ "A"%string := 400 ]}) "A")
                      (countOf (Some {[ "A"%string := 400 ]}) "B") "B"
                      (hazardRatios [point 1 0.5] [point 1 0.5])].
Proof.
  exact (proj1 (larger_counts_narrow_intervals
                  [halfAtOne "A"; halfAtOne "B"] None
                  (Some {[ "A"%string := 400 ]}) _ _
                  countsPositive_None default_le_fourHundred
                  halfAtOne_result
                  (halfAtOne_result_with (Some {[ "A"%string := 400 ]})))).
Defined.

End CoxPHLargerCountsWitness.

(** ** What a result of [estimateCoxPH] holds *)

Section CoxPHResultShape.

Import coxphAnalysis.

Lemma groups_names c r comps :
  sublist (map subtype (flat_map (groupOf c r) comps))
          (map SurvivalCurve.subtype comps).
Proof.
  induction comps as [|g comps IH]; simpl; [constructor|].
  unfold groupOf at 1.
  destruct (hazardRatios (timePoints r) (timePoints g)); simpl.
  - now apply sublist_cons.
  - now apply sublist_skip.
Qed.

Lemma wald_sum_nonneg l acc :
  0 <= acc ->
  0 <= fold_left (fun sum g => sum + (coefficient g / se g) ^ 2) l acc.
Proof.
  revert acc. induction l as [|e l IH]; intros acc Hacc; simpl.
  - assumption.
  - apply IH. pose proof (pow2_ge_0 (coefficient e / se e)). lra.
Qed.

(** X9.  For positive counts, a result names the first group as the
    reference, holds one entry for some of the other groups, in their
    order and under their names, counts these entries as its degrees of
    freedom, at least one and at most the number of comparison groups,
    and has a non-negative Wald statistic, from which the Wald p-value
    is computed. *)
Theorem estimateCoxPH_result_shape :
  forall (data : list SurvivalData) (subtypeCounts : SubtypeCounts)
         (res : CoxPHResult),
    countsPositive subtypeCounts ->
    estimateCoxPH data subtypeCounts = Some res ->
    exists reference comparisons,
      data = reference :: comparisons /\
      referenceGroup res = SurvivalCurve.subtype reference /\
      sublist (map subtype (groups res))
              (map SurvivalCurve.subtype comparisons) /\
      df (waldTest res) = length (groups res) /\
      (1 <= df (waldTest res) <= length comparisons)%nat /\
      0 <= chiSquare (waldTest res) /\
      waldPValue (waldTest res)
      = 1 - chiSquareCDF (chiSquare (waldTest res)) (INR (df (waldTest res))).
Proof.
  intros data c res _ Hres. apply estimateCoxPH_Some in Hres.
  destruct Hres as [r [comps [-> [_ [Hg [Hne [Href Hw]]]]]]].
  exists r, comps. rewrite Hw. unfold waldOf. cbn [df chiSquare waldPValue].
  pose proof (groups_names c r comps) as Hsub. rewrite <- Hg in Hsub.
  repeat split; try assumption; try reflexivity.
  - destruct (groups res); [contradiction | simpl; lia].
  - apply sublist_length in Hsub. now rewrite !length_map in Hsub.
  - apply wald_sum_nonneg. lra.
Qed.

Lemma estimateCoxPH_result_shape_witness :
  exists reference comparisons,
    [halfAtOne "A"; halfAtOne "B"] = reference :: comparisons /\
    "A"%string = SurvivalCurve.subtype reference /\
    sublist ["B"%string] (map SurvivalCurve.subtype comparisons) /\
    1%nat = 1%nat /\
    (1 <= 1 <= length comparisons)%nat /\
    0 <= chiSquare (waldOf [groupEntry 100 100 "B"
                              (hazardRatios [point 1 0.5] [point 1 0.5])]) /\
    waldPValue (waldOf [groupEntry 100 100 "B"
                          (hazardRatios [point 1 0.5] [point 1 0.5])])
    = 1 - chiSquareCDF
            (chiSquare (waldOf [groupEntry 100 100 "B"
                                  (hazardRatios [point 1 0.5] [point 1 0.5])]))
            (INR 1).
Proof.
  exact (estimateCoxPH_result_shape
           [halfAtOne "A"; halfAtOne "B"] None _
           countsPositive_None halfAtOne_result).
Defined.

End CoxPHResultShape.

(** ** The unit of time *)

Section TimeUnit.

Import logRankTest coxphAnalysis.

Variable k : R.
Hypothesis k_pos : 0 < k.

Lemma eqb_scale a b : eqb (k * a) (k * b) = eqb a b.
Proof.
  unfold eqb. destruct (Req_dec_T a b) as [->|Hne].
  - destruct (Req_dec_T (k * b) (k * b)); [reflexivity | contradiction].
  - destruct (Req_dec_T (k * a) (k * b)) as [Heq|_]; [|reflexivity].
    exfalso. apply Hne. apply Rmult_eq_reg_l with k; lra.
Qed.

Lemma Req_dec_scale {A} a b (x y : A) :
  (if Req_dec_T (k * a) (k * b) then x else y)
  = (if Req_dec_T a b then x else y).
Proof.
  pose proof (eqb_scale a b) as H. unfold eqb in H.
  destruct (Req_dec_T (k * a) (k * b)), (Req_dec_T a b);
    try reflexivity; discriminate.
Qed.

Lemma Rlt_dec_scale {A} a b (x y : A) :
  (if Rlt_dec (k * a) (k * b) then x else y)
  = (if Rlt_dec a b then x else y).
Proof.
  destruct (Rlt_dec a b) as [H|H]; destruct (Rlt_dec (k * a) (k * b)) as [H'|H'];
    try reflexivity; exfalso.
  - apply H'. now apply Rmult_lt_compat_l.
  - apply H. now apply Rmult_lt_reg_l with k.
Qed.

Lemma gtb_scale t : gtb (k * t) 0 = gtb t 0.
Proof.
  unfold gtb. destruct (Rgt_dec t 0) as [H|H];
    destruct (Rgt_dec (k * t) 0) as [H'|H']; try reflexivity; exfalso.
  - apply H'. now apply Rmult_lt_0_compat.
  - apply H. unfold Rgt in *. apply Rmult_lt_reg_l with k; [assumption|]. lra.
Qed.

Lemma includes_scale l t : includes (map (Rmult k) l) (k * t) = includes l t.
Proof.
  unfold includes. induction l as [|x l IH]; simpl; [reflexivity|].
  now rewrite eqb_scale, IH.
Qed.

Lemma map_time_rescale pts :
  map time (map (rescalePoint k) pts) = map (Rmult k) (map time pts).
Proof. rewrite !map_map. reflexivity. Qed.

Lemma survivalAt_rescale pts t :
  survivalAt (map (rescalePoint k) pts) (k * t) = survivalAt pts t.
Proof.
  unfold survivalAt. f_equal.
  induction pts as [|q pts IH]; simpl; [reflexivity|].
  rewrite eqb_scale. destruct (eqb (time q) t); [reflexivity | exact IH].
Qed.

Lemma commonTimes_rescale r g :
  commonTimes (map (rescalePoint k) r) (map (rescalePoint k) g)
  = map (Rmult k) (commonTimes r g).
Proof.
  unfold commonTimes. rewrite !map_time_rescale.
  induction (map time r) as [|t l IH]; simpl; [reflexivity|].
  rewrite includes_scale, gtb_scale.
  destruct (includes (map time g) t && gtb t 0); simpl; now rewrite IH.
Qed.

Lemma hazardRatios_rescale r g :
  hazardRatios (map (rescalePoint k) r) (map (rescalePoint k) g)
  = hazardRatios r g.
Proof.
  unfold hazardRatios. rewrite commonTimes_rescale.
  induction (commonTimes r g) as [|t l IH]; simpl; [reflexivity|].
  rewrite IH. f_equal. unfold sampleAt. now rewrite !survivalAt_rescale.
Qed.

Lemma estimateCoxPH_rescale data c :
  estimateCoxPH (map (rescale k) data) c = estimateCoxPH data c.
Proof.
  unfold estimateCoxPH. rewrite length_map.
  destruct (length data <? 2)%nat; [reflexivity|].
  destruct data as [|r comps]; [reflexivity|]. cbn [map]. cbv zeta.
  assert (Hg : flat_map (groupOf c (rescale k r)) (map (rescale k) comps)
               = flat_map (groupOf c r) comps).
  { induction comps as [|g comps IH]; simpl; [reflexivity|].
    rewrite IH. f_equal. unfold groupOf. simpl.
    now rewrite hazardRatios_rescale. }
  rewrite Hg. reflexivity.
Qed.

(** The grid. *)
Lemma Set_add_scale s t :
  Set_add (map (Rmult k) s) (k * t) = map (Rmult k) (Set_add s t).
Proof.
  unfold Set_add. rewrite includes_scale.
  destruct (includes s t); [reflexivity|]. now rewrite map_app.
Qed.

Lemma allTimes_rescale_from data s :
  fold_left
    (fun s group =>
       fold_left (fun s tp => Set_add s (time tp)) (timePoints group) s)
    (map (rescale k) data) (map (Rmult k) s)
  = map (Rmult k)
      (fold_left
         (fun s group =>
            fold_left (fun s tp => Set_add s (time tp)) (timePoints group) s)
         data s).
Proof.
  revert s. induction data as [|g data IH]; intros s; simpl; [reflexivity|].
  rewrite <- IH. f_equal.
  generalize (timePoints g). intros pts. revert s.
  induction pts as [|q pts IHp]; intros s; simpl; [reflexivity|].
  rewrite Set_add_scale. apply IHp.
Qed.

Lemma sort_insert_scale x l :
  sort_insert (fun t => t) (k * x) (map (Rmult k) l)
  = map (Rmult k) (sort_insert (fun t => t) x l).
Proof.
  induction l as [|h l IH]; simpl; [reflexivity|].
  rewrite Rlt_dec_scale. destruct (Rlt_dec x h); simpl; [reflexivity|].
  now rewrite IH.
Qed.

Lemma Array_sort_scale l :
  Array_sort (fun t => t) (map (Rmult k) l)
  = map (Rmult k) (Array_sort (fun t => t) l).
Proof.
  unfold Array_sort. change (@nil R) with (map (Rmult k) []) at 1.
  generalize (@nil R). induction l as [|x l IH]; intros acc; simpl;
    [reflexivity|].
  rewrite sort_insert_scale. apply IH.
Qed.

Lemma sortedTimes_rescale data :
  sortedTimes (map (rescale k) data) = map (Rmult k) (sortedTimes data).
Proof.
  unfold sortedTimes, allTimes.
  pose proof (allTimes_rescale_from data []) as H.
  change (map (Rmult k) []) with (@nil R) in H. rewrite H. apply Array_sort_scale.
Qed.

(** The maps of a group. *)
Lemma Map_set_scale (m : list (R * R)) t v :
  Map_set (rescaleKeys k m) (k * t) v = rescaleKeys k (Map_set m t v).
Proof.
  unfold rescaleKeys.
  induction m as [|[t' v'] m IH]; simpl; [reflexivity|].
  rewrite Req_dec_scale. destruct (Req_dec_T t' t); simpl; [reflexivity|].
  now rewrite IH.
Qed.

Lemma Map_get_scale (m : list (R * R)) t :
  Map_get (rescaleKeys k m) (k * t) = Map_get m t.
Proof.
  unfold rescaleKeys.
  induction m as [|[t' v'] m IH]; simpl; [reflexivity|].
  rewrite Req_dec_scale. destruct (Req_dec_T t' t); [reflexivity | exact IH].
Qed.

Lemma timePointMapOf_rescale g :
  timePointMapOf (rescale k g) = rescaleKeys k (timePointMapOf g).
Proof.
  unfold timePointMapOf. simpl.
  change (@nil (R * R)) with (rescaleKeys k (@nil (R * R))) at 1.
  generalize (@nil (R * R)). generalize (timePoints g).
  induction l as [|q l IH]; intros m; simpl; [reflexivity|].
  rewrite Map_set_scale. apply IH.
Qed.

Lemma eventsOf_rescale_from m times ev prev :
  fst (fold_left
         (fun '(events, prevSurvival) time =>
            match Map_get (rescaleKeys k m) time with
            | Some s =>
                let survivalDrop := prevSurvival - s in
                ((if Rgt_dec survivalDrop 0.001
                  then Map_set events time
                         (Math_max 1 (Math_round (survivalDrop * 100)))
                  else events), s)
            | None => (events, prevSurvival)
            end)
         (map (Rmult k) times) (rescaleKeys k ev, prev))
  = rescaleKeys k
      (fst (fold_left
              (fun '(events, prevSurvival) time =>
                 match Map_get m time with
                 | Some s =>
                     let survivalDrop := prevSurvival - s in
                     ((if Rgt_dec survivalDrop 0.001
                       then Map_set events time
                              (Math_max 1 (Math_round (survivalDrop * 100)))
                       else events), s)
                 | None => (events, prevSurvival)
                 end)
              times (ev, prev))).
Proof.
  revert ev prev.
  induction times as [|t times IH]; intros ev prev; simpl; [reflexivity|].
  rewrite Map_get_scale. destruct (Map_get m t) as [s|]; [|apply IH].
  destruct (Rgt_dec (prev - s) 0.001); [|apply IH].
  rewrite Map_set_scale. apply IH.
Qed.

Lemma eventsOf_rescale m times :
  eventsOf (rescaleKeys k m) (map (Rmult k) times)
  = rescaleKeys k (eventsOf m times).
Proof. apply (eventsOf_rescale_from m times [] 1). Qed.

Lemma atRiskAt_rescale times g t :
  atRiskAt (groupDataOf (map (Rmult k) times) (rescale k g)) (k * t)
  = atRiskAt (groupDataOf times g) t.
Proof.
  unfold atRiskAt, groupDataOf. cbn [initialCount timePointMap].
  f_equal. f_equal. rewrite timePointMapOf_rescale.
  unfold lastSurvivalBefore, rescaleKeys.
  generalize 1. generalize (timePointMapOf g).
  induction l as [|[t' s] l IH]; intros acc; simpl; [reflexivity|].
  rewrite Rlt_dec_scale. apply IH.
Qed.

Lemma eventsAt_rescale times g t :
  eventsAt (groupDataOf (map (Rmult k) times) (rescale k g)) (k * t)
  = eventsAt (groupDataOf times g) t.
Proof.
  unfold eventsAt, groupDataOf. cbn [events].
  now rewrite timePointMapOf_rescale, eventsOf_rescale, Map_get_scale.
Qed.

Lemma timeStep_rescale times data acc t :
  timeStep (map (groupDataOf (map (Rmult k) times)) (map (rescale k) data))
           acc (k * t)
  = timeStep (map (groupDataOf times) data) acc t.
Proof.
  unfold timeStep. rewrite !map_map, !length_map.
  rewrite (map_ext _ _ (fun g => atRiskAt_rescale times g t)).
  rewrite (map_ext _ _ (fun g => eventsAt_rescale times g t)).
  reflexivity.
Qed.

Lemma statistic_rescale data :
  statistic (map (rescale k) data) = statistic data.
Proof.
  unfold statistic. rewrite sortedTimes_rescale.
  generalize (sortedTimes data) at 1 3. intros times.
  generalize (0, 0). generalize (sortedTimes data).
  induction l as [|t l IH]; intros acc; simpl; [reflexivity|].
  rewrite timeStep_rescale. apply IH.
Qed.

Lemma logRankTest_rescale data :
  logRankTest.logRankTest (map (rescale k) data) = logRankTest.logRankTest data.
Proof.
  unfold logRankTest.logRankTest.
  rewrite length_map, statistic_rescale, sortedTimes_rescale.
  destruct (sortedTimes data); reflexivity.
Qed.

End TimeUnit.

Section TimeUnitInvariance.

Import logRankTest coxphAnalysis.

(** X10.  Both engines give the same result when every time of the input
    is multiplied by one positive factor: the results do not depend on
    the unit in which time is measured. *)
Theorem engines_ignore_time_unit :
  forall (k : R) (data : list SurvivalData) (subtypeCounts : SubtypeCounts),
    0 < k ->
    logRankTest.logRankTest (map (rescale k) data)
    = logRankTest.logRankTest data /\
    estimateCoxPH (map (rescale k) data) subtypeCounts
    = estimateCoxPH data subtypeCounts.
Proof.
  intros k data c Hk. split.
  - now apply logRankTest_rescale.
  - now apply estimateCoxPH_rescale.
Qed.

Lemma engines_ignore_time_unit_witness :
  logRankTest.logRankTest (map (rescale 30) unequalData)
  = logRankTest.logRankTest unequalData /\
  estimateCoxPH (map (rescale 30) unequalData) None
  = estimateCoxPH unequalData None.
Proof. apply (engines_ignore_time_unit 30 unequalData None). lra. Defined.

End TimeUnitInvariance.

(** ** Sorting *)

Section Sorting.

Context {A : Type} (key : A -> R).

Lemma sort_insert_In (x y : A) (l : list A) :
  In y (sort_insert key x l) <-> y = x \/ In y l.
Proof.
  induction l as [|h l IH]; simpl.
  - intuition.
  - destruct (Rlt_dec (key x) (key h)); simpl; rewrite ?IH; intuition.
Qed.

Lemma sort_insert_length (x : A) (l : list A) :
  length (sort_insert key x l) = S (length l).
Proof.
  induction l as [|h l IH]; simpl; [reflexivity|].
  destruct (Rlt_dec (key x) (key h)); simpl; now rewrite ?IH.
Qed.

Lemma Array_sort_from_In (y : A) (l acc : list A) :
  In y (fold_left (fun sorted x => sort_insert key x sorted) l acc)
  <-> In y l \/ In y acc.
Proof.
  revert acc. induction l as [|x l IH]; intros acc; simpl.
  - intuition.
  - rewrite IH, sort_insert_In. intuition.
Qed.

Lemma Array_sort_In (y : A) (l : list A) : In y (Array_sort key l) <-> In y l.
Proof. unfold Array_sort. rewrite Array_sort_from_In. simpl. intuition. Qed.

Lemma Array_sort_length (l : list A) : length (Array_sort key l) = length l.
Proof.
  unfold Array_sort.
  assert (H : forall acc,
             length (fold_left (fun sorted x => sort_insert key x sorted) l acc)
             = (length l + length acc)%nat).
  { induction l as [|x l IH]; intros acc; simpl; [reflexivity|].
    rewrite IH, sort_insert_length. lia. }
  rewrite H. simpl. lia.
Qed.

End Sorting.

(** ** The grid of [logRankTest] *)

Section Grid.

Import logRankTest.

Lemma sort_insert_increasing x l :
  increasing l -> ~ In x l -> increasing (sort_insert (fun t => t) x l).
Proof.
  induction l as [|h l IH]; intros Hinc Hx; simpl.
  - split; [constructor | exact I].
  - destruct Hinc as [Hh Hl].
    destruct (Rlt_dec x h) as [Hlt|Hge].
    + split; [|split; assumption].
      constructor; [assumption|].
      eapply List.Forall_impl; [|exact Hh]. intros t Ht. simpl in Ht. lra.
    + assert (Hhx : h < x).
      { destruct (Rtotal_order h x) as [H|[H|H]]; [assumption| |lra].
        exfalso. apply Hx. now left. }
      split.
      * apply List.Forall_forall. intros t Ht.
        apply sort_insert_In in Ht. destruct Ht as [->|Ht]; [assumption|].
        rewrite List.Forall_forall in Hh. now apply Hh.
      * apply IH; [assumption|]. intros H. apply Hx. now right.
Qed.

Lemma Array_sort_increasing l :
  List.NoDup l -> increasing (Array_sort (fun t => t) l).
Proof.
  unfold Array_sort.
  assert (H : forall acc,
             List.NoDup l -> increasing acc ->
             (forall x, In x l -> ~ In x acc) ->
             increasing
               (fold_left (fun sorted x => sort_insert (fun t => t) x sorted)
                          l acc)).
  { induction l as [|x l IH]; intros acc Hnd Hacc Hdis; simpl;
      [assumption|].
    apply List.NoDup_cons_iff in Hnd. destruct Hnd as [Hx Hnd].
    apply IH; [assumption | |].
    - apply sort_insert_increasing; [assumption|]. apply Hdis. now left.
    - intros y Hy Hin. apply sort_insert_In in Hin.
      destruct Hin as [->|Hin]; [contradiction|].
      apply (Hdis y); [now right | assumption]. }
  intros Hnd. apply H; [assumption | exact I | intros x _ []].
Qed.

Lemma Set_add_In s t x : In x (Set_add s t) <-> In x s \/ x = t.
Proof.
  unfold Set_add. destruct (includes s t) eqn:E.
  - apply includes_spec in E. split; [now left|].
    intros [H| ->]; assumption.
  - rewrite in_app_iff. simpl. intuition.
Qed.

Lemma allTimes_group_In pts s x :
  In x (fold_left (fun s tp => Set_add s (time tp)) pts s)
  <-> In x s \/ exists tp, In tp pts /\ time tp = x.
Proof.
  revert s. induction pts as [|q pts IH]; intros s; simpl.
  - split; [now left|]. intros [H|[tp [[] _]]]. assumption.
  - rewrite IH, Set_add_In. split.
    + intros [[H| ->]|[tp [Ht He]]].
      * now left.
      * right. exists q. split; [now left | reflexivity].
      * right. exists tp. split; [now right | assumption].
    + intros [H|[tp [[<-|Ht] He]]].
      * left. now left.
      * left. right. now symmetry.
      * right. exists tp. split; assumption.
Qed.

Lemma allTimes_group_NoDup pts s :
  List.NoDup s ->
  List.NoDup (fold_left (fun s tp => Set_add s (time tp)) pts s).
Proof.
  revert s. induction pts as [|q pts IH]; intros s Hs; simpl; [assumption|].
  apply IH. now apply Set_add_NoDup.
Qed.

Lemma allTimes_from_In data s x :
  In x (fold_left
          (fun s group =>
             fold_left (fun s tp => Set_add s (time tp)) (timePoints group) s)
          data s)
  <-> In x s \/ exists g tp, In g data /\ In tp (timePoints g) /\ time tp = x.
Proof.
  revert s. induction data as [|g data IH]; intros s; simpl.
  - split; [now left|]. intros [H|[g [tp [[] _]]]]. assumption.
  - rewrite IH, allTimes_group_In. split.
    + intros [[H|[tp [Ht He]]]|[g' [tp [Hg [Ht He]]]]].
      * now left.
      * right. exists g, tp. split; [now left | split; assumption].
      * right. exists g', tp. split; [now right | split; assumption].
    + intros [H|[g' [tp [[<-|Hg] [Ht He]]]]].
      * left. now left.
      * left. right. exists tp. split; assumption.
      * right. exists g', tp. split; [assumption | split; assumption].
Qed.

Lemma allTimes_from_NoDup data s :
  List.NoDup s ->
  List.NoDup
    (fold_left
       (fun s group =>
          fold_left (fun s tp => Set_add s (time tp)) (timePoints group) s)
       data s).
Proof.
  revert s. induction data as [|g data IH]; intros s Hs; simpl; [assumption|].
  apply IH. now apply allTimes_group_NoDup.
Qed.

Lemma sortedTimes_In data t :
  In t (sortedTimes data)
  <-> exists g tp, In g data /\ In tp (timePoints g) /\ time tp = t.
Proof.
  unfold sortedTimes, allTimes. rewrite Array_sort_In, allTimes_from_In.
  split; [intros [[]|H]; exact H | intros H; now right].
Qed.

Lemma sortedTimes_increasing data : increasing (sortedTimes data).
Proof.
  unfold sortedTimes, allTimes. apply Array_sort_increasing.
  apply allTimes_from_NoDup. constructor.
Qed.

Lemma increasing_ext l1 l2 :
  increasing l1 -> increasing l2 ->
  (forall t, In t l1 <-> In t l2) -> l1 = l2.
Proof.
  revert l2. induction l1 as [|h1 l1 IH]; intros l2 H1 H2 Hext.
  - destruct l2 as [|h2 l2]; [reflexivity|].
    exfalso. apply (proj2 (Hext h2)). now left.
  - destruct l2 as [|h2 l2].
    + exfalso. apply (proj1 (Hext h1)). now left.
    + destruct H1 as [Hh1 Hl1]. destruct H2 as [Hh2 Hl2].
      rewrite List.Forall_forall in Hh1, Hh2.
      assert (Heq : h1 = h2).
      { destruct (proj1 (Hext h1) (or_introl eq_refl)) as [E|Hin1];
          [now symmetry|].
        destruct (proj2 (Hext h2) (or_introl eq_refl)) as [E|Hin2];
          [assumption|].
        pose proof (Hh2 _ Hin1). pose proof (Hh1 _ Hin2). lra. }
      subst h2. f_equal. apply IH; try assumption.
      intros t. split; intros Ht.
      * destruct (proj1 (Hext t) (or_intror Ht)) as [E|Hin]; [|assumption].
        pose proof (Hh1 _ Ht). lra.
      * destruct (proj2 (Hext t) (or_intror Ht)) as [E|Hin]; [|assumption].
        pose proof (Hh2 _ Ht). lra.
Qed.

(** X11.  The grid over which [logRankTest] runs holds exactly the times
    of the supplied points, each once, in strictly increasing order; it
    is empty exactly when no group has a point. *)
Theorem grid_is_the_sorted_times :
  forall data : list SurvivalData,
    increasing (sortedTimes data) /\
    (forall t, In t (sortedTimes data)
               <-> exists g tp, In g data /\ In tp (timePoints g) /\
                                time tp = t) /\
    (sortedTimes data = []
     <-> List.Forall (fun g => timePoints g = []) data).
Proof.
  intros data. split; [apply sortedTimes_increasing|].
  split; [apply sortedTimes_In|]. split.
  - intros Hnil. apply List.Forall_forall. intros g Hg.
    destruct (timePoints g) as [|tp pts] eqn:E; [reflexivity|].
    exfalso. assert (Hin : In (time tp) (sortedTimes data)).
    { apply sortedTimes_In. exists g, tp. rewrite E.
      split; [assumption | split; [now left | reflexivity]]. }
    rewrite Hnil in Hin. exact Hin.
  - intros Hall. destruct (sortedTimes data) as [|t ts] eqn:E; [reflexivity|].
    exfalso. assert (Hin : In t (sortedTimes data)) by (rewrite E; now left).
    apply sortedTimes_In in Hin. destruct Hin as [g [tp [Hg [Ht _]]]].
    rewrite List.Forall_forall in Hall. rewrite (Hall g Hg) in Ht. exact Ht.
Qed.

End Grid.

(** ** Two groups in either order *)

Section TwoGroups.

Import logRankTest.

Lemma sortedTimes_swap g1 g2 : sortedTimes [g1; g2] = sortedTimes [g2; g1].
Proof.
  apply increasing_ext; try apply sortedTimes_increasing.
  intros t. rewrite !sortedTimes_In.
  split; intros [g [tp [Hg H]]]; exists g, tp; (split; [|exact H]);
    simpl in *; tauto.
Qed.

Lemma accumulate_swap T T' E E' a1 a2 e1 e2 num den :
  T = 0 + a1 + a2 -> T' = 0 + a2 + a1 ->
  E = 0 + e1 + e2 -> E' = 0 + e2 + e1 ->
  T > 0 ->
  accumulate T' E' (- num, den) (a2, e2)
  = (- fst (accumulate T E (num, den) (a1, e1)),
     snd (accumulate T E (num, den) (a1, e1))).
Proof.
  intros HT HT' HE HE' Hpos.
  assert (HTT : T' = T) by lra. assert (HEE : E' = E) by lra.
  rewrite HTT, HEE. unfold accumulate. cbn [fst snd]. f_equal.
  - assert (H : a1 / T * E + a2 / T * E = E).
    { replace (a1 / T * E + a2 / T * E) with ((a1 + a2) / T * E)
        by (field; lra).
      replace (a1 + a2) with T by lra. field. lra. }
    lra.
  - destruct (Rgt_dec T 1) as [H1|H1]; [|reflexivity].
    f_equal. f_equal. replace (T - a2) with a1 by lra.
    replace (T - a1) with a2 by lra. ring.
Qed.

Lemma timeStep_swap gd1 gd2 num den t :
  timeStep [gd2; gd1] (- num, den) t
  = (- fst (timeStep [gd1; gd2] (num, den) t),
     snd (timeStep [gd1; gd2] (num, den) t)).
Proof.
  unfold timeStep. cbn [map length Nat.sub fold_left combine firstn].
  assert (HT : 0 + atRiskAt gd2 t + atRiskAt gd1 t
               = 0 + atRiskAt gd1 t + atRiskAt gd2 t) by lra.
  assert (HE : 0 + eventsAt gd2 t + eventsAt gd1 t
               = 0 + eventsAt gd1 t + eventsAt gd2 t) by lra.
  rewrite HT at 1. rewrite HE at 1.
  destruct (Rgt_dec (0 + atRiskAt gd1 t + atRiskAt gd2 t) 0) as [Hpos|Hn0];
    [rewrite (gtb_true _ _ Hpos) | rewrite (gtb_false _ _ Hn0); reflexivity].
  destruct (gtb (0 + eventsAt gd1 t + eventsAt gd2 t) 0); [|reflexivity].
  cbn [andb]. apply accumulate_swap; try reflexivity; assumption.
Qed.

Lemma statistic_swap g1 g2 :
  statistic [g2; g1] = (- fst (statistic [g1; g2]), snd (statistic [g1; g2])).
Proof.
  unfold statistic. cbv zeta. rewrite (sortedTimes_swap g2 g1). cbn [map].
  set (times := sortedTimes [g1; g2]).
  set (gd1 := groupDataOf times g1). set (gd2 := groupDataOf times g2).
  assert (H : forall ts num den,
             fold_left (timeStep [gd2; gd1]) ts (- num, den)
             = (- fst (fold_left (timeStep [gd1; gd2]) ts (num, den)),
                snd (fold_left (timeStep [gd1; gd2]) ts (num, den)))).
  { induction ts as [|t ts IH]; intros num den; simpl; [reflexivity|].
    rewrite timeStep_swap.
    destruct (timeStep [gd1; gd2] (num, den) t) as [num' den'].
    cbn [fst snd]. apply IH. }
  replace (0, 0) with (- 0, 0) at 1 by (f_equal; lra).
  apply H.
Qed.

(** X12.  With two groups the order in which they are supplied does not
    matter: the sum of observed minus expected changes its sign, the
    variance stays, and the result is the same. *)
Theorem logRankTest_two_groups_symmetric :
  forall g1 g2 : SurvivalData,
    fst (statistic [g2; g1]) = - fst (statistic [g1; g2]) /\
    snd (statistic [g2; g1]) = snd (statistic [g1; g2]) /\
    logRankTest.logRankTest [g2; g1] = logRankTest.logRankTest [g1; g2].
Proof.
  intros g1 g2. pose proof (statistic_swap g1 g2) as H.
  split; [now rewrite H|]. split; [now rewrite H|].
  unfold logRankTest.logRankTest. rewrite H, (sortedTimes_swap g2 g1).
  cbn [length Nat.ltb Nat.leb Nat.sub].
  destruct (sortedTimes [g1; g2]); [reflexivity|].
  destruct (statistic [g1; g2]) as [num den]. cbn [fst snd].
  destruct (Rle_dec den 0); [reflexivity|].
  replace (- num * - num) with (num * num) by ring. reflexivity.
Qed.

End TwoGroups.

(** ** Any number of groups with the same points *)

Section IdenticalGroups.

Import logRankTest.

Lemma fold_left_Rplus_repeat a n acc :
  fold_left Rplus (repeat a n) acc = acc + INR n * a.
Proof.
  revert acc. induction n as [|n IH]; intros acc.
  - simpl. lra.
  - cbn [repeat fold_left]. rewrite IH, S_INR. lra.
Qed.

Lemma accumulate_repeat T E a e m acc :
  T > 0 -> a / T * E = e ->
  fst (fold_left (accumulate T E) (repeat (a, e) m) acc) = fst acc.
Proof.
  intros HT Hae. revert acc.
  induction m as [|m IH]; intros acc; [reflexivity|].
  cbn [repeat fold_left]. rewrite IH. destruct acc as [num den].
  unfold accumulate. cbn [fst]. rewrite Hae. lra.
Qed.

Lemma combine_repeat {A B} (a : A) (b : B) n :
  combine (repeat a n) (repeat b n) = repeat (a, b) n.
Proof. induction n; simpl; [reflexivity | now f_equal]. Qed.

Lemma firstn_repeat {A} (a : A) m n :
  (m <= n)%nat -> firstn m (repeat a n) = repeat a m.
Proof.
  revert n. induction m as [|m IH]; intros n Hmn; [reflexivity|].
  destruct n as [|n]; [lia|]. simpl. f_equal. apply IH. lia.
Qed.

Lemma map_constant {A B} (f : A -> B) (b : B) l :
  (forall x, In x l -> f x = b) -> map f l = repeat b (length l).
Proof.
  induction l as [|x l IH]; intros H; simpl; [reflexivity|].
  rewrite (H x (or_introl eq_refl)). f_equal. apply IH.
  intros y Hy. apply H. now right.
Qed.

Lemma timeStep_identical_groups gd gds acc t :
  (forall g, In g gds ->
             timePointMap g = timePointMap gd /\ events g = events gd /\
             initialCount g = initialCount gd) ->
  fst (timeStep gds acc t) = fst acc.
Proof.
  intros Hsame. unfold timeStep.
  rewrite (map_constant (fun g => atRiskAt g t) (atRiskAt gd t) gds).
  2:{ intros g Hg. destruct (Hsame g Hg) as [Hm [_ Hn]].
      unfold atRiskAt. now rewrite Hm, Hn. }
  rewrite (map_constant (fun g => eventsAt g t) (eventsAt gd t) gds).
  2:{ intros g Hg. destruct (Hsame g Hg) as [_ [He _]].
      unfold eventsAt. now rewrite He. }
  rewrite !fold_left_Rplus_repeat, combine_repeat, firstn_repeat by lia.
  set (n := INR (length gds)). set (a := atRiskAt gd t).
  set (e := eventsAt gd t).
  destruct (Rgt_dec (0 + n * a) 0) as [Hpos|Hn0];
    [rewrite (gtb_true _ _ Hpos) | rewrite (gtb_false _ _ Hn0); reflexivity].
  destruct (gtb (0 + n * e) 0); [|reflexivity]. cbn [andb].
  apply accumulate_repeat; [assumption|].
  assert (Hn : n <> 0) by (intros H0; rewrite H0 in Hpos; lra).
  assert (Ha : a <> 0) by (intros H0; rewrite H0 in Hpos; lra).
  field. split; [|assumption]. lra.
Qed.

Lemma statistic_identical_groups pts data :
  List.Forall (fun g => timePoints g = pts) data -> fst (statistic data) = 0.
Proof.
  intros Hall. unfold statistic. cbv zeta.
  set (times := sortedTimes data).
  set (gd := groupDataOf times (mkData "" pts)).
  assert (Hinv : forall ts acc,
             fst (fold_left (timeStep (map (groupDataOf times) data)) ts acc)
             = fst acc).
  { induction ts as [|t ts IH]; intros acc; simpl; [reflexivity|].
    rewrite IH. apply (timeStep_identical_groups gd).
    intros g Hg. apply in_map_iff in Hg. destruct Hg as [g0 [<- Hg0]].
    rewrite List.Forall_forall in Hall. specialize (Hall g0 Hg0).
    unfold gd, groupDataOf, timePointMapOf. simpl. rewrite Hall.
    repeat split; reflexivity. }
  now rewrite Hinv.
Qed.

Lemma upperSeries_zero fuel i k :
  upperSeries (S fuel) i 0 k 0 1 = 0.
Proof.
  cbn [upperSeries].
  replace (1 * (0 / (k + i))) with 0 by (unfold Rdiv; ring).
  destruct (Rlt_dec 0 1e-10) as [_|H]; [lra | exfalso; apply H; lra].
Qed.

Lemma chiSquarePValue_zero_many df :
  (2 <= df)%nat -> chiSquarePValue 0 df = 1.
Proof.
  intros Hdf. unfold chiSquarePValue.
  destruct (Nat.eqb_spec df 1) as [E|_]; [lia|]. cbv zeta.
  replace (0 / 2) with 0 by (unfold Rdiv; ring).
  rewrite (upperSeries_zero 99 0 (INR df / 2)).
  unfold Math_max, Math_min.
  replace (1 - Math_exp (- 0) * Math_pow 0 (INR df / 2) * 0 / (INR df / 2))
    with 1 by (unfold Rdiv; ring).
  rewrite Rmin_left by lra. rewrite Rmax_right by lra. reflexivity.
Qed.

(** X13.  For any number of groups that all have the same points, a
    non-null result has chi-square exactly 0; its p-value is 0.999999999
    for two groups and exactly 1 for more. *)
Theorem identical_groups_no_difference :
  forall (pts : list SurvivalTimePoint) (data : list SurvivalData)
         (r : LogRankResult),
    List.Forall (fun g => timePoints g = pts) data ->
    logRankTest.logRankTest data = Some r ->
    chiSquare r = 0 /\
    degreesOfFreedom r = (length data - 1)%nat /\
    pValue r = if (length data =? 2)%nat then 0.999999999 else 1.
Proof.
  intros pts data r Hall Hr.
  pose proof (statistic_identical_groups pts data Hall) as Hnum.
  apply logRankTest_Some in Hr.
  destruct Hr as [Hlen [_ [Hden [Hchi [Hdf Hpv]]]]].
  assert (H0 : chiSquare r = 0).
  { rewrite Hchi, Hnum. unfold Rdiv. now rewrite !Rmult_0_l. }
  split; [assumption|]. split; [assumption|].
  rewrite Hpv, H0, Hdf.
  destruct (Nat.eqb_spec (length data) 2) as [E|E].
  - rewrite E. apply chiSquarePValue_zero.
  - apply chiSquarePValue_zero_many. lia.
Qed.

Lemma identical_groups_no_difference_witness :
  exists r,
    logRankTest.logRankTest [halfAtOne "A"; halfAtOne "B"] = Some r /\
    chiSquare r = 0 /\ degreesOfFreedom r = 1%nat /\
    pValue r = 0.999999999.
Proof.
  eexists. split; [exact halfAtOne_logRank|].
  apply (identical_groups_no_difference
           [point 1 0.5] [halfAtOne "A"; halfAtOne "B"] _).
  - repeat constructor.
  - exact halfAtOne_logRank.
Defined.

End IdenticalGroups.

(** ** What a result of [logRankTest] holds *)

Section LogRankResultShape.

Import logRankTest.

(** X14.  A result has one degree of freedom less than there are groups,
    at least one, and a non-negative chi-square, from which its p-value
    is computed; with two groups the p-value lies in the unit interval
    and is never 1. It can be 0: for a large chi-square the
    double-precision value is 0. *)
Theorem logRankTest_result_shape :
  forall (data : list SurvivalData) (r : LogRankResult),
    logRankTest.logRankTest data = Some r ->
    degreesOfFreedom r = (length data - 1)%nat /\
    (1 <= degreesOfFreedom r)%nat /\
    0 <= chiSquare r /\
    pValue r = chiSquarePValue (chiSquare r) (degreesOfFreedom r) /\
    (length data = 2%nat -> 0 <= pValue r < 1).
Proof.
  intros data r Hr. apply logRankTest_Some in Hr.
  destruct Hr as [Hlen [_ [Hden [Hchi [Hdf Hpv]]]]].
  split; [assumption|]. split; [lia|]. split; [|split; [assumption|]].
  - rewrite Hchi. apply Rmult_le_pos.
    + apply Rle_0_sqr.
    + apply Rlt_le. now apply Rinv_0_lt_compat.
  - intros H2. rewrite Hpv, Hdf, H2. cbn [Nat.sub].
    rewrite chiSquarePValue_df1.
    match goal with
    | |- context [inlineNormalCDF ?z] =>
        pose proof (inlineNormalCDF_tail z ltac:(apply sqrt_pos))
    end.
    lra.
Qed.

Lemma logRankTest_result_shape_witness :
  exists r,
    logRankTest.logRankTest [halfAtOne "A"; halfAtOne "B"] = Some r /\
    degreesOfFreedom r = 1%nat /\
    (1 <= degreesOfFreedom r)%nat /\
    0 <= chiSquare r /\
    pValue r = chiSquarePValue (chiSquare r) (degreesOfFreedom r) /\
    (2%nat = 2%nat -> 0 <= pValue r < 1).
Proof.
  eexists. split; [exact halfAtOne_logRank|].
  exact (logRankTest_result_shape _ _ halfAtOne_logRank).
Defined.

End LogRankResultShape.

(** ** The cleaning of the [SurvivalCurve] component *)

Section CleaningShape.

Lemma sort_insert_ascending x l :
  ascending l -> ascending (sort_insert time x l).
Proof.
  induction l as [|h l IH]; intros Hasc; simpl.
  - split; [constructor | exact I].
  - destruct Hasc as [Hh Hl].
    destruct (Rlt_dec (time x) (time h)) as [Hlt|Hge].
    + split; [|split; assumption].
      constructor; [lra|].
      eapply List.Forall_impl; [|exact Hh]. intros q Hq. simpl in Hq. lra.
    + split; [|now apply IH].
      apply List.Forall_forall. intros q Hq.
      apply sort_insert_In in Hq. destruct Hq as [->|Hq]; [lra|].
      rewrite List.Forall_forall in Hh. now apply Hh.
Qed.

Lemma Array_sort_time_ascending points : ascending (Array_sort time points).
Proof.
  unfold Array_sort.
  assert (H : forall acc,
             ascending acc ->
             ascending (fold_left (fun sorted x => sort_insert time x sorted)
                                  points acc)).
  { induction points as [|x l IH]; intros acc Hacc; simpl; [assumption|].
    apply IH. now apply sort_insert_ascending. }
  apply H. exact I.
Qed.

Lemma sort_insert_Permutation {A} (key : A -> R) x l :
  Permutation (sort_insert key x l) (x :: l).
Proof.
  induction l as [|h l IH]; simpl; [reflexivity|].
  destruct (Rlt_dec (key x) (key h)); [reflexivity|].
  rewrite IH. apply perm_swap.
Qed.

Lemma Array_sort_Permutation {A} (key : A -> R) l :
  Permutation (Array_sort key l) l.
Proof.
  unfold Array_sort.
  assert (H : forall acc,
             Permutation
               (fold_left (fun sorted x => sort_insert key x sorted) l acc)
               (acc ++ l)).
  { induction l as [|x l IH]; intros acc; simpl.
    - now rewrite app_nil_r.
    - rewrite IH, sort_insert_Permutation. apply Permutation_middle. }
  apply (H []).
Qed.

Lemma monotonicFrom_times s l :
  map time (monotonicFrom s l) = map time l.
Proof.
  revert s. induction l as [|q l IH]; intros s; simpl; [reflexivity|].
  now rewrite IH.
Qed.

Lemma ascending_times l1 l2 :
  map time l1 = map time l2 -> ascending l1 -> ascending l2.
Proof.
  revert l2. induction l1 as [|q1 l1 IH]; intros [|q2 l2] Hm Hasc;
    try discriminate; [exact I|].
  simpl in Hm. injection Hm as Hq Hm. destruct Hasc as [Hh Hl].
  split; [|now apply (IH l2)].
  rewrite List.Forall_forall in *. intros q Hq2.
  apply (in_map time) in Hq2. rewrite <- Hm in Hq2.
  apply in_map_iff in Hq2. destruct Hq2 as [q' [Hq' Hin]].
  rewrite <- Hq, <- Hq'. now apply Hh.
Qed.

Lemma monotonicFrom_nonIncreasingFrom s l :
  nonIncreasingFrom s (monotonicFrom s l).
Proof.
  revert s. induction l as [|q l IH]; intros s; simpl; [exact I|].
  split; [apply Rmin_l | apply IH].
Qed.

Lemma monotonic_is_cleaned g : cleaned (monotonic g).
Proof.
  split; simpl.
  - apply (ascending_times (Array_sort time (timePoints g))).
    + now rewrite monotonicFrom_times.
    + apply Array_sort_time_ascending.
  - apply monotonicFrom_nonIncreasingFrom.
Qed.

Lemma runningMinimum_snoc l q :
  runningMinimum (l ++ [q]) = Rmin (runningMinimum l) (survival q).
Proof. unfold runningMinimum. now rewrite map_app, fold_left_app. Qed.

Lemma monotonicFrom_running pre l :
  Forall2 (fun c i => survival c = runningMinimum (firstn (S i) (pre ++ l)))
          (monotonicFrom (runningMinimum pre) l)
          (seq (length pre) (length l)).
Proof.
  revert pre. induction l as [|q l IH]; intros pre; simpl; [constructor|].
  constructor.
  - simpl. change (pre ++ q :: l) with (pre ++ [q] ++ l).
    rewrite app_assoc.
    replace (S (length pre)) with (length (pre ++ [q]) + 0)%nat
      by (rewrite length_app; simpl; lia).
    rewrite firstn_app_2. simpl. rewrite app_nil_r.
    now rewrite runningMinimum_snoc.
  - specialize (IH (pre ++ [q])).
    rewrite runningMinimum_snoc in IH. unfold Math_min.
    replace (length (pre ++ [q])) with (S (length pre)) in IH
      by (rewrite length_app; simpl; lia).
    rewrite <- app_assoc in IH. exact IH.
Qed.

(** X15.  What the cleaning returns is in cleaned form, so cleaning a
    second time changes nothing; it holds the supplied times, reordered,
    and the survival of its [i]-th point is the smallest of 1 and the
    survival values of the first [i + 1] points in time order. *)
Theorem cleaning_idempotent :
  forall group : SurvivalData,
    cleaned (monotonic group) /\
    monotonic (monotonic group) = monotonic group /\
    SurvivalCurve.subtype (monotonic group) = SurvivalCurve.subtype group /\
    Permutation (map time (timePoints (monotonic group)))
                (map time (timePoints group)) /\
    Forall2 (fun c i =>
               survival c
               = runningMinimum
                   (firstn (S i) (Array_sort time (timePoints group))))
            (timePoints (monotonic group))
            (seq 0 (length (timePoints group))).
Proof.
  intros g. pose proof (monotonic_is_cleaned g) as Hc.
  split; [assumption|]. split; [now apply monotonic_cleaned|].
  split; [reflexivity|]. split.
  - simpl. rewrite monotonicFrom_times.
    apply Permutation_map, Array_sort_Permutation.
  - simpl. rewrite <- (Array_sort_length time (timePoints g)).
    apply (monotonicFrom_running [] (Array_sort time (timePoints g))).
Qed.

End CleaningShape.

(** ** The median *)

Section Median.

Lemma medianFrom_None prev l :
  medianFrom prev l = None <-> List.Forall (fun q => 0.5 < survival q) l.
Proof.
  revert prev. induction l as [|q l IH]; intros prev; simpl.
  - split; [constructor | reflexivity].
  - unfold leb. destruct (Rle_dec (survival q) 0.5) as [Hle|Hgt].
    + split.
      * destruct prev as [p|]; [|discriminate].
        destruct (gtb (survival p) 0.5); [|discriminate].
        destruct (eqb (time q) (time p)); [discriminate|].
        cbv zeta. destruct (eqb _ 0); discriminate.
      * intros H. apply List.Forall_inv in H. lra.
    + rewrite IH. split.
      * intros H. constructor; [lra | assumption].
      * intros H. now apply List.Forall_inv_tail in H.
Qed.

Lemma Forall_monotonicFrom_above s l :
  0.5 < s ->
  List.Forall (fun q => 0.5 < survival q) (monotonicFrom s l)
  <-> List.Forall (fun q => 0.5 < survival q) l.
Proof.
  revert s. induction l as [|q l IH]; intros s Hs; simpl.
  - split; constructor.
  - unfold Math_min. split; intros H.
    + pose proof (List.Forall_inv H) as Hq. simpl in Hq.
      pose proof (Rmin_r s (survival q)).
      constructor; [lra|].
      apply List.Forall_inv_tail in H. now apply IH in H.
    + pose proof (List.Forall_inv H) as Hq.
      assert (Hm : 0.5 < Rmin s (survival q)) by (apply Rmin_glb_lt; lra).
      constructor; [exact Hm|].
      apply IH; [assumption|]. now apply List.Forall_inv_tail in H.
Qed.

(** X16.  No median is reported exactly when every supplied survival
    value is above 0.5. *)
Theorem median_not_reached :
  forall group : SurvivalData,
    medianOf group = None
    <-> List.Forall (fun tp => 0.5 < survival tp) (timePoints group).
Proof.
  intros g. unfold medianOf. rewrite medianFrom_None. simpl.
  rewrite Forall_monotonicFrom_above by lra.
  rewrite !List.Forall_forall. split; intros H q Hq; apply H.
  - now apply Array_sort_In.
  - now apply Array_sort_In in Hq.
Qed.

Lemma last_default {A} (l : list A) (d d' : A) :
  l <> [] -> List.last l d = List.last l d'.
Proof.
  induction l as [|x l IH]; intros Hne; [contradiction|].
  destruct l as [|y l]; [reflexivity|].
  change (List.last (y :: l) d = List.last (y :: l) d').
  apply IH. discriminate.
Qed.

Lemma medianFrom_Some prev l m :
  medianFrom prev l = Some m ->
  (forall p, prev = Some p -> 0.5 < survival p) ->
  exists pre curr post,
    l = pre ++ curr :: post /\
    List.Forall (fun q => 0.5 < survival q) pre /\
    survival curr <= 0.5 /\
    match List.last (map Some pre) prev with
    | None => m = time curr
    | Some p =>
        0.5 < survival p /\
        if Req_dec_T (time curr) (time p) then m = time p
        else m = time p + (0.5 - survival p)
                          / ((survival curr - survival p)
                             / (time curr - time p))
    end.
Proof.
  revert prev. induction l as [|q l IH]; intros prev Hm Hprev; simpl in Hm;
    [discriminate|].
  unfold leb in Hm. destruct (Rle_dec (survival q) 0.5) as [Hle|Hgt].
  - exists [], q, l. split; [reflexivity|]. split; [constructor|].
    split; [assumption|]. simpl.
    destruct prev as [p|]; [|now injection Hm as <-].
    specialize (Hprev p eq_refl). split; [assumption|].
    rewrite (gtb_true _ _ Hprev) in Hm. unfold eqb in Hm.
    destruct (Req_dec_T (time q) (time p)) as [Ht|Ht];
      [now injection Hm as <-|].
    cbv zeta in Hm.
    destruct (Req_dec_T ((survival q - survival p) / (time q - time p)) 0)
      as [H0|_]; [|now injection Hm as <-].
    exfalso. apply Rmult_integral in H0. destruct H0 as [H0|H0]; [lra|].
    apply (Rinv_neq_0_compat (time q - time p)); [lra | assumption].
  - destruct (IH (Some q) Hm) as [pre [curr [post [-> [Hpre [Hcurr Hlast]]]]]].
    { intros p [= <-]. lra. }
    exists (q :: pre), curr, post. split; [reflexivity|].
    split; [constructor; [lra | assumption]|]. split; [assumption|].
    destruct pre as [|q' pre]; [exact Hlast|].
    cbn [map] in *. 
    change (List.last (Some q :: Some q' :: map Some pre) prev)
      with (List.last (Some q' :: map Some pre) prev).
    rewrite (last_default (Some q' :: map Some pre) prev (Some q));
      [exact Hlast | discriminate].
Qed.

Lemma ascending_split pre (p curr : SurvivalTimePoint) post :
  ascending (pre ++ curr :: post) ->
  List.last (map Some pre) None = Some p -> time p <= time curr.
Proof.
  induction pre as [|q pre IH]; intros Hasc Hlast; simpl in *; [discriminate|].
  destruct Hasc as [Hh Hl]. destruct pre as [|q' pre].
  - simpl in *. injection Hlast as <-.
    now apply List.Forall_inv in Hh.
  - apply IH; assumption.
Qed.

(** X17.  A reported median comes from the first cleaned point at or
    below 0.5: it is the time of that point when the curve starts there,
    and otherwise the time at which the segment from the last point
    above 0.5 to that point crosses 0.5, between the times of the two. *)
Theorem median_crosses_half :
  forall (group : SurvivalData) (m : R),
    medianOf group = Some m ->
    exists pre curr post,
      timePoints (monotonic group) = pre ++ curr :: post /\
      List.Forall (fun q => 0.5 < survival q) pre /\
      survival curr <= 0.5 /\
      match List.last (map Some pre) None with
      | None => m = time curr
      | Some prev => crossesHalf prev curr m
      end.
Proof.
  intros g m Hm. unfold medianOf in Hm.
  destruct (medianFrom_Some None _ m Hm) as [pre [curr [post [E [Hpre [Hc Hl]]]]]];
    [discriminate|].
  exists pre, curr, post. repeat split; try assumption.
  destruct (List.last (map Some pre) None) as [p|] eqn:El; [|assumption].
  destruct Hl as [Hp Hl].
  pose proof (monotonic_is_cleaned g) as [Hasc _]. rewrite E in Hasc.
  pose proof (ascending_split pre p curr post Hasc El) as Ht.
  unfold crossesHalf.
  destruct (Req_dec_T (time curr) (time p)) as [Heq|Hne].
  - subst m. rewrite Heq. split; lra.
  - assert (Hdt : 0 < time curr - time p) by lra.
    assert (Hds : survival curr - survival p < 0) by lra.
    assert (Hq : (0.5 - survival p)
                 / ((survival curr - survival p) / (time curr - time p))
                 = (0.5 - survival p) / (survival curr - survival p)
                   * (time curr - time p)) by (field; lra).
    rewrite Hq in Hl. subst m.
    assert (Hr : 0 < (0.5 - survival p) / (survival curr - survival p) <= 1).
    { split.
      - replace ((0.5 - survival p) / (survival curr - survival p))
          with ((survival p - 0.5) / (survival p - survival curr))
          by (field; lra).
        apply Rdiv_lt_0_compat; lra.
      - replace ((0.5 - survival p) / (survival curr - survival p))
          with ((survival p - 0.5) / (survival p - survival curr))
          by (field; lra).
        apply Rmult_le_reg_r with (survival p - survival curr); [lra|].
        unfold Rdiv. rewrite Rmult_assoc, Rinv_l by lra. lra. }
    set (r := (0.5 - survival p) / (survival curr - survival p)) in *.
    split; [split; nra|].
    replace (time p + r * (time curr - time p) - time p)
      with (r * (time curr - time p)) by ring.
    unfold r. field. lra.
Qed.

End Median.

Section MedianExample.

Lemma fallingCurve_cleaned :
  timePoints (monotonic fallingCurve) = [point 1 0.8; point 3 0.4].
Proof.
  unfold fallingCurve, monotonic, Array_sort, point. js_eval. reflexivity.
Qed.

Lemma fallingCurve_median : medianOf fallingCurve = Some 2.5.
Proof.
  unfold medianOf. rewrite fallingCurve_cleaned. unfold point. simpl.
  cmp_eval. simpl. cmp_eval. cbv zeta.
  assert (Hs : (0.4 - 0.8) / (3 - 1) = -0.2) by lra.
  rewrite Hs. cmp_eval. f_equal. lra.
Qed.

Lemma median_crosses_half_witness :
  exists pre curr post,
    timePoints (monotonic fallingCurve) = pre ++ curr :: post /\
    List.Forall (fun q => 0.5 < survival q) pre /\
    survival curr <= 0.5 /\
    match List.last (map Some pre) None with
    | None => 2.5 = time curr
    | Some prev => crossesHalf prev curr 2.5
    end.
Proof. exact (median_crosses_half fallingCurve 2.5 fallingCurve_median). Defined.

End MedianExample.

(** ** The drawn points and their band *)

Section DrawnPoints.

Lemma last_snoc_Some {A} (l : list A) (x : A) :
  List.last (map Some (l ++ [x])) None = Some x.
Proof. rewrite map_app. simpl. apply List.last_last. Qed.

Lemma pushPoint_from n l acc :
  fold_left (Chart.pushPoint n) l acc
  = acc ++ map (Chart.ofCleaned n)
               (monotonicFrom
                  match List.last (map Some acc) None with
                  | Some q => Chart.survival q
                  | None => 1
                  end l).
Proof.
  revert acc. induction l as [|tp l IH]; intros acc; simpl.
  - now rewrite app_nil_r.
  - rewrite IH. unfold Chart.pushPoint. cbv zeta.
    rewrite last_snoc_Some. cbn [Chart.survival].
    rewrite <- app_assoc. reflexivity.
Qed.

Lemma drawn_points_are_cleaned_points_aux c g :
  Chart.sortedPoints c g
  = map (Chart.ofCleaned (countOf c (SurvivalCurve.subtype g)))
        (timePoints (monotonic g)).
Proof.
  unfold Chart.sortedPoints. cbv zeta. rewrite pushPoint_from. reflexivity.
Qed.

(** X18.  The points the component draws are the cleaned points from
    which it reads the median, each with the standard error of its
    survival value: the curve on the chart and the reported median come
    from the same cleaned curve. *)
Theorem drawn_points_are_cleaned_points :
  forall (subtypeCounts : SubtypeCounts) (group : SurvivalData),
    Chart.sortedPoints subtypeCounts group
    = map (Chart.ofCleaned
             (countOf subtypeCounts (SurvivalCurve.subtype group)))
          (timePoints (monotonic group)).
Proof.
  intros c g. unfold Chart.sortedPoints. cbv zeta.
  rewrite pushPoint_from. reflexivity.
Qed.

Lemma nonIncreasingFrom_bound s l :
  nonIncreasingFrom s l -> List.Forall (fun q => survival q <= s) l.
Proof.
  revert s. induction l as [|q l IH]; intros s H; simpl in *; [constructor|].
  destruct H as [Hq Hl]. constructor; [assumption|].
  eapply List.Forall_impl; [|exact (IH _ Hl)]. intros q' Hq'. simpl in Hq'. lra.
Qed.

Lemma monotonicFrom_nonneg s l :
  0 <= s -> List.Forall (fun q => 0 <= survival q) l ->
  List.Forall (fun q => 0 <= survival q) (monotonicFrom s l).
Proof.
  revert s. induction l as [|q l IH]; intros s Hs H; simpl; [constructor|].
  pose proof (List.Forall_inv H) as Hq. apply List.Forall_inv_tail in H.
  assert (Hm : 0 <= Math_min s (survival q))
    by (unfold Math_min; apply Rmin_glb; assumption).
  constructor; [exact Hm | now apply IH].
Qed.

Lemma standardError_sqr n s :
  0 < n ->
  0 <= Chart.standardError n s /\
  Chart.standardError n s * Chart.standardError n s
  = (if gtb s 0.01 && ltb s 0.99 then s * (1 - s) / n else 0) /\
  Chart.standardError n s * Chart.standardError n s <= 0.25 / n.
Proof.
  intros Hn. unfold Chart.standardError.
  assert (Hq : 0 <= 0.25 / n) by (apply Rlt_le, Rdiv_lt_0_compat; lra).
  destruct (gtb s 0.01) eqn:E1; [|simpl; repeat split; lra].
  destruct (ltb s 0.99) eqn:E2; [|simpl; repeat split; lra].
  apply gtb_spec in E1. apply ltb_spec in E2. cbn [andb]. unfold Math_sqrt.
  assert (Hx : 0 < (1 - s) / (n * s)).
  { apply Rdiv_lt_0_compat; [lra|]. apply Rmult_lt_0_compat; lra. }
  pose proof (sqrt_sqrt _ (Rlt_le _ _ Hx)) as Hsq.
  pose proof (sqrt_pos ((1 - s) / (n * s))) as Hsp.
  assert (Heq : s * sqrt ((1 - s) / (n * s)) * (s * sqrt ((1 - s) / (n * s)))
                = s * (1 - s) / n).
  { replace (s * sqrt ((1 - s) / (n * s)) * (s * sqrt ((1 - s) / (n * s))))
      with (s * s * (sqrt ((1 - s) / (n * s)) * sqrt ((1 - s) / (n * s))))
      by ring.
    rewrite Hsq. field. lra. }
  split; [apply Rmult_le_pos; lra|]. split; [exact Heq|].
  rewrite Heq. unfold Rdiv. apply Rmult_le_compat_r.
  - apply Rlt_le, Rinv_0_lt_compat, Hn.
  - pose proof (Rle_0_sqr (s - 0.5)) as Hs2. unfold Rsqr in Hs2. lra.
Qed.

(** X19.  For a positive count and survival values that are not
    negative, every drawn point has a survival between 0 and 1 and a
    standard error [se >= 0] with [se * se = S (1 - S) / n] for [0.01 <
    S < 0.99] and [se = 0] otherwise, so [se * se <= 0.25 / n]; its band
    stays within 0 and 1 and holds the survival value. *)
Theorem drawn_band_within_unit_interval :
  forall (subtypeCounts : SubtypeCounts) (group : SurvivalData),
    countsPositive subtypeCounts ->
    List.Forall (fun tp => 0 <= survival tp) (timePoints group) ->
    List.Forall
      (fun q =>
         let n := countOf subtypeCounts (SurvivalCurve.subtype group) in
         let s := Chart.survival q in
         0 <= s <= 1 /\
         0 <= Chart.se q /\
         Chart.se q * Chart.se q
         = (if gtb s 0.01 && ltb s 0.99 then s * (1 - s) / n else 0) /\
         Chart.se q * Chart.se q <= 0.25 / n /\
         0 <= Chart.lower s (Chart.se q) <= s /\
         s <= Chart.upper s (Chart.se q) <= 1)
      (Chart.sortedPoints subtypeCounts group).
Proof.
  intros c g Hpos Hnn. cbv zeta.
  pose proof (countOf_pos c (SurvivalCurve.subtype g) Hpos) as Hn.
  rewrite drawn_points_are_cleaned_points_aux.
  apply List.Forall_forall. intros q Hq.
  apply in_map_iff in Hq. destruct Hq as [tp [<- Htp]].
  unfold Chart.ofCleaned. cbn [Chart.survival Chart.se].
  assert (H0 : 0 <= survival tp).
  { assert (Hall : List.Forall (fun q => 0 <= survival q)
                     (timePoints (monotonic g))).
    { simpl. apply monotonicFrom_nonneg; [lra|].
      apply List.Forall_forall. intros x Hx. apply Array_sort_In in Hx.
      rewrite List.Forall_forall in Hnn. now apply Hnn. }
    rewrite List.Forall_forall in Hall. now apply Hall. }
  assert (H1 : survival tp <= 1).
  { pose proof (monotonic_is_cleaned g) as [_ Hni].
    apply nonIncreasingFrom_bound in Hni.
    rewrite List.Forall_forall in Hni. now apply Hni. }
  destruct (standardError_sqr _ (survival tp) Hn) as [Hse [Hsq Hle]].
  repeat split; try assumption; unfold Chart.lower, Chart.upper,
    Math_max, Math_min.
  - apply Rmax_l.
  - apply Rmax_lub; lra.
  - apply Rmin_glb; lra.
  - apply Rmin_l.
Qed.

Lemma fallingCurve_nonneg :
  List.Forall (fun tp => 0 <= survival tp) (timePoints fallingCurve).
Proof. repeat constructor; simpl; lra. Qed.

Lemma drawn_band_within_unit_interval_witness :
  List.Forall
    (fun q =>
       let n := countOf None (SurvivalCurve.subtype fallingCurve) in
       let s := Chart.survival q in
       0 <= s <= 1 /\
       0 <= Chart.se q /\
       Chart.se q * Chart.se q
       = (if gtb s 0.01 && ltb s 0.99 then s * (1 - s) / n else 0) /\
       Chart.se q * Chart.se q <= 0.25 / n /\
       0 <= Chart.lower s (Chart.se q) <= s /\
       s <= Chart.upper s (Chart.se q) <= 1)
    (Chart.sortedPoints None fallingCurve).
Proof.
  exact (drawn_band_within_unit_interval None fallingCurve
           countsPositive_None fallingCurve_nonneg).
Defined.

End DrawnPoints.

(** ** The range of the reported hazard ratios *)

Section HazardRatioRange.

Import coxphAnalysis.











End HazardRatioRange.

(** ** The reference compared with copies of itself *)

Section SelfComparisonWald.

Import coxphAnalysis.

Lemma normalCDF_0 : normalCDF 0 = 0.5000000005.
Proof.
  rewrite normalCDF_nonneg by lra.
  replace (0 / sqrt 2) with 0 by (unfold Rdiv; ring).
  replace (1 / (1 + p * 0)) with 1 by (field; lra).
  replace (- 0 * 0 / 2) with 0 by field.
  rewrite exp_0, poly_1. lra.
Qed.

Lemma groupEntry_ones_pValue n1 n2 name hrs :
  hrs <> [] -> Forall (fun h => h = 1) hrs ->
  pValue (groupEntry n1 n2 name hrs) = 0.999999999 /\
  (coefficient (groupEntry n1 n2 name hrs)
   / se (groupEntry n1 n2 name hrs)) ^ 2 = 0.
Proof.
  intros Hne Hones.
  destruct (groupEntry_ones n1 n2 name hrs Hne Hones) as [Hc _].
  rewrite pValue_groupEntry. change (meanLogHR hrs)
    with (coefficient (groupEntry n1 n2 name hrs)).
  rewrite Hc. unfold Rdiv. rewrite Rmult_0_l, Rabs_R0, normalCDF_0.
  split; lra.
Qed.

Lemma copies_groups c r comps :
  hazardRatios (timePoints r) (timePoints r) <> [] ->
  List.Forall (fun g => timePoints g = timePoints r) comps ->
  flat_map (groupOf c r) comps
  = map (fun g => groupEntry (countOf c (SurvivalCurve.subtype r))
                             (countOf c (SurvivalCurve.subtype g))
                             (SurvivalCurve.subtype g)
                             (hazardRatios (timePoints r) (timePoints r)))
        comps.
Proof.
  intros Hne Hall. induction Hall as [|g comps Hg _ IH]; simpl; [reflexivity|].
  rewrite IH. rewrite groupOf_eval by (rewrite Hg; exact Hne).
  now rewrite Hg.
Qed.

(** X21.  For positive counts: when the comparison groups all have the
    points of the reference group, and some point with a positive time
    and a survival between 0.05 and 0.99 is the first of its time, every
    comparison group gets an entry with coefficient 0, hazard ratio 1
    and p-value 0.999999999, and the Wald test has chi-square 0 and
    p-value 1. *)
Theorem copies_of_the_reference :
  forall (c : SurvivalData) (comparisons : list SurvivalData)
         (subtypeCounts : SubtypeCounts) (pt : SurvivalTimePoint),
    countsPositive subtypeCounts ->
    comparisons <> [] ->
    List.Forall (fun g => timePoints g = timePoints c) comparisons ->
    find (fun q => eqb (time q) (time pt)) (timePoints c) = Some pt ->
    time pt > 0 -> 0.05 < survival pt < 0.99 ->
    exists res,
      estimateCoxPH (c :: comparisons) subtypeCounts = Some res /\
      map subtype (groups res) = map SurvivalCurve.subtype comparisons /\
      List.Forall (fun e => coefficient e = 0 /\ hazardRatio e = 1 /\
                            pValue e = 0.999999999) (groups res) /\
      chiSquare (waldTest res) = 0 /\
      df (waldTest res) = length comparisons /\
      waldPValue (waldTest res) = 1.
Proof.
  intros c comps counts pt _ Hcomps Hall Hf Ht Hs.
  pose proof (hazardRatios_self_nonempty _ _ Hf Ht Hs) as Hne.
  pose proof (hazardRatios_self_ones (timePoints c)) as Hones.
  pose proof (copies_groups counts c comps Hne Hall) as Hg.
  assert (Hgne : flat_map (groupOf counts c) comps <> []).
  { rewrite Hg. destruct comps; [contradiction | discriminate]. }
  eexists. split.
  { apply estimateCoxPH_eval; [|exact Hgne].
    destruct comps; [contradiction | simpl; lia]. }
  cbn [groups waldTest]. rewrite Hg.
  assert (Hentries :
            forall e,
              In e (map (fun g => groupEntry
                                    (countOf counts (SurvivalCurve.subtype c))
                                    (countOf counts (SurvivalCurve.subtype g))
                                    (SurvivalCurve.subtype g)
                                    (hazardRatios (timePoints c) (timePoints c)))
                        comps) ->
              coefficient e = 0 /\ hazardRatio e = 1 /\
              pValue e = 0.999999999 /\ (coefficient e / se e) ^ 2 = 0).
  { intros e He. apply in_map_iff in He. destruct He as [g [<- _]].
    destruct (groupEntry_ones
                (countOf counts (SurvivalCurve.subtype c))
                (countOf counts (SurvivalCurve.subtype g))
                (SurvivalCurve.subtype g) _ Hne Hones) as [H1 H2].
    destruct (groupEntry_ones_pValue
                (countOf counts (SurvivalCurve.subtype c))
                (countOf counts (SurvivalCurve.subtype g))
                (SurvivalCurve.subtype g) _ Hne Hones) as [H3 H4].
    repeat split; assumption. }
  assert (Hchi : chiSquare
                   (waldOf
                      (map (fun g => groupEntry
                                       (countOf counts (SurvivalCurve.subtype c))
                                       (countOf counts (SurvivalCurve.subtype g))
                                       (SurvivalCurve.subtype g)
                                       (hazardRatios (timePoints c)
                                                     (timePoints c)))
                           comps)) = 0).
  { unfold waldOf. cbn [chiSquare].
    rewrite (wald_sum 0); [lra|]. intros e He. now apply Hentries. }
  split; [|split; [|split; [|split]]].
  - rewrite map_map. reflexivity.
  - apply List.Forall_forall. intros e He.
    destruct (Hentries e He) as [H1 [H2 [H3 _]]]. repeat split; assumption.
  - exact Hchi.
  - unfold waldOf. cbn [df]. now rewrite length_map.
  - unfold waldOf in *. cbn [waldPValue chiSquare] in *. rewrite Hchi.
    unfold chiSquareCDF. destruct (Rle_dec 0 0) as [_|H]; [lra|].
    exfalso. apply H. lra.
Qed.

Lemma copies_of_the_reference_witness :
  exists res,
    estimateCoxPH [halfAtOne "A"; halfAtOne "B"; halfAtOne "C"] None
    = Some res /\
    map subtype (groups res) = ["B"%string; "C"%string] /\
    List.Forall (fun e => coefficient e = 0 /\ hazardRatio e = 1 /\
                          pValue e = 0.999999999) (groups res) /\
    chiSquare (waldTest res) = 0 /\
    df (waldTest res) = 2%nat /\
    waldPValue (waldTest res) = 1.
Proof.
  apply (copies_of_the_reference
           (halfAtOne "A") [halfAtOne "B"; halfAtOne "C"] None (point 1 0.5)).
  - exact countsPositive_None.
  - discriminate.
  - repeat constructor.
  - simpl. now rewrite eqb_refl.
  - simpl. lra.
  - simpl. lra.
Defined.

End SelfComparisonWald.

(** ** The series branch of the incomplete gamma function *)

Section SeriesBranch.

Import coxphAnalysis.

Lemma gammainc_series_pos fuel n a x sum del :
  0 < a -> 0 < x -> 0 <= n -> 0 < sum -> 0 < del ->
  0 < gammainc_series fuel n a x sum del.
Proof.
  intros Ha Hx. revert n sum del.
  induction fuel as [|fuel IH]; intros n sum del Hn Hsum Hdel; simpl;
    [assumption|].
  assert (Hq : 0 < x / (a + n)) by (apply Rdiv_lt_0_compat; lra).
  assert (Hd : 0 < del * (x / (a + n))) by (now apply Rmult_lt_0_compat).
  destruct (Rlt_dec _ _); [lra|]. apply IH; lra.
Qed.

Lemma gammainc_series_branch a x :
  0 < a -> 0 < x < a + 1 ->
  gammainc a x
  = gammainc_series 100 1 a x (1 / a) (1 / a)
    * exp (- x + a * ln x - gammaLn a) /\
  0 < gammainc a x.
Proof.
  intros Ha [Hx Hxa]. unfold gammainc.
  rewrite (ltb_false x 0), (leb_false a 0), (eqb_false x 0) by lra.
  cbn [orb]. cbv zeta. destruct (Rlt_dec x (a + 1)) as [_|H]; [|lra].
  split; [reflexivity|]. apply Rmult_lt_0_compat; [|apply exp_pos].
  assert (H1 : 0 < 1 / a) by (apply Rdiv_lt_0_compat; lra).
  apply gammainc_series_pos; lra.
Qed.

(** The sum taken by [gammaLn] is above 1 for a positive argument, so
    both logarithms of [gammaLn] are taken of positive numbers. *)
Lemma gammaLn_ser_above_one x : 0 < x -> 1 < gammaLn_ser x.
Proof.
  intros Hx. unfold gammaLn_ser.
  assert (P1 : 0 < / (x + 1)) by (apply Rinv_0_lt_compat; lra).
  assert (P2 : 0 < / (x + 1 + 1)) by (apply Rinv_0_lt_compat; lra).
  assert (P3 : 0 < / (x + 1 + 1 + 1)) by (apply Rinv_0_lt_compat; lra).
  assert (P4 : 0 < / (x + 1 + 1 + 1 + 1)) by (apply Rinv_0_lt_compat; lra).
  assert (P5 : 0 < / (x + 1 + 1 + 1 + 1 + 1))
    by (apply Rinv_0_lt_compat; lra).
  assert (P6 : 0 < / (x + 1 + 1 + 1 + 1 + 1 + 1))
    by (apply Rinv_0_lt_compat; lra).
  assert (H12 : / (x + 1 + 1) <= / (x + 1))
    by (apply Rinv_le_contravar; lra).
  assert (H34 : / (x + 1 + 1 + 1 + 1) <= / (x + 1 + 1 + 1))
    by (apply Rinv_le_contravar; lra).
  assert (H56 : / (x + 1 + 1 + 1 + 1 + 1 + 1) <= / (x + 1 + 1 + 1 + 1 + 1))
    by (apply Rinv_le_contravar; lra).
  assert (H23 : 2 * / (x + 1 + 1) <= 3 * / (x + 1 + 1 + 1)).
  { apply Rmult_le_reg_r with (x + 1 + 1); [lra|].
    apply Rmult_le_reg_r with (x + 1 + 1 + 1); [lra|].
    replace (2 * / (x + 1 + 1) * (x + 1 + 1) * (x + 1 + 1 + 1))
      with (2 * (x + 1 + 1 + 1)) by (field; lra).
    replace (3 * / (x + 1 + 1 + 1) * (x + 1 + 1) * (x + 1 + 1 + 1))
      with (3 * (x + 1 + 1)) by (field; lra).
    lra. }
  unfold Rdiv. lra.
Qed.

End SeriesBranch.

Section WaldBelowOne.

Import coxphAnalysis.

(** X22.  [gammainc] returns 0 without a logarithm when [x <= 0] or [a
    <= 0]; otherwise its three logarithms are taken of positive numbers:
    [x], [a + 5.5] and [2.5066282746310005 * ser / a], the sum [ser]
    being above 1. *)
Theorem gammainc_logarithms_defined :
  forall a x : R,
    (x <= 0 \/ a <= 0 -> gammainc a x = 0) /\
    (0 < a ->
     gammaLn a
     = - (a + 5.5 - (a + 0.5) * ln (a + 5.5))
       + ln (2.5066282746310005 * gammaLn_ser a / a) /\
     0 < a + 5.5 /\ 1 < gammaLn_ser a /\
     0 < 2.5066282746310005 * gammaLn_ser a / a).
Proof.
  intros a x. split.
  - intros H. unfold gammainc.
    destruct (Rlt_dec x 0) as [Hx|Hx]; [now rewrite (ltb_true _ _ Hx)|].
    rewrite (ltb_false _ _ Hx).
    destruct (Rle_dec a 0) as [Ha|Ha]; [now rewrite (leb_true _ _ Ha)|].
    rewrite (leb_false _ _ Ha). cbn [orb].
    rewrite eqb_true; [reflexivity | lra].
  - intros Ha. pose proof (gammaLn_ser_above_one a Ha) as Hs.
    split; [apply gammaLn_unfold|]. split; [lra|]. split; [assumption|].
    apply Rdiv_lt_0_compat; [|assumption].
    apply Rmult_lt_0_compat; lra.
Qed.

Lemma chiSquareCDF_series x df :
  0 < df -> 0 < x < df + 2 -> 0 < chiSquareCDF x df.
Proof.
  intros Hdf [Hx Hxd]. unfold chiSquareCDF.
  destruct (Rle_dec x 0); [lra|]. destruct (Rle_dec df 0); [lra|].
  apply gammainc_series_branch; lra.
Qed.

Lemma mixedGroups_entries :
  flat_map (groupOf None (mkData "ref" refPoints))
           [mkData "B" steepPoints; mkData "C" refPoints; mkData "D" refPoints]
  = mixedEntries.
Proof.
  cbn [flat_map].
  rewrite (groupOf_eval None _ (mkData "B" steepPoints))
    by (cbn [timePoints]; rewrite steep_samples; discriminate).
  rewrite (groupOf_eval None _ (mkData "C" refPoints)) by apply same_samples.
  rewrite (groupOf_eval None _ (mkData "D" refPoints)) by apply same_samples.
  cbn [timePoints SurvivalCurve.subtype]. rewrite steep_samples. reflexivity.
Qed.

Lemma mixedGroups_result :
  estimateCoxPH mixedGroups None
  = Some (mkCox "ref" mixedEntries (waldOf mixedEntries)).
Proof.
  unfold mixedGroups. rewrite estimateCoxPH_eval.
  - now rewrite mixedGroups_entries.
  - simpl. lia.
  - rewrite mixedGroups_entries. discriminate.
Qed.

Lemma mixedGroups_chiSquare : chiSquare (waldOf mixedEntries) = 4.5.
Proof.
  unfold waldOf, mixedEntries. cbn [chiSquare fold_left].
  rewrite steep_entry, !same_entry. lra.
Qed.

(** X23.  For positive counts: while the Wald statistic is below the
    degrees of freedom plus 2, the Wald p-value does not exceed 1, and
    it is 1 when the statistic is 0. *)
Theorem wald_p_value_at_most_one :
  forall (data : list SurvivalData) (subtypeCounts : SubtypeCounts)
         (res : CoxPHResult),
    countsPositive subtypeCounts ->
    estimateCoxPH data subtypeCounts = Some res ->
    chiSquare (waldTest res) < INR (df (waldTest res)) + 2 ->
    waldPValue (waldTest res) <= 1 /\
    (chiSquare (waldTest res) = 0 -> waldPValue (waldTest res) = 1).
Proof.
  intros data c res _ Hres Hsmall. apply estimateCoxPH_Some in Hres.
  destruct Hres as [r [comps [_ [_ [_ [Hne [_ Hw]]]]]]].
  rewrite Hw in *. unfold waldOf in *. cbn [chiSquare df waldPValue] in *.
  set (chi := fold_left (fun sum g => sum + (coefficient g / se g) ^ 2)
                        (groups res) 0) in *.
  assert (Hchi : 0 <= chi) by (apply wald_sum_nonneg; lra).
  assert (Hdf : 0 < INR (length (groups res))).
  { apply lt_0_INR. destruct (groups res); [contradiction | simpl; lia]. }
  assert (Hzero : chi = 0 ->
                  1 - chiSquareCDF chi (INR (length (groups res))) = 1).
  { intros ->. unfold chiSquareCDF.
    destruct (Rle_dec 0 0) as [_|H]; [lra | exfalso; apply H; lra]. }
  split; [|exact Hzero].
  destruct Hchi as [Hpos|Heq].
  - pose proof (chiSquareCDF_series chi _ Hdf (conj Hpos Hsmall)) as H. lra.
  - rewrite Hzero by (symmetry; exact Heq). lra.
Qed.

Lemma wald_p_value_at_most_one_witness :
  waldPValue (waldOf mixedEntries) <= 1 /\
  (chiSquare (waldOf mixedEntries) = 0 -> waldPValue (waldOf mixedEntries) = 1).
Proof.
  apply (wald_p_value_at_most_one mixedGroups None _
           countsPositive_None mixedGroups_result).
  cbn [waldTest]. rewrite mixedGroups_chiSquare.
  unfold waldOf, mixedEntries. cbn [df length]. simpl. lra.
Defined.

End WaldBelowOne.

(** ** The record of medians *)

Section MedianRecord.

Lemma medianSurvival_snoc data g :
  medianSurvival (data ++ [g])
  = <[SurvivalCurve.subtype g := medianOf g]> (medianSurvival data).
Proof. unfold medianSurvival. now rewrite fold_left_app. Qed.

(** X24.  The record of medians holds, under each subtype name, the
    median of the last group supplied under that name, and nothing under
    a name that no group has. *)
Theorem medianSurvival_lookup :
  forall (data : list SurvivalData) (name : string),
    medianSurvival data !! name
    = medianOf <$> last (filter (fun g => SurvivalCurve.subtype g = name) data).
Proof.
  intros data name. induction data as [|g data IH] using rev_ind.
  - reflexivity.
  - rewrite medianSurvival_snoc, filter_app, filter_cons, filter_nil.
    destruct (decide (SurvivalCurve.subtype g = name)) as [<-|Hne].
    + rewrite lookup_insert_eq, last_snoc. reflexivity.
    + rewrite lookup_insert_ne by assumption.
      now rewrite app_nil_r.
Qed.

End MedianRecord.

(** ** Curves without a drop *)

Section FlatCurves.

Import logRankTest coxphAnalysis.

Lemma lastSuppliedAt_flat points k :
  List.Forall (fun tp => 0.999 < survival tp <= 1) points ->
  0.999 < lastSuppliedAt points k <= 1.
Proof.
  intros Hall. unfold lastSuppliedAt.
  assert (H : List.Forall (fun s => 0.999 < s <= 1)
                (map survival (List.filter (fun tp => eqb (time tp) k) points))).
  { apply List.Forall_forall. intros s Hs. apply in_map_iff in Hs.
    destruct Hs as [tp [<- Htp]]. apply filter_In in Htp.
    rewrite List.Forall_forall in Hall. now apply Hall. }
  induction H as [|s l Hs Hl IH]; simpl; [lra|].
  destruct l; [assumption | exact IH].
Qed.

Lemma Map_get_entries (f : R -> R) (D : list R) t s :
  Map_get (map (fun k => (k, f k)) D) t = Some s -> s = f t.
Proof.
  induction D as [|d D IH]; simpl; [discriminate|].
  destruct (Req_dec_T d t) as [->|_]; [now intros [= <-] | exact IH].
Qed.

Lemma eventsOf_flat m times :
  (forall t s, Map_get m t = Some s -> 0.999 < s <= 1) ->
  eventsOf m times = [].
Proof.
  intros Hm. unfold eventsOf.
  assert (H : forall prev,
             0.999 < prev <= 1 ->
             fst (fold_left
                    (fun '(events, prevSurvival) time =>
                       match Map_get m time with
                       | Some s =>
                           let survivalDrop := prevSurvival - s in
                           ((if Rgt_dec survivalDrop 0.001
                             then Map_set events time
                                    (Math_max 1
                                       (Math_round (survivalDrop * 100)))
                             else events), s)
                       | None => (events, prevSurvival)
                       end)
                    times ([], prev)) = []).
  { induction times as [|t times IH]; intros prev Hprev; simpl; [reflexivity|].
    destruct (Map_get m t) as [s|] eqn:E; [|now apply IH].
    specialize (Hm t s E). cbv zeta.
    destruct (Rgt_dec (prev - s) 0.001) as [Hdrop|_]; [lra|].
    now apply IH. }
  apply H. lra.
Qed.

Lemma groupDataOf_flat times g :
  List.Forall (fun tp => 0.999 < survival tp <= 1) (timePoints g) ->
  events (groupDataOf times g) = [].
Proof.
  intros Hall. unfold groupDataOf. cbn [events].
  apply eventsOf_flat. intros t s Hs.
  rewrite timePointMapOf_entries in Hs. apply Map_get_entries in Hs.
  subst s. now apply lastSuppliedAt_flat.
Qed.

Lemma timeStep_no_events gds acc t :
  List.Forall (fun gd => events gd = []) gds -> timeStep gds acc t = acc.
Proof.
  intros Hall. unfold timeStep.
  rewrite (map_constant (fun g => eventsAt g t) 0 gds).
  2:{ intros gd Hgd. rewrite List.Forall_forall in Hall.
      unfold eventsAt. now rewrite (Hall gd Hgd). }
  rewrite fold_left_Rplus_repeat.
  rewrite (gtb_false (0 + INR (length gds) * 0) 0) by lra.
  now rewrite andb_false_r.
Qed.

Lemma sampleAt_flat r g t :
  0.99 <= survivalAt r t -> sampleAt r g t = [].
Proof.
  intros H. unfold sampleAt. cbv zeta.
  rewrite (ltb_false (survivalAt r t) 0.99) by lra.
  now rewrite andb_false_r.
Qed.

Lemma survivalAt_flat pts t :
  List.Forall (fun tp => 0.999 < survival tp <= 1) pts ->
  0.99 <= survivalAt pts t.
Proof.
  intros Hall. unfold survivalAt, or_default.
  destruct (find (fun p => eqb (time p) t) pts) as [q|] eqn:E; simpl; [|lra].
  apply find_some in E. destruct E as [Hq _].
  rewrite List.Forall_forall in Hall. specialize (Hall q Hq).
  destruct (Req_dec_T (survival q) 0); lra.
Qed.

(** X25.  Curves on which nothing happens give no result: when every
    survival value of every group is above 0.999 and at most 1,
    [logRankTest] finds no event and returns null, and [estimateCoxPH]
    finds no usable sample and returns null. *)
Theorem flat_curves_give_null :
  forall (data : list SurvivalData) (subtypeCounts : SubtypeCounts),
    List.Forall
      (fun g => List.Forall (fun tp => 0.999 < survival tp <= 1)
                            (timePoints g)) data ->
    statistic data = (0, 0) /\
    logRankTest.logRankTest data = None /\
    estimateCoxPH data subtypeCounts = None.
Proof.
  intros data c Hall.
  assert (Hstat : statistic data = (0, 0)).
  { unfold statistic. cbv zeta.
    set (gds := map (groupDataOf (sortedTimes data)) data).
    assert (Hgds : List.Forall (fun gd => events gd = []) gds).
    { apply List.Forall_forall. intros gd Hgd. apply in_map_iff in Hgd.
      destruct Hgd as [g [<- Hg]]. apply groupDataOf_flat.
      rewrite List.Forall_forall in Hall. now apply Hall. }
    assert (Hfold : forall ts acc, fold_left (timeStep gds) ts acc = acc).
    { induction ts as [|t ts IH]; intros acc; simpl; [reflexivity|].
      now rewrite timeStep_no_events. }
    apply Hfold. }
  split; [assumption|]. split.
  - apply logRankTest_no_variance. rewrite Hstat. simpl. lra.
  - destruct data as [|r comps]; [reflexivity|].
    unfold estimateCoxPH. destruct (length (r :: comps) <? 2)%nat;
      [reflexivity|]. cbv zeta.
    assert (Hr : List.Forall (fun tp => 0.999 < survival tp <= 1)
                   (timePoints r)) by (now apply List.Forall_inv in Hall).
    assert (Hg : flat_map (groupOf c r) comps = []).
    { clear - Hr. induction comps as [|g comps IH]; simpl; [reflexivity|].
      rewrite IH, app_nil_r. unfold groupOf.
      assert (Hh : hazardRatios (timePoints r) (timePoints g) = []).
      { unfold hazardRatios.
        induction (commonTimes (timePoints r) (timePoints g)) as [|t l IHl];
          simpl; [reflexivity|].
        rewrite IHl, app_nil_r. apply sampleAt_flat.
        now apply survivalAt_flat. }
      now rewrite Hh. }
    now rewrite Hg.
Qed.

Lemma flat_curves_give_null_witness :
  statistic [flatCurve "A"; flatCurve "B"] = (0, 0) /\
  logRankTest.logRankTest [flatCurve "A"; flatCurve "B"] = None /\
  estimateCoxPH [flatCurve "A"; flatCurve "B"] None = None.
Proof.
  apply (flat_curves_give_null [flatCurve "A"; flatCurve "B"] None).
  repeat constructor; simpl; lra.
Defined.

End FlatCurves.

(** ** A result is assembled from the comparisons against the reference *)

Section Pairwise.

Import coxphAnalysis.

Lemma estimateCoxPH_pair c r g :
  groupsOfResult (estimateCoxPH [r; g] c) = groupOf c r g.
Proof.
  unfold estimateCoxPH. cbn [length Nat.ltb Nat.leb flat_map]. cbv zeta.
  rewrite app_nil_r. destruct (groupOf c r g); reflexivity.
Qed.

Lemma wald_sum_app l1 l2 acc :
  fold_left (fun sum g => sum + (coefficient g / se g) ^ 2) (l1 ++ l2) acc
  = fold_left (fun sum g => sum + (coefficient g / se g) ^ 2) l1 acc
    + fold_left (fun sum g => sum + (coefficient g / se g) ^ 2) l2 0.
Proof.
  rewrite fold_left_app.
  generalize (fold_left (fun sum g => sum + (coefficient g / se g) ^ 2) l1 acc).
  induction l2 as [|e l2 IH]; intros a; simpl; [lra|].
  rewrite IH, (IH (0 + _)). lra.
Qed.

(** X26.  The entries of a result are those of the two-group calls of
    the reference with each comparison group, in order, and the Wald
    chi-square is the sum of the chi-squares of these calls: no group
    has a part in the entry of another. *)
Theorem result_assembled_from_pairs :
  forall (reference : SurvivalData) (comparisons : list SurvivalData)
         (subtypeCounts : SubtypeCounts) (res : CoxPHResult),
    estimateCoxPH (reference :: comparisons) subtypeCounts = Some res ->
    groups res
    = flat_map (fun g => groupsOfResult
                           (estimateCoxPH [reference; g] subtypeCounts))
               comparisons /\
    chiSquare (waldTest res)
    = fold_left Rplus
        (map (fun g => chiSquareOfResult
                         (estimateCoxPH [reference; g] subtypeCounts))
             comparisons) 0.
Proof.
  intros r comps c res Hres. apply estimateCoxPH_Some in Hres.
  destruct Hres as [r' [comps' [E [_ [Hg [_ [_ Hw]]]]]]].
  injection E as <- <-. split.
  - rewrite Hg. apply flat_map_ext. intros g. now rewrite estimateCoxPH_pair.
  - rewrite Hw, Hg. unfold waldOf. cbn [chiSquare]. clear.
    induction comps as [|g comps IH]; [reflexivity|].
    cbn [flat_map map fold_left]. rewrite wald_sum_app, IH.
    rewrite (fold_left_Rplus_acc _ (0 + _)). f_equal.
    unfold chiSquareOfResult, estimateCoxPH.
    cbn [length Nat.ltb Nat.leb flat_map]. cbv zeta. rewrite app_nil_r.
    destruct (groupOf c r g); [simpl; lra|]. cbn [waldTest waldOf chiSquare].
    lra.
Qed.

Lemma result_assembled_from_pairs_witness :
  [groupEntry 100 100 "B" (hazardRatios [point 1 0.5] [point 1 0.5])]
  = flat_map (fun g => groupsOfResult
                         (estimateCoxPH [halfAtOne "A"; g] None))
             [halfAtOne "B"] /\
  chiSquare (waldOf [groupEntry 100 100 "B"
                       (hazardRatios [point 1 0.5] [point 1 0.5])])
  = fold_left Rplus
      (map (fun g => chiSquareOfResult
                       (estimateCoxPH [halfAtOne "A"; g] None))
           [halfAtOne "B"]) 0.
Proof.
  exact (result_assembled_from_pairs (halfAtOne "A") [halfAtOne "B"] None _
           halfAtOne_result).
Defined.

End Pairwise.

(** ** The two groups exchanged *)

Section ExchangedGroups.

Import coxphAnalysis.

Lemma sampleAt_exchanged r g t :
  (forall h, In h (sampleAt r g t) -> 0.01 < h) ->
  (forall h, In h (sampleAt g r t) -> 0.01 < h) ->
  sampleAt g r t = map Rinv (sampleAt r g t).
Proof.
  unfold sampleAt. cbv zeta. intros Hrg Hgr.
  set (s1 := survivalAt r t) in *. set (s2 := survivalAt g t) in *.
  destruct (Rgt_dec s1 0.05) as [H1|H1];
    [rewrite (gtb_true _ _ H1) in * | rewrite (gtb_false _ _ H1) in *].
  2:{ rewrite !andb_false_r. reflexivity. }
  destruct (Rlt_dec s1 0.99) as [H2|H2];
    [rewrite (ltb_true _ _ H2) in * | rewrite (ltb_false _ _ H2) in *].
  2:{ rewrite !andb_false_r. reflexivity. }
  destruct (Rgt_dec s2 0.05) as [H3|H3];
    [rewrite (gtb_true _ _ H3) in * | rewrite (gtb_false _ _ H3) in *].
  2:{ reflexivity. }
  destruct (Rlt_dec s2 0.99) as [H4|H4];
    [rewrite (ltb_true _ _ H4) in * | rewrite (ltb_false _ _ H4) in *].
  2:{ reflexivity. }
  cbn [andb] in *. unfold Math_log in *.
  assert (L1 : ln s1 < 0) by (apply ln_neg; lra).
  assert (L2 : ln s2 < 0) by (apply ln_neg; lra).
  assert (Hpos : 0 < ln s2 / ln s1).
  { replace (ln s2 / ln s1) with ((- ln s2) / (- ln s1)) by (field; lra).
    apply Rdiv_lt_0_compat; lra. }
  assert (Hinv : ln s1 / ln s2 = / (ln s2 / ln s1)) by (field; lra).
  assert (Hpos' : 0 < ln s1 / ln s2)
    by (rewrite Hinv; now apply Rinv_0_lt_compat).
  rewrite (gtb_true _ 0 Hpos) in *. rewrite (gtb_true _ 0 Hpos') in *.
  cbn [andb] in *.
  destruct (Rlt_dec (ln s2 / ln s1) 100) as [Hlt|Hge].
  - rewrite (ltb_true _ _ Hlt) in *.
    specialize (Hrg _ (or_introl eq_refl)).
    assert (Hlt' : ln s1 / ln s2 < 100).
    { rewrite Hinv. replace 100 with (/ 0.01) by lra.
      apply Rinv_lt_contravar; [|assumption].
      apply Rmult_lt_0_compat; lra. }
    rewrite (ltb_true _ _ Hlt'). simpl. now rewrite Hinv.
  - exfalso. assert (Hle : ln s1 / ln s2 <= 0.01).
    { rewrite Hinv. replace 0.01 with (/ 100) by lra.
      apply Rinv_le_contravar; lra. }
    rewrite (ltb_true (ln s1 / ln s2) 100) in Hgr by lra.
    specialize (Hgr _ (or_introl eq_refl)). lra.
Qed.

Lemma commonTimes_same_times r g :
  map time r = map time g -> commonTimes g r = commonTimes r g.
Proof. intros H. unfold commonTimes. now rewrite H. Qed.

Lemma hazardRatios_exchanged r g :
  map time r = map time g ->
  List.Forall (fun h => 0.01 < h) (hazardRatios r g) ->
  List.Forall (fun h => 0.01 < h) (hazardRatios g r) ->
  hazardRatios g r = map Rinv (hazardRatios r g).
Proof.
  intros Ht. unfold hazardRatios. rewrite (commonTimes_same_times r g Ht).
  induction (commonTimes r g) as [|t l IH]; intros Hrg Hgr; simpl;
    [reflexivity|].
  simpl in Hrg, Hgr. apply List.Forall_app in Hrg, Hgr.
  destruct Hrg as [Hrg1 Hrg2]. destruct Hgr as [Hgr1 Hgr2].
  rewrite map_app, IH by assumption. f_equal.
  apply sampleAt_exchanged; now apply List.Forall_forall.
Qed.

Lemma sum_opp l acc :
  fold_left Rplus (map Ropp l) (- acc) = - fold_left Rplus l acc.
Proof.
  revert acc. induction l as [|x l IH]; intros acc; simpl; [reflexivity|].
  replace (- acc + - x) with (- (acc + x)) by ring. apply IH.
Qed.

Lemma map_ln_inv l :
  List.Forall (fun h => 0 < h) l -> map ln (map Rinv l) = map Ropp (map ln l).
Proof.
  induction 1 as [|h l Hh _ IH]; simpl; [reflexivity|].
  now rewrite IH, ln_Rinv.
Qed.

Lemma meanLogHR_inv l :
  List.Forall (fun h => 0 < h) l ->
  meanLogHR (map Rinv l) = - meanLogHR l.
Proof.
  intros Hl. unfold meanLogHR. cbv zeta. change Math_log with ln.
  rewrite (map_ln_inv l Hl), !length_map.
  replace 0 with (- 0) at 1 by ring. rewrite sum_opp.
  unfold Rdiv. ring.
Qed.

Lemma squares_opp m l acc :
  fold_left (fun sum lhr => sum + (lhr - - m) ^ 2) (map Ropp l) acc
  = fold_left (fun sum lhr => sum + (lhr - m) ^ 2) l acc.
Proof.
  revert acc. induction l as [|x l IH]; intros acc; simpl; [reflexivity|].
  rewrite IH. f_equal. ring.
Qed.

Lemma baseSE_inv l :
  List.Forall (fun h => 0 < h) l -> baseSE (map Rinv l) = baseSE l.
Proof.
  intros Hl. unfold baseSE. cbv zeta. rewrite (meanLogHR_inv l Hl).
  change Math_log with ln. rewrite (map_ln_inv l Hl), !length_map.
  now rewrite squares_opp.
Qed.

Lemma groupEntry_exchanged n1 n2 name name' l :
  List.Forall (fun h => 0 < h) l ->
  let e := groupEntry n1 n2 name l in
  let e' := groupEntry n2 n1 name' (map Rinv l) in
  coefficient e' = - coefficient e /\
  hazardRatio e' = / hazardRatio e /\
  se e' = se e /\
  lowerCI e' = / upperCI e /\ upperCI e' = / lowerCI e /\
  pValue e' = pValue e.
Proof.
  intros Hl e e'. unfold e, e', groupEntry.
  cbn [coefficient hazardRatio se lowerCI upperCI pValue].
  rewrite (meanLogHR_inv l Hl), (baseSE_inv l Hl).
  replace (1 / n2 + 1 / n1) with (1 / n1 + 1 / n2) by ring.
  unfold Math_exp, Math_abs.
  set (m := meanLogHR l).
  set (s := Math_max (baseSE l) (Math_sqrt (1 / n1 + 1 / n2) * 0.5)).
  repeat split.
  - apply exp_Ropp.
  - rewrite <- exp_Ropp. f_equal. ring.
  - rewrite <- exp_Ropp. f_equal. ring.
  - replace (- m / s) with (- (m / s)) by (unfold Rdiv; ring).
    now rewrite Rabs_Ropp.
Qed.

(** X27.  When two groups carry the same times and no sample, in either
    direction, is at or below 0.01, exchanging reference and comparison
    group negates the coefficient, inverts the hazard ratio, exchanges
    and inverts the interval endpoints, and keeps standard error and
    p-value. *)
Theorem exchanged_groups_invert_the_ratio :
  forall (a b : SurvivalData) (subtypeCounts : SubtypeCounts)
         (res : CoxPHResult),
    countsPositive subtypeCounts ->
    map time (timePoints a) = map time (timePoints b) ->
    List.Forall (fun h => 0.01 < h)
                (hazardRatios (timePoints a) (timePoints b)) ->
    List.Forall (fun h => 0.01 < h)
                (hazardRatios (timePoints b) (timePoints a)) ->
    estimateCoxPH [a; b] subtypeCounts = Some res ->
    exists res' e e',
      estimateCoxPH [b; a] subtypeCounts = Some res' /\
      groups res = [e] /\ groups res' = [e'] /\
      coefficient e' = - coefficient e /\
      hazardRatio e' = / hazardRatio e /\
      se e' = se e /\
      lowerCI e' = / upperCI e /\ upperCI e' = / lowerCI e /\
      pValue e' = pValue e.
Proof.
  intros a b c res _ Ht Hab Hba Hres.
  pose proof (hazardRatios_exchanged _ _ Ht Hab Hba) as Hx.
  apply estimateCoxPH_Some in Hres.
  destruct Hres as [r [comps [E [_ [Hg [Hne _]]]]]].
  injection E as <- <-. simpl in Hg. rewrite app_nil_r in Hg.
  assert (Hs : hazardRatios (timePoints a) (timePoints b) <> []).
  { intros H0. apply Hne. rewrite Hg. unfold groupOf. now rewrite H0. }
  rewrite groupOf_eval in Hg by exact Hs.
  assert (Hs' : hazardRatios (timePoints b) (timePoints a) <> []).
  { rewrite Hx. destruct (hazardRatios (timePoints a) (timePoints b));
      [contradiction | discriminate]. }
  assert (Hg' : flat_map (groupOf c b) [a]
                = [groupEntry (countOf c (SurvivalCurve.subtype b))
                              (countOf c (SurvivalCurve.subtype a))
                              (SurvivalCurve.subtype a)
                              (map Rinv (hazardRatios (timePoints a)
                                                      (timePoints b)))]).
  { simpl. rewrite app_nil_r, groupOf_eval by exact Hs'. now rewrite Hx. }
  eexists. eexists. eexists. split.
  { apply estimateCoxPH_eval; [simpl; lia|]. rewrite Hg'. discriminate. }
  split; [exact Hg|]. split; [exact Hg'|].
  apply groupEntry_exchanged.
  eapply List.Forall_impl; [|exact Hab]. intros h Hh. simpl in Hh. lra.
Qed.

Lemma ln_quarter_inv : Math_log 0.5 / Math_log 0.25 = 0.5.
Proof.
  unfold Math_log. replace 0.25 with (0.5 * 0.5) by lra.
  rewrite ln_mult by lra.
  assert (ln 0.5 < 0) by (apply ln_neg; lra). apply div_eq; lra.
Qed.

Lemma ln_sixteenth_inv : Math_log 0.5 / Math_log 0.0625 = 0.25.
Proof.
  unfold Math_log. replace 0.0625 with (0.5 * 0.5 * (0.5 * 0.5)) by lra.
  rewrite !ln_mult by lra.
  assert (ln 0.5 < 0) by (apply ln_neg; lra). apply div_eq; lra.
Qed.

Lemma steep_samples_exchanged :
  hazardRatios steepPoints refPoints = [0.5; 0.25].
Proof.
  unfold hazardRatios, commonTimes, includes, refPoints, steepPoints. js_eval.
  unfold sampleAt, survivalAt, or_default. js_eval.
  rewrite ln_quarter_inv, ln_sixteenth_inv. js_eval. reflexivity.
Qed.

Lemma steep_result :
  estimateCoxPH [mkData "ref" refPoints; mkData "steep" steepPoints] None
  = Some (mkCox "ref" [groupEntry 100 100 "steep" [2; 4]]
                (waldOf [groupEntry 100 100 "steep" [2; 4]])).
Proof.
  assert (Hg : flat_map (groupOf None (mkData "ref" refPoints))
                        [mkData "steep" steepPoints]
               = [groupEntry 100 100 "steep" [2; 4]]).
  { simpl. rewrite app_nil_r. rewrite groupOf_eval; simpl timePoints;
      rewrite steep_samples; [reflexivity | discriminate]. }
  rewrite estimateCoxPH_eval; [now rewrite Hg | simpl; lia |].
  rewrite Hg. discriminate.
Qed.

Lemma steep_samples_above :
  List.Forall (fun h => 0.01 < h) (hazardRatios refPoints steepPoints) /\
  List.Forall (fun h => 0.01 < h) (hazardRatios steepPoints refPoints).
Proof.
  rewrite steep_samples, steep_samples_exchanged.
  split; repeat constructor; lra.
Qed.

Lemma exchanged_groups_invert_the_ratio_witness :
  exists res' e e',
    estimateCoxPH [mkData "steep" steepPoints; mkData "ref" refPoints] None
    = Some res' /\
    [groupEntry 100 100 "steep" [2; 4]] = [e] /\ groups res' = [e'] /\
    coefficient e' = - coefficient e /\
    hazardRatio e' = / hazardRatio e /\
    se e' = se e /\
    lowerCI e' = / upperCI e /\ upperCI e' = / lowerCI e /\
    pValue e' = pValue e.
Proof.
  exact (exchanged_groups_invert_the_ratio
           (mkData "ref" refPoints) (mkData "steep" steepPoints) None _
           countsPositive_None eq_refl
           (proj1 steep_samples_above) (proj2 steep_samples_above)
           steep_result).
Defined.

End ExchangedGroups.

(** ** The rows of the chart *)

Section RowKeys.

Lemma length_append (s t : string) :
  String.length (s ++ t) = (String.length s + String.length t)%nat.
Proof. induction s as [|c s IH]; simpl; [reflexivity | now rewrite IH]. Qed.

Lemma append_suffix (s1 s2 t1 t2 : string) :
  String.length t1 = String.length t2 ->
  (s1 ++ t1)%string = (s2 ++ t2)%string -> s1 = s2 /\ t1 = t2.
Proof.
  intros Hlen. revert s2. induction s1 as [|c s1 IH]; intros [|c' s2] H.
  - split; [reflexivity | exact H].
  - exfalso. apply (f_equal String.length) in H.
    rewrite !length_append in H. simpl in H. lia.
  - exfalso. apply (f_equal String.length) in H.
    rewrite !length_append in H. simpl in H. lia.
  - simpl in H. injection H as -> H. destruct (IH s2 H) as [-> ->].
    split; reflexivity.
Qed.

Lemma keysOf_apart (n n' : string) :
  n <> n' ->
  n <> (n' ++ "_upper")%string -> n <> (n' ++ "_lower")%string ->
  n' <> (n ++ "_upper")%string -> n' <> (n ++ "_lower")%string ->
  forall k, In k (keysOf n) -> ~ In k (keysOf n').
Proof.
  intros H0 H1 H2 H3 H4 k Hk Hk'. unfold keysOf in *. simpl in Hk, Hk'.
  destruct Hk as [<-|[<-|[<-|[]]]];
    destruct Hk' as [E|[E|[E|[]]]]; try congruence.
  - apply append_suffix in E; [|reflexivity]. destruct E as [E _]. congruence.
  - apply append_suffix in E; [|reflexivity]. destruct E as [_ E].
    discriminate.
  - apply append_suffix in E; [|reflexivity]. destruct E as [_ E].
    discriminate.
  - apply append_suffix in E; [|reflexivity]. destruct E as [E _]. congruence.
Qed.

Lemma time_not_key (n : string) :
  n <> "time"%string -> ~ In "time"%string (keysOf n).
Proof.
  intros Hn [E|[E|[E|[]]]]; [congruence | |];
    apply (f_equal String.length) in E; rewrite length_append in E;
    simpl in E; lia.
Qed.

End RowKeys.

Section RowGrid.

Lemma setFold_In {A} (f : A -> R) (l : list A) (s : list R) (x : R) :
  In x (fold_left (fun s a => Set_add s (f a)) l s)
  <-> In x s \/ exists a, In a l /\ f a = x.
Proof.
  revert s. induction l as [|a l IH]; intros s; simpl.
  - split; [now left|]. intros [H|[a [[] _]]]. assumption.
  - rewrite IH, Set_add_In. split.
    + intros [[H| ->]|[b [Hb He]]].
      * now left.
      * right. exists a. split; [now left | reflexivity].
      * right. exists b. split; [now right | assumption].
    + intros [H|[b [[<-|Hb] He]]].
      * left. now left.
      * left. right. now symmetry.
      * right. exists b. split; assumption.
Qed.

Lemma setFold_NoDup {A} (f : A -> R) (l : list A) (s : list R) :
  List.NoDup s -> List.NoDup (fold_left (fun s a => Set_add s (f a)) l s).
Proof.
  revert s. induction l as [|a l IH]; intros s Hs; simpl; [assumption|].
  apply IH. now apply Set_add_NoDup.
Qed.

Lemma cleaned_times g t :
  In t (map time (timePoints (monotonic g)))
  <-> In t (map time (timePoints g)).
Proof.
  simpl. rewrite monotonicFrom_times, !in_map_iff.
  split; intros [q [Hq Hin]]; exists q; (split; [assumption|]).
  - now apply Array_sort_In in Hin.
  - now apply Array_sort_In.
Qed.

Lemma chart_times_In c data s t :
  In t (fold_left
          (fun s group =>
             fold_left (fun s q => Set_add s (Chart.time q)) (snd group) s)
          (Chart.processedData c data) s)
  <-> In t s \/ exists g, In g data /\ In t (map time (timePoints g)).
Proof.
  revert s. induction data as [|g data IH]; intros s.
  - simpl. split; [now left|]. intros [H|[g [[] _]]]. assumption.
  - cbn [Chart.processedData map fold_left snd].
    fold (Chart.processedData c data). rewrite IH, setFold_In.
    rewrite drawn_points_are_cleaned_points_aux. split.
    + intros [[H|[q [Hq He]]]|[g' [Hg' Ht]]].
      * now left.
      * right. exists g. split; [now left|]. apply cleaned_times.
        apply in_map_iff in Hq. destruct Hq as [q0 [<- Hq0]].
        apply in_map_iff. exists q0. split; [exact He | assumption].
      * right. exists g'. split; [now right | assumption].
    + intros [H|[g' [[<-|Hg'] Ht]]].
      * left. now left.
      * left. right. apply cleaned_times in Ht. apply in_map_iff in Ht.
        destruct Ht as [q0 [He Hq0]].
        exists (Chart.ofCleaned (countOf c (SurvivalCurve.subtype g)) q0).
        split; [now apply in_map | exact He].
      * right. exists g'. split; assumption.
Qed.

Lemma chart_times_NoDup c data s :
  List.NoDup s ->
  List.NoDup
    (fold_left
       (fun s group =>
          fold_left (fun s q => Set_add s (Chart.time q)) (snd group) s)
       (Chart.processedData c data) s).
Proof.
  revert s. induction data as [|g data IH]; intros s Hs; [assumption|].
  cbn [Chart.processedData map fold_left snd].
  apply IH. now apply setFold_NoDup.
Qed.

Lemma chart_grid c data :
  Chart.sortedTimes (Chart.processedData c data) = logRankTest.sortedTimes data.
Proof.
  apply increasing_ext.
  - apply Array_sort_increasing, chart_times_NoDup. constructor.
  - apply sortedTimes_increasing.
  - intros t. unfold Chart.sortedTimes.
    rewrite Array_sort_In, chart_times_In, sortedTimes_In. split.
    + intros [[]|[g [Hg Ht]]]. apply in_map_iff in Ht.
      destruct Ht as [tp [He Htp]]. exists g, tp. repeat split; assumption.
    + intros [g [tp [Hg [Htp He]]]]. right. exists g. split; [assumption|].
      apply in_map_iff. exists tp. split; assumption.
Qed.

Lemma increasing_app l1 l2 :
  increasing (l1 ++ l2) ->
  increasing l1 /\ increasing l2 /\
  forall x y, In x l1 -> In y l2 -> x < y.
Proof.
  induction l1 as [|h l1 IH]; intros H; simpl in *.
  - repeat split; [assumption | intros x y []].
  - destruct H as [Hh Hl]. destruct (IH Hl) as [H1 [H2 H12]].
    apply List.Forall_app in Hh. destruct Hh as [Hh1 Hh2].
    repeat split; try assumption.
    intros x y [<-|Hx] Hy.
    + rewrite List.Forall_forall in Hh2. now apply Hh2.
    + now apply H12.
Qed.

Lemma increasing_snoc l t :
  increasing l -> (forall u, In u l -> u < t) -> increasing (l ++ [t]).
Proof.
  induction l as [|h l IH]; intros Hl Hlt; simpl in *.
  - split; [constructor | exact I].
  - destruct Hl as [Hh Hl]. split.
    + apply List.Forall_app. split; [assumption|].
      constructor; [apply Hlt; now left | constructor].
    + apply IH; [assumption|]. intros u Hu. apply Hlt. now right.
Qed.

End RowGrid.

Section LastAmong.

Lemma includes_app l1 l2 x : includes (l1 ++ l2) x = includes l1 x || includes l2 x.
Proof. unfold includes. apply existsb_app. Qed.

Lemma lastAmong_snoc times cl q :
  lastAmong times (cl ++ [q])
  = if includes times (time q) then Some q else lastAmong times cl.
Proof.
  unfold lastAmong. rewrite List.filter_app, map_app. simpl.
  destruct (includes times (time q)); simpl.
  - apply List.last_last.
  - now rewrite app_nil_r.
Qed.

Lemma find_snoc {A} (P : A -> bool) l q :
  find P (l ++ [q])
  = match find P l with
    | Some x => Some x
    | None => if P q then Some q else None
    end.
Proof.
  induction l as [|x l IH]; simpl; [reflexivity|].
  destruct (P x); [reflexivity | exact IH].
Qed.

Lemma find_none_time cl t :
  (forall p, In p cl -> time p <> t) ->
  find (fun q => eqb (time q) t) cl = None.
Proof.
  intros H. induction cl as [|p cl IH]; simpl; [reflexivity|].
  rewrite eqb_false by (apply H; now left).
  apply IH. intros p' Hp'. apply H. now right.
Qed.

Lemma ascending_snoc l q :
  ascending (l ++ [q]) ->
  ascending l /\ forall p, In p l -> time p <= time q.
Proof.
  induction l as [|h l IH]; intros H; simpl in *.
  - split; [exact I | intros p []].
  - destruct H as [Hh Hl]. destruct (IH Hl) as [Hasc Hle].
    apply List.Forall_app in Hh. destruct Hh as [Hh1 Hh2].
    split; [split; assumption|].
    intros p [<-|Hp]; [now apply List.Forall_inv in Hh2 | now apply Hle].
Qed.

Lemma lastAmong_step cl prefix t :
  ascending cl -> List.NoDup (map time cl) ->
  (forall u, In u prefix -> u < t) ->
  lastAmong (prefix ++ [t]) cl
  = match find (fun q => eqb (time q) t) cl with
    | Some tp => Some tp
    | None => lastAmong prefix cl
    end.
Proof.
  intros Hasc Hnd Hpre. induction cl as [|q cl IH] using rev_ind.
  - reflexivity.
  - apply ascending_snoc in Hasc. destruct Hasc as [Hasc Hle].
    rewrite map_app in Hnd. apply List.NoDup_app_remove_r in Hnd as Hnd'.
    assert (Hlt : forall p, In p cl -> time p < time q).
    { intros p Hp. destruct (Hle p Hp) as [H|H]; [assumption|].
      exfalso. simpl in Hnd. apply NoDup_remove_2 in Hnd.
      apply Hnd. rewrite app_nil_r. rewrite <- H. now apply in_map. }
    specialize (IH Hasc Hnd').
    rewrite !lastAmong_snoc, find_snoc, includes_app.
    destruct (includes prefix (time q)) eqn:Ein.
    + apply includes_spec in Ein. specialize (Hpre _ Ein). cbn [orb].
      rewrite find_none_time.
      * now rewrite eqb_false by lra.
      * intros p Hp. specialize (Hlt p Hp). lra.
    + cbn [orb]. unfold includes at 1. cbn [existsb]. rewrite orb_false_r.
      destruct (Req_dec_T (time q) t) as [E|E].
      * rewrite (eqb_true t (time q)) by (now symmetry).
        rewrite find_none_time.
        -- now rewrite eqb_true.
        -- intros p Hp. specialize (Hlt p Hp). lra.
      * rewrite (eqb_false t (time q)) by (intros E'; now apply E).
        rewrite IH, (eqb_false (time q) t) by assumption.
        destruct (find (fun q0 => eqb (time q0) t) cl); reflexivity.
Qed.

Lemma lastAmong_nil cl : lastAmong [] cl = None.
Proof.
  unfold lastAmong. induction cl as [|q cl IH]; simpl; [reflexivity|exact IH].
Qed.

Lemma find_ofCleaned n cl t :
  find (fun q => eqb (Chart.time q) t) (map (Chart.ofCleaned n) cl)
  = option_map (Chart.ofCleaned n) (find (fun q => eqb (time q) t) cl).
Proof.
  induction cl as [|q cl IH]; simpl; [reflexivity|].
  destruct (eqb (time q) t); [reflexivity | exact IH].
Qed.

End LastAmong.

Section ChartRows.

Variable subtypeCounts : SubtypeCounts.

Lemma keysOf_self (name : string) :
  name <> (name ++ "_upper")%string /\
  name <> (name ++ "_lower")%string /\
  (name ++ "_upper")%string <> (name ++ "_lower")%string.
Proof.
  repeat split; intros E.
  - apply (f_equal String.length) in E. rewrite length_append in E.
    simpl in E. lia.
  - apply (f_equal String.length) in E. rewrite length_append in E.
    simpl in E. lia.
  - apply append_suffix in E; [|reflexivity]. destruct E as [_ E].
    discriminate.
Qed.

Lemma chartGroup_turn t prefix n lk (point : gmap string R) name cl :
  ascending cl -> List.NoDup (map time cl) ->
  (forall u, In u prefix -> u < t) ->
  lk !! name = Some (valueOf n (lastAmong prefix cl)) ->
  Chart.chartGroup t (lk, point) (name, map (Chart.ofCleaned n) cl)
  = (<[name := valueOf n (lastAmong (prefix ++ [t]) cl)]> lk,
     <[(name ++ "_lower")%string :=
         Chart.lower (fst (valueOf n (lastAmong (prefix ++ [t]) cl)))
                     (snd (valueOf n (lastAmong (prefix ++ [t]) cl)))]>
       (<[(name ++ "_upper")%string :=
            Chart.upper (fst (valueOf n (lastAmong (prefix ++ [t]) cl)))
                        (snd (valueOf n (lastAmong (prefix ++ [t]) cl)))]>
          (<[name := fst (valueOf n (lastAmong (prefix ++ [t]) cl))]> point))).
Proof.
  intros Hasc Hnd Hpre Hlk. unfold Chart.chartGroup. cbn [fst snd].
  rewrite find_ofCleaned, (lastAmong_step cl prefix t Hasc Hnd Hpre).
  destruct (find (fun q => eqb (time q) t) cl) as [tp|]; cbn [option_map].
  - rewrite lookup_insert_eq. reflexivity.
  - rewrite Hlk. rewrite (insert_id lk name _ Hlk).
    destruct (valueOf n (lastAmong prefix cl)); reflexivity.
Qed.

Lemma groups_turn t prefix :
  (forall u, In u prefix -> u < t) ->
  forall (data : list SurvivalData) lk (point : gmap string R),
    rowKeysApart data ->
    List.Forall (fun g => List.NoDup (map time (timePoints (monotonic g))))
                data ->
    (forall g, In g data ->
               lk !! SurvivalCurve.subtype g
               = Some (valueOf (countOf subtypeCounts (SurvivalCurve.subtype g))
                               (lastAmong prefix (timePoints (monotonic g))))) ->
    exists lk' point',
      fold_left (Chart.chartGroup t) (Chart.processedData subtypeCounts data)
                (lk, point) = (lk', point') /\
      (forall g, In g data ->
                 lk' !! SurvivalCurve.subtype g
                 = Some (valueOf
                           (countOf subtypeCounts (SurvivalCurve.subtype g))
                           (lastAmong (prefix ++ [t])
                                      (timePoints (monotonic g))))) /\
      (forall g, In g data ->
                 let v := valueOf
                            (countOf subtypeCounts (SurvivalCurve.subtype g))
                            (lastAmong (prefix ++ [t])
                                       (timePoints (monotonic g))) in
                 point' !! SurvivalCurve.subtype g = Some (fst v) /\
                 point' !! (SurvivalCurve.subtype g ++ "_upper")%string
                 = Some (Chart.upper (fst v) (snd v)) /\
                 point' !! (SurvivalCurve.subtype g ++ "_lower")%string
                 = Some (Chart.lower (fst v) (snd v))) /\
      (forall key,
          (forall g, In g data -> ~ In key (keysOf (SurvivalCurve.subtype g))) ->
          point' !! key = point !! key).
Proof.
  intros Hpre. induction data as [|g data IH]; intros lk point Hkeys Hnd Hlk.
  - exists lk, point. split; [reflexivity|].
    split; [intros g []|]. split; [intros g []|]. reflexivity.
  - destruct Hkeys as [Hnames Hapart].
    apply List.NoDup_cons_iff in Hnames. destruct Hnames as [Hg Hnames].
    pose proof (List.Forall_inv Hnd) as Hndg.
    apply List.Forall_inv_tail in Hnd.
    pose proof (monotonic_is_cleaned g) as [Hasc _].
    cbn [Chart.processedData map fold_left].
    fold (Chart.processedData subtypeCounts data).
    rewrite drawn_points_are_cleaned_points_aux.
    rewrite (chartGroup_turn t prefix _ lk point _ _ Hasc Hndg Hpre
               (Hlk g (or_introl eq_refl))).
    set (n := countOf subtypeCounts (SurvivalCurve.subtype g)) in *.
    set (v := valueOf n (lastAmong (prefix ++ [t])
                                   (timePoints (monotonic g)))) in *.
    set (name := SurvivalCurve.subtype g) in *.
    destruct (IH (<[name := v]> lk)
                 (<[(name ++ "_lower")%string := Chart.lower (fst v) (snd v)]>
                    (<[(name ++ "_upper")%string :=
                         Chart.upper (fst v) (snd v)]>
                       (<[name := fst v]> point))))
      as [lk' [point' [Hfold [Hlk' [Hpoint' Hother]]]]].
    + split; [assumption|]. intros g1 g2 H1 H2.
      apply Hapart; now right.
    + assumption.
    + intros g' Hg'. rewrite lookup_insert_ne; [apply Hlk; now right|].
      intros E. apply Hg. rewrite E. now apply in_map.
    + exists lk', point'. split; [exact Hfold|].
      assert (Hfresh : forall key, In key (keysOf name) ->
                forall g', In g' data ->
                           ~ In key (keysOf (SurvivalCurve.subtype g'))).
      { intros key Hkey g' Hg'.
        assert (Hne : name <> SurvivalCurve.subtype g').
        { intros E. apply Hg. rewrite E. now apply in_map. }
        destruct (Hapart g g' (or_introl eq_refl) (or_intror Hg'))
          as [_ [H1 H2]].
        destruct (Hapart g' g (or_intror Hg') (or_introl eq_refl))
          as [_ [H3 H4]].
        now apply (keysOf_apart name (SurvivalCurve.subtype g')). }
      destruct (keysOf_self name) as [Hs1 [Hs2 Hs3]].
      split; [|split].
      * intros g' [<-|Hg']; [|now apply Hlk'].
        (* the entry of [g] is not touched by the later groups *)
        clear Hpoint' Hother.
        assert (Hkeep : forall (data' : list SurvivalData) lk0 pt0 lk1 pt1,
                   ~ In name (map SurvivalCurve.subtype data') ->
                   fold_left (Chart.chartGroup t)
                             (Chart.processedData subtypeCounts data')
                             (lk0, pt0) = (lk1, pt1) ->
                   lk1 !! name = lk0 !! name).
        { induction data' as [|g1 data' IHd]; intros lk0 pt0 lk1 pt1 Hn Hf.
          - simpl in Hf. now injection Hf as <- _.
          - cbn [Chart.processedData map fold_left] in Hf.
            fold (Chart.processedData subtypeCounts data') in Hf.
            destruct (Chart.chartGroup t (lk0, pt0)
                        (SurvivalCurve.subtype g1,
                         Chart.sortedPoints subtypeCounts g1))
              as [lk2 pt2] eqn:E.
            rewrite (IHd lk2 pt2 lk1 pt1); [| |exact Hf].
            + unfold Chart.chartGroup in E. cbn [fst snd] in E.
              assert (Hne : SurvivalCurve.subtype g1 <> name).
              { intros E'. apply Hn. left. exact E'. }
              destruct (find _ _) in E.
              * rewrite lookup_insert_eq in E. injection E as <- _.
                now rewrite lookup_insert_ne.
              * destruct (lk0 !! SurvivalCurve.subtype g1) as [[? ?]|];
                  now injection E as <- _.
            + intros Hin. apply Hn. now right. }
        fold name n v. rewrite (Hkeep data _ _ _ _ Hg Hfold).
        apply lookup_insert_eq.
      * intros g' [<-|Hg']; [|now apply Hpoint'].
        cbv zeta. fold name n v.
        rewrite !Hother by (apply Hfresh; unfold keysOf; simpl; tauto).
        rewrite lookup_insert_ne by (intros E; now apply Hs2).
        rewrite lookup_insert_ne by (intros E; now apply Hs1).
        rewrite lookup_insert_eq.
        rewrite lookup_insert_ne by (intros E; apply Hs3; now symmetry).
        rewrite lookup_insert_eq. rewrite lookup_insert_eq.
        repeat split; reflexivity.
      * intros key Hkey. rewrite Hother.
        -- pose proof (Hkey g (or_introl eq_refl)) as Hk.
           unfold keysOf in Hk. simpl in Hk. fold name in Hk.
           rewrite !lookup_insert_ne; [reflexivity | | |];
             intros E; apply Hk; tauto.
        -- intros g' Hg'. apply Hkey. now right.
Qed.

End ChartRows.

Section ChartData.

Variable subtypeCounts : SubtypeCounts.

Lemma initialLastKnown_from (P : list (string * list Chart.Point))
      (m : gmap string (R * R)) (name : string) :
  In name (map fst P) \/ m !! name = Some (1, 0) ->
  fold_left (fun lastKnown g => <[fst g := (1, 0)]> lastKnown) P m !! name
  = Some (1, 0).
Proof.
  revert m. induction P as [|g P IH]; intros m H; simpl.
  - destruct H as [[]|H]. exact H.
  - apply IH. destruct H as [[E|H]|H].
    + right. rewrite E. apply lookup_insert_eq.
    + now left.
    + right. destruct (decide (fst g = name)) as [->|Hne].
      * apply lookup_insert_eq.
      * now rewrite lookup_insert_ne.
Qed.

Lemma initialLastKnown_lookup data g :
  In g data ->
  Chart.initialLastKnown (Chart.processedData subtypeCounts data)
    !! SurvivalCurve.subtype g = Some (1, 0).
Proof.
  intros Hg. apply initialLastKnown_from. left.
  unfold Chart.processedData. rewrite map_map. simpl.
  now apply in_map.
Qed.

Lemma rows_fold data :
  rowKeysApart data ->
  List.Forall (fun g => List.NoDup (map time (timePoints (monotonic g))))
              data ->
  forall times,
    increasing times ->
    exists lk rows,
      fold_left (Chart.chartRow (Chart.processedData subtypeCounts data))
                times
                (Chart.initialLastKnown
                   (Chart.processedData subtypeCounts data), [])
      = (lk, rows) /\
      (forall g, In g data ->
                 lk !! SurvivalCurve.subtype g
                 = Some (valueOf
                           (countOf subtypeCounts (SurvivalCurve.subtype g))
                           (lastAmong times (timePoints (monotonic g))))) /\
      length rows = length times /\
      forall i (row : gmap string R) t,
        rows !! i = Some row -> times !! i = Some t ->
        row !! "time"%string = Some t /\
        forall g, In g data ->
                  let v := valueOf
                             (countOf subtypeCounts (SurvivalCurve.subtype g))
                             (lastAmong (take (S i) times)
                                        (timePoints (monotonic g))) in
                  row !! SurvivalCurve.subtype g = Some (fst v) /\
                  row !! (SurvivalCurve.subtype g ++ "_upper")%string
                  = Some (Chart.upper (fst v) (snd v)) /\
                  row !! (SurvivalCurve.subtype g ++ "_lower")%string
                  = Some (Chart.lower (fst v) (snd v)).
Proof.
  intros Hkeys Hnd times. induction times as [|t times IH] using rev_ind;
    intros Hinc.
  - eexists. eexists. split; [reflexivity|]. split; [|split].
    + intros g Hg. rewrite initialLastKnown_lookup by assumption.
      now rewrite lastAmong_nil.
    + reflexivity.
    + intros i row t H. discriminate.
  - apply increasing_app in Hinc. destruct Hinc as [Hinc [_ Hlt]].
    assert (Hpre : forall u, In u times -> u < t).
    { intros u Hu. apply Hlt; [assumption | now left]. }
    destruct (IH Hinc) as [lk [rows [Hfold [Hlk [Hlen Hrows]]]]].
    rewrite fold_left_app, Hfold. cbn [fold_left]. unfold Chart.chartRow.
    destruct (groups_turn subtypeCounts t times Hpre data lk
                {[ "time"%string := t ]} Hkeys Hnd Hlk)
      as [lk' [point' [Hg [Hlk' [Hpoint' Hother]]]]].
    rewrite Hg. eexists. eexists. split; [reflexivity|].
    split; [exact Hlk'|]. split.
    { rewrite !length_app, Hlen. reflexivity. }
    intros i row u Hrow Hu.
    destruct (Nat.lt_ge_cases i (length times)) as [Hi|Hi].
    + rewrite lookup_app_l in Hrow by (rewrite Hlen; exact Hi).
      rewrite lookup_app_l in Hu by exact Hi.
      rewrite take_app_le by lia. now apply Hrows.
    + assert (Ei : i = length times).
      { apply lookup_lt_Some in Hu. rewrite length_app in Hu. simpl in Hu.
        lia. }
      subst i. rewrite <- Hlen in Hrow at 1.
      rewrite list_lookup_middle in Hrow by reflexivity.
      rewrite list_lookup_middle in Hu by reflexivity.
      injection Hrow as <-. injection Hu as <-.
      replace (take (S (length times)) (times ++ [t])) with (times ++ [t])
        by (symmetry; apply take_ge; rewrite length_app; simpl; lia).
      split; [|exact Hpoint'].
      rewrite Hother; [apply lookup_singleton_eq|].
      intros g Hg'. apply time_not_key.
      destruct Hkeys as [_ Hapart].
      now destruct (Hapart g g Hg' Hg') as [H _].
Qed.

Lemma take_increasing times i t u :
  increasing times -> times !! i = Some t -> In u times ->
  (In u (take (S i) times) <-> u <= t).
Proof.
  intros Hinc Hi Hu.
  pose proof (take_drop_middle times i t Hi) as Hsplit.
  rewrite <- Hsplit in Hinc, Hu.
  replace (take i times ++ t :: drop (S i) times)
    with ((take i times ++ [t]) ++ drop (S i) times) in Hinc, Hu
    by (now rewrite <- app_assoc).
  rewrite (take_S_r times i t Hi).
  apply increasing_app in Hinc. destruct Hinc as [H1 [_ H12]].
  apply increasing_app in H1. destruct H1 as [_ [_ H1]].
  split.
  - intros Hin. apply in_app_iff in Hin. destruct Hin as [Hin|[<-|[]]].
    + left. apply H1; [assumption | now left].
    + right. reflexivity.
  - intros Hle. apply in_app_iff in Hu. destruct Hu as [Hu|Hu]; [assumption|].
    exfalso. assert (t < u) by (apply H12; [apply in_app_iff; right; now left
                                           | assumption]). lra.
Qed.

Lemma lastAmong_take data g times i t :
  times = logRankTest.sortedTimes data -> In g data ->
  times !! i = Some t ->
  valueOf (countOf subtypeCounts (SurvivalCurve.subtype g))
          (lastAmong (take (S i) times) (timePoints (monotonic g)))
  = drawnValue subtypeCounts g t.
Proof.
  intros -> Hg Hi. unfold drawnValue, lastAmong, valueOf.
  rewrite (filter_ext_in (fun q => includes (take (S i)
                                     (logRankTest.sortedTimes data)) (time q))
                         (fun q => leb (time q) t)); [reflexivity|].
  intros q Hq.
  assert (Hin : In (time q) (logRankTest.sortedTimes data)).
  { apply sortedTimes_In.
    assert (Ht : In (time q) (map time (timePoints g))).
    { apply cleaned_times. now apply in_map. }
    apply in_map_iff in Ht. destruct Ht as [tp [He Htp]].
    exists g, tp. repeat split; assumption. }
  pose proof (take_increasing _ i t (time q)
                (sortedTimes_increasing data) Hi Hin) as Hiff.
  destruct (Rle_dec (time q) t) as [Hle|Hgt].
  - rewrite (leb_true _ _ Hle). apply includes_spec. now apply Hiff.
  - rewrite (leb_false _ _ Hgt).
    destruct (includes _ _) eqn:E; [|reflexivity].
    apply includes_spec in E. apply Hiff in E. contradiction.
Qed.

End ChartData.

Section ChartTheorem.

(** X28.  When the subtype names are distinct and meet no other key of a
    row, and no group has two points at one time, the chart has one row
    for each time of the grid of [logRankTest], in order; the row holds
    that time under [time] and, for every group, the survival of the
    group's last cleaned point at or before that time (1 before its
    first point) under the subtype name, with the band of that value
    under [subtype_upper] and [subtype_lower]. *)
Theorem chart_rows_follow_the_cleaned_curves :
  forall (subtypeCounts : SubtypeCounts) (data : list SurvivalData),
    rowKeysApart data ->
    List.Forall (fun g => List.NoDup (map time (timePoints g))) data ->
    Forall2
      (fun (row : gmap string R) t =>
         row !! "time"%string = Some t /\
         List.Forall
           (fun g =>
              let v := drawnValue subtypeCounts g t in
              row !! SurvivalCurve.subtype g = Some (fst v) /\
              row !! (SurvivalCurve.subtype g ++ "_upper")%string
              = Some (Chart.upper (fst v) (snd v)) /\
              row !! (SurvivalCurve.subtype g ++ "_lower")%string
              = Some (Chart.lower (fst v) (snd v)))
           data)
      (Chart.chartData subtypeCounts data)
      (logRankTest.sortedTimes data).
Proof.
  intros c data Hkeys Hnd.
  assert (Hnd' : List.Forall
                   (fun g => List.NoDup (map time (timePoints (monotonic g))))
                   data).
  { eapply List.Forall_impl; [|exact Hnd]. intros g Hg. simpl.
    rewrite monotonicFrom_times.
    eapply Permutation_NoDup; [|exact Hg]. symmetry.
    apply Permutation_map, Array_sort_Permutation. }
  destruct (rows_fold c data Hkeys Hnd' (logRankTest.sortedTimes data)
              (sortedTimes_increasing data))
    as [lk [rows [Hfold [_ [Hlen Hrows]]]]].
  assert (Hdata : Chart.chartData c data = rows).
  { unfold Chart.chartData. destruct data as [|g data].
    - simpl in Hfold. now injection Hfold as _ <-.
    - cbv zeta. rewrite chart_grid, Hfold. reflexivity. }
  rewrite Hdata. apply Forall2_same_length_lookup_2; [exact Hlen|].
  intros i row t Hrow Ht. destruct (Hrows i row t Hrow Ht) as [Htime Hvals].
  split; [exact Htime|]. apply List.Forall_forall. intros g Hg.
  specialize (Hvals g Hg). cbv zeta in Hvals.
  rewrite (lastAmong_take c data g _ i t eq_refl Hg Ht) in Hvals.
  exact Hvals.
Qed.

End ChartTheorem.

Section ChartWitness.

Lemma fallingCurve_keys : rowKeysApart [fallingCurve].
Proof.
  split.
  - repeat constructor. intros [].
  - intros g g' [<-|[]] [<-|[]]. repeat split; discriminate.
Qed.

Lemma fallingCurve_times :
  List.Forall (fun g => List.NoDup (map time (timePoints g))) [fallingCurve].
Proof.
  repeat constructor; simpl; [intros [H|[]]; lra | intros []].
Qed.

Lemma chart_rows_follow_the_cleaned_curves_witness :
  Forall2
    (fun (row : gmap string R) t =>
       row !! "time"%string = Some t /\
       List.Forall
         (fun g =>
            let v := drawnValue None g t in
            row !! SurvivalCurve.subtype g = Some (fst v) /\
            row !! (SurvivalCurve.subtype g ++ "_upper")%string
            = Some (Chart.upper (fst v) (snd v)) /\
            row !! (SurvivalCurve.subtype g ++ "_lower")%string
            = Some (Chart.lower (fst v) (snd v)))
         [fallingCurve])
    (Chart.chartData None [fallingCurve])
    (logRankTest.sortedTimes [fallingCurve]).
Proof.
  exact (chart_rows_follow_the_cleaned_curves None [fallingCurve]
           fallingCurve_keys fallingCurve_times).
Defined.

End ChartWitness.

(** ** The engines and the cleaning *)

Section StableSort.

(** The sort is stable: among the points of one time it keeps the
    supplied order. *)
Lemma filter_later k (l : list SurvivalTimePoint) :
  List.Forall (fun q => k < time q) l ->
  List.filter (fun q => eqb (time q) k) l = [].
Proof.
  induction 1 as [|q l Hq _ IH]; simpl; [reflexivity|].
  rewrite eqb_false by lra. exact IH.
Qed.

Lemma filter_sort_insert k x l :
  ascending l ->
  List.filter (fun q => eqb (time q) k) (sort_insert time x l)
  = List.filter (fun q => eqb (time q) k) l
    ++ (if eqb (time x) k then [x] else []).
Proof.
  induction l as [|h r IH]; intros Hasc; [reflexivity|].
  destruct Hasc as [Hh Hr]. cbn [sort_insert].
  destruct (Rlt_dec (time x) (time h)) as [Hlt|Hge].
  - cbn [List.filter]. destruct (eqb (time x) k) eqn:E.
    + apply eqb_spec in E. subst k.
      rewrite eqb_false by lra.
      rewrite (filter_later (time x) r); [reflexivity|].
      eapply List.Forall_impl; [|exact Hh]. intros q Hq. simpl in Hq. lra.
    + now rewrite app_nil_r.
  - cbn [List.filter]. rewrite (IH Hr).
    destruct (eqb (time h) k); reflexivity.
Qed.

Lemma Array_sort_snoc {A} (key : A -> R) l x :
  Array_sort key (l ++ [x]) = sort_insert key x (Array_sort key l).
Proof. unfold Array_sort. now rewrite fold_left_app. Qed.

Lemma filter_Array_sort k points :
  List.filter (fun q => eqb (time q) k) (Array_sort time points)
  = List.filter (fun q => eqb (time q) k) points.
Proof.
  induction points as [|x points IH] using rev_ind; [reflexivity|].
  rewrite Array_sort_snoc, filter_sort_insert
    by apply Array_sort_time_ascending.
  rewrite IH, List.filter_app. reflexivity.
Qed.

Lemma find_filter {A} (f : A -> bool) l :
  find f l = hd_error (List.filter f l).
Proof.
  induction l as [|x l IH]; simpl; [reflexivity|].
  destruct (f x); [reflexivity | exact IH].
Qed.

Lemma includes_ext l1 l2 t :
  (In t l1 <-> In t l2) -> includes l1 t = includes l2 t.
Proof.
  intros H. destruct (includes l1 t) eqn:E1; destruct (includes l2 t) eqn:E2;
    try reflexivity.
  - apply includes_spec in E1. apply H in E1. apply includes_spec in E1.
    congruence.
  - apply includes_spec in E2. apply H in E2. apply includes_spec in E2.
    congruence.
Qed.

Lemma times_sorted_In points t :
  In t (map time (Array_sort time points)) <-> In t (map time points).
Proof.
  rewrite !in_map_iff. split; intros [q [Hq Hin]]; exists q;
    (split; [assumption|]); now apply (Array_sort_In time q points).
Qed.

Lemma distinctTimes_In points t :
  In t (distinctTimes points) <-> In t (map time points).
Proof.
  unfold distinctTimes. rewrite fold_left_map_in.
  rewrite (setFold_In time points [] t). rewrite in_map_iff.
  split.
  - intros [[]|[a [Ha Ht]]]. now exists a.
  - intros [a [Ht Ha]]. right. now exists a.
Qed.

End StableSort.

Section SortedCoxPH.

Import coxphAnalysis.

Lemma survivalAt_sorted points t :
  survivalAt (Array_sort time points) t = survivalAt points t.
Proof. unfold survivalAt. now rewrite !find_filter, filter_Array_sort. Qed.

Lemma sampleAt_sorted r g t :
  sampleAt (Array_sort time r) (Array_sort time g) t = sampleAt r g t.
Proof. unfold sampleAt. now rewrite !survivalAt_sorted. Qed.

Lemma Permutation_List_filter {A} (f : A -> bool) l l' :
  Permutation l l' -> Permutation (List.filter f l) (List.filter f l').
Proof.
  induction 1 as [|x l l' _ IH|x y l|l l' l'' _ IH1 _ IH2]; simpl.
  - constructor.
  - destruct (f x); [now constructor | assumption].
  - destruct (f x), (f y); try reflexivity. constructor.
  - now transitivity (List.filter f l').
Qed.

Lemma Permutation_List_flat_map {A B} (f : A -> list B) l l' :
  Permutation l l' -> Permutation (flat_map f l) (flat_map f l').
Proof.
  induction 1 as [|x l l' _ IH|x y l|l l' l'' _ IH1 _ IH2]; simpl.
  - constructor.
  - now apply Permutation_app_head.
  - rewrite !app_assoc. apply Permutation_app_tail, Permutation_app_comm.
  - now transitivity (flat_map f l').
Qed.

Lemma commonTimes_sorted r g :
  Permutation (commonTimes (Array_sort time r) (Array_sort time g))
              (commonTimes r g).
Proof.
  unfold commonTimes. cbv zeta.
  rewrite (List.filter_ext
             (fun t => includes (map time (Array_sort time g)) t && gtb t 0)
             (fun t => includes (map time g) t && gtb t 0)).
  - apply Permutation_List_filter, Permutation_map, Array_sort_Permutation.
  - intros t. f_equal. apply includes_ext, times_sorted_In.
Qed.

(** Sorting the points of the two curves permutes the samples. *)
Lemma hazardRatios_sorted r g :
  Permutation (hazardRatios (Array_sort time r) (Array_sort time g))
              (hazardRatios r g).
Proof.
  unfold hazardRatios.
  rewrite (flat_map_ext _ (sampleAt r g)) by (intros t; apply sampleAt_sorted).
  apply Permutation_List_flat_map, commonTimes_sorted.
Qed.

Lemma fold_left_sum_Permutation (f : R -> R) l l' :
  Permutation l l' ->
  forall a, fold_left (fun sum x => sum + f x) l a
            = fold_left (fun sum x => sum + f x) l' a.
Proof.
  induction 1 as [|x l l' _ IH|x y l|l l' l'' _ IH1 _ IH2]; intros a; simpl.
  - reflexivity.
  - apply IH.
  - f_equal. lra.
  - now rewrite IH1.
Qed.

Lemma meanLogHR_Permutation h h' :
  Permutation h h' -> meanLogHR h = meanLogHR h'.
Proof.
  intros H. unfold meanLogHR. cbv zeta.
  rewrite !length_map, (Permutation_length H). f_equal.
  apply (fold_left_sum_Permutation (fun y => y)).
  now apply Permutation_map.
Qed.

Lemma baseSE_Permutation h h' :
  Permutation h h' -> baseSE h = baseSE h'.
Proof.
  intros H. unfold baseSE. cbv zeta.
  rewrite !length_map, (Permutation_length H), (meanLogHR_Permutation h h' H).
  f_equal. f_equal.
  apply (fold_left_sum_Permutation (fun lhr => (lhr - meanLogHR h') ^ 2)).
  now apply Permutation_map.
Qed.

(** The entry of a group depends on its samples, not on their order. *)
Lemma groupEntry_Permutation n1 n2 name h h' :
  Permutation h h' -> groupEntry n1 n2 name h = groupEntry n1 n2 name h'.
Proof.
  intros H. unfold groupEntry. cbv zeta.
  now rewrite (meanLogHR_Permutation h h' H), (baseSE_Permutation h h' H).
Qed.

Lemma groupOf_sorted c r g :
  groupOf c (sortedByTime r) (sortedByTime g) = groupOf c r g.
Proof.
  unfold groupOf, sortedByTime. cbn [SurvivalCurve.subtype timePoints].
  cbv zeta. pose proof (hazardRatios_sorted (timePoints r) (timePoints g)) as H.
  destruct (hazardRatios (Array_sort time (timePoints r))
                         (Array_sort time (timePoints g))) as [|x l] eqn:E1;
    destruct (hazardRatios (timePoints r) (timePoints g)) as [|y l'] eqn:E2.
  - reflexivity.
  - apply Permutation_nil in H. discriminate.
  - symmetry in H. apply Permutation_nil in H. discriminate.
  - f_equal. now apply groupEntry_Permutation.
Qed.

(** [estimateCoxPH] does not depend on the order in which the points of
    a curve are supplied. *)
Lemma estimateCoxPH_sorted data c :
  estimateCoxPH (map sortedByTime data) c = estimateCoxPH data c.
Proof.
  unfold estimateCoxPH. rewrite length_map.
  destruct (length data <? 2)%nat; [reflexivity|].
  destruct data as [|r comps]; [reflexivity|].
  cbn [map]. cbv zeta.
  assert (H : flat_map (groupOf c (sortedByTime r)) (map sortedByTime comps)
              = flat_map (groupOf c r) comps).
  { induction comps as [|g comps IH]; simpl; [reflexivity|].
    now rewrite groupOf_sorted, IH. }
  rewrite H. reflexivity.
Qed.

Lemma monotonic_falling g : falling g -> monotonic g = sortedByTime g.
Proof.
  intros H. unfold monotonic, sortedByTime. cbv zeta.
  now rewrite monotonicFrom_nonIncreasing.
Qed.

Lemma map_monotonic_falling data :
  List.Forall falling data -> map monotonic data = map sortedByTime data.
Proof.
  induction 1 as [|g data Hg _ IH]; simpl; [reflexivity|].
  now rewrite monotonic_falling, IH.
Qed.

End SortedCoxPH.

Section SortedLogRank.

Import logRankTest.

Lemma lastSuppliedAt_sorted points k :
  lastSuppliedAt (Array_sort time points) k = lastSuppliedAt points k.
Proof. unfold lastSuppliedAt. now rewrite filter_Array_sort. Qed.

Lemma Map_get_entries_includes (f : R -> R) (D : list R) t :
  Map_get (map (fun k => (k, f k)) D) t
  = if includes D t then Some (f t) else None.
Proof.
  induction D as [|d D IH]; [reflexivity|].
  unfold includes in *. cbn [map Map_get existsb]. unfold eqb at 1.
  destruct (Req_dec_T d t) as [->|_]; [reflexivity | exact IH].
Qed.

(** The map of a group answers every lookup as the map of the sorted
    group does. *)
Lemma Map_get_sorted g t :
  Map_get (timePointMapOf (sortedByTime g)) t = Map_get (timePointMapOf g) t.
Proof.
  rewrite !timePointMapOf_entries, !Map_get_entries_includes.
  cbn [timePoints sortedByTime]. rewrite lastSuppliedAt_sorted.
  rewrite (includes_ext (distinctTimes (Array_sort time (timePoints g)))
                        (distinctTimes (timePoints g)) t); [reflexivity|].
  rewrite !distinctTimes_In. apply times_sorted_In.
Qed.

Lemma eventsOf_ext m m' times :
  (forall t, Map_get m t = Map_get m' t) ->
  eventsOf m times = eventsOf m' times.
Proof.
  intros H. unfold eventsOf. f_equal.
  generalize (@nil (R * R), 1). induction times as [|t times IH];
    intros [events prev]; [reflexivity|].
  cbn [fold_left]. rewrite (H t). apply IH.
Qed.

(** The cleaning keeps the times of a curve, so the grid is the same. *)
Lemma sortedTimes_monotonic data :
  sortedTimes (map monotonic data) = sortedTimes data.
Proof.
  apply increasing_ext; try apply sortedTimes_increasing.
  intros t. rewrite !sortedTimes_In. split.
  - intros [g [tp [Hg [Htp Ht]]]]. apply in_map_iff in Hg.
    destruct Hg as [g0 [<- Hg0]].
    assert (Hin : In t (map time (timePoints (monotonic g0))))
      by (apply in_map_iff; now exists tp).
    apply (proj1 (cleaned_times g0 t)), in_map_iff in Hin.
    destruct Hin as [tp0 [Ht0 Hin0]]. now exists g0, tp0.
  - intros [g [tp [Hg [Htp Ht]]]].
    assert (Hin : In t (map time (timePoints g)))
      by (apply in_map_iff; now exists tp).
    apply (proj2 (cleaned_times g t)), in_map_iff in Hin.
    destruct Hin as [tp0 [Ht0 Hin0]].
    exists (monotonic g), tp0. split; [now apply in_map|]. now split.
Qed.

Lemma events_falling times g :
  falling g ->
  events (groupDataOf times (monotonic g)) = events (groupDataOf times g).
Proof.
  intros H. rewrite monotonic_falling by assumption.
  unfold groupDataOf. cbn [events]. apply eventsOf_ext, Map_get_sorted.
Qed.

Lemma distinctTimes_increasing points :
  ascending points -> increasing (distinctTimes points).
Proof.
  induction points as [|x points IH] using rev_ind; intros H; [exact I|].
  apply ascending_snoc in H. destruct H as [Hasc Hle].
  rewrite distinctTimes_snoc. unfold Set_add.
  destruct (includes (distinctTimes points) (time x)) eqn:E; [now apply IH|].
  apply increasing_snoc; [now apply IH|].
  intros u Hu. pose proof Hu as Hu'.
  apply distinctTimes_In, in_map_iff in Hu. destruct Hu as [q [<- Hq]].
  destruct (Hle q Hq) as [Hlt|Heq]; [assumption|].
  rewrite Heq in Hu'. apply includes_spec in Hu'. congruence.
Qed.

(** When the times of a group are first supplied in increasing order,
    the map of the group is the map of the sorted group, entry by
    entry and in the same iteration order. *)
Lemma timePointMapOf_sorted g :
  timesInOrder g -> timePointMapOf (sortedByTime g) = timePointMapOf g.
Proof.
  intros H. rewrite !timePointMapOf_entries. cbn [timePoints sortedByTime].
  assert (HD : distinctTimes (Array_sort time (timePoints g))
               = distinctTimes (timePoints g)).
  { apply increasing_ext.
    - apply distinctTimes_increasing, Array_sort_time_ascending.
    - exact H.
    - intros t. rewrite !distinctTimes_In. apply times_sorted_In. }
  rewrite HD. apply map_ext. intros k. now rewrite lastSuppliedAt_sorted.
Qed.

Lemma groupDataOf_falling times g :
  falling g -> timesInOrder g ->
  groupDataOf times (monotonic g) = groupDataOf times g.
Proof.
  intros Hf Ho. rewrite monotonic_falling by assumption.
  unfold groupDataOf. cbv zeta. now rewrite timePointMapOf_sorted.
Qed.

Lemma logRankTest_falling data :
  List.Forall falling data -> List.Forall timesInOrder data ->
  logRankTest.logRankTest (map monotonic data) = logRankTest.logRankTest data.
Proof.
  intros Hf Ho.
  assert (Hs : statistic (map monotonic data) = statistic data).
  { unfold statistic. cbv zeta. rewrite sortedTimes_monotonic, map_map.
    rewrite (map_ext_in
               (fun g => groupDataOf (sortedTimes data) (monotonic g))
               (groupDataOf (sortedTimes data))); [reflexivity|].
    intros g Hg. rewrite List.Forall_forall in Hf, Ho.
    apply groupDataOf_falling; auto. }
  unfold logRankTest.logRankTest.
  now rewrite length_map, sortedTimes_monotonic, Hs.
Qed.

(** A curve in time order supplies its times in increasing order. *)
Lemma ascending_timesInOrder g : ascending (timePoints g) -> timesInOrder g.
Proof. apply distinctTimes_increasing. Qed.

End SortedLogRank.

Section EnginesAndCleaning.

Import logRankTest coxphAnalysis.

Lemma unorderedData_cleaned :
  map monotonic unorderedData
  = [mkData "A" [point 1 0.5; point 2 0.4; point 3 0.3];
     mkData "B" [point 3 0.5]].
Proof.
  unfold unorderedData, monotonic, Array_sort, point. js_eval. reflexivity.
Qed.

Lemma unorderedData_falling : List.Forall falling unorderedData.
Proof.
  unfold unorderedData, falling, Array_sort, point.
  repeat constructor; js_eval; lra.
Qed.

Lemma resuppliedData_cleaned :
  map monotonic resuppliedData
  = [mkData "A" [point 1 0.5; point 1 0.45; point 2 0.4];
     mkData "B" [point 1 0.6; point 2 0.3]].
Proof.
  unfold resuppliedData, monotonic, Array_sort, point. js_eval. reflexivity.
Qed.

Lemma resuppliedData_falling : List.Forall falling resuppliedData.
Proof.
  unfold resuppliedData, falling, Array_sort, point.
  repeat constructor; js_eval; lra.
Qed.

Lemma resuppliedData_timesInOrder : List.Forall timesInOrder resuppliedData.
Proof.
  unfold resuppliedData, timesInOrder, distinctTimes, Set_add, includes, point.
  repeat constructor; js_eval; repeat constructor; lra.
Qed.

Lemma unorderedData_grid : sortedTimes unorderedData = [1; 2; 3].
Proof.
  unfold sortedTimes, allTimes, Array_sort, Set_add, includes. js_eval.
  reflexivity.
Qed.

Lemma unorderedData_statistic :
  statistic unorderedData
  = (0 + (50 - 100 / (0 + 100 + 100) * (0 + 50 + 0)) +
     (10 - 50 / (0 + 50 + 100) * (0 + 10 + 0)) +
     (10 - 50 / (0 + 50 + 100) * (0 + 10 + 50)),
     0 +
     100 * (0 + 100 + 100 - 100) * (0 + 50 + 0) *
     (0 + 100 + 100 - (0 + 50 + 0)) /
     ((0 + 100 + 100) * (0 + 100 + 100) * (0 + 100 + 100 - 1)) +
     50 * (0 + 50 + 100 - 50) * (0 + 10 + 0) * (0 + 50 + 100 - (0 + 10 + 0)) /
     ((0 + 50 + 100) * (0 + 50 + 100) * (0 + 50 + 100 - 1)) +
     50 * (0 + 50 + 100 - 50) * (0 + 10 + 50) *
     (0 + 50 + 100 - (0 + 10 + 50)) /
     ((0 + 50 + 100) * (0 + 50 + 100) * (0 + 50 + 100 - 1))).
Proof.
  unfold statistic. rewrite unorderedData_grid. cbv zeta.
  unfold unorderedData, groupDataOf, timePointMapOf, eventsOf. js_eval.
  repeat first [round_eval 50%Z | round_eval 10%Z].
  js_eval.
  unfold timeStep, atRiskAt, eventsAt, lastSurvivalBefore, or_default. js_eval.
  repeat first [round_eval 100%Z | round_eval 50%Z | round_eval 40%Z].
  js_eval.
  unfold accumulate. js_eval. reflexivity.
Qed.

Lemma unorderedData_cleaned_statistic :
  statistic (map monotonic unorderedData)
  = (0 + (50 - 100 / (0 + 100 + 100) * (0 + 50 + 0)) +
     (10 - 50 / (0 + 50 + 100) * (0 + 10 + 0)) +
     (10 - 40 / (0 + 40 + 100) * (0 + 10 + 50)),
     0 +
     100 * (0 + 100 + 100 - 100) * (0 + 50 + 0) *
     (0 + 100 + 100 - (0 + 50 + 0)) /
     ((0 + 100 + 100) * (0 + 100 + 100) * (0 + 100 + 100 - 1)) +
     50 * (0 + 50 + 100 - 50) * (0 + 10 + 0) * (0 + 50 + 100 - (0 + 10 + 0)) /
     ((0 + 50 + 100) * (0 + 50 + 100) * (0 + 50 + 100 - 1)) +
     40 * (0 + 40 + 100 - 40) * (0 + 10 + 50) *
     (0 + 40 + 100 - (0 + 10 + 50)) /
     ((0 + 40 + 100) * (0 + 40 + 100) * (0 + 40 + 100 - 1))).
Proof.
  unfold statistic.
  rewrite sortedTimes_monotonic, unorderedData_grid, unorderedData_cleaned.
  cbv zeta.
  unfold groupDataOf, timePointMapOf, eventsOf. js_eval.
  repeat first [round_eval 50%Z | round_eval 10%Z].
  js_eval.
  unfold timeStep, atRiskAt, eventsAt, lastSurvivalBefore, or_default. js_eval.
  repeat first [round_eval 100%Z | round_eval 50%Z | round_eval 40%Z].
  js_eval.
  unfold accumulate. js_eval. reflexivity.
Qed.

(** The order of the points matters to [logRankTest]: the first curve
    of [unorderedData] falls with time but is supplied out of time
    order, and at grid time 3 its at-risk count is read from the point
    supplied last before it (time 1, 50 at risk) and not from the
    latest earlier point (time 2, 40 at risk).  The chi-square on the
    supplied curves differs from the one on the cleaned curves. *)
Lemma logRankTest_reads_supplied_order :
  List.Forall falling unorderedData /\
  atRiskAt (groupDataOf (sortedTimes unorderedData)
              (mkData "A" [point 2 0.4; point 1 0.5; point 3 0.3])) 3 = 50 /\
  atRiskAt (groupDataOf (sortedTimes unorderedData)
              (monotonic (mkData "A" [point 2 0.4; point 1 0.5; point 3 0.3])))
           3 = 40 /\
  logRankTest.logRankTest unorderedData
  <> logRankTest.logRankTest (map monotonic unorderedData).
Proof.
  split; [exact unorderedData_falling|]. split; [|split].
  - unfold atRiskAt, groupDataOf, timePointMapOf, lastSurvivalBefore. js_eval.
    round_eval 50%Z. reflexivity.
  - unfold atRiskAt, groupDataOf, timePointMapOf, lastSurvivalBefore,
      monotonic, Array_sort. js_eval. round_eval 40%Z. reflexivity.
  - rewrite (logRankTest_eval unorderedData);
      [| simpl; lia | rewrite unorderedData_grid; discriminate
       | rewrite unorderedData_statistic; simpl; lra].
    rewrite (logRankTest_eval (map monotonic unorderedData));
      [| simpl; lia
       | rewrite sortedTimes_monotonic, unorderedData_grid; discriminate
       | rewrite unorderedData_cleaned_statistic; simpl; lra].
    rewrite unorderedData_statistic, unorderedData_cleaned_statistic.
    cbn [fst snd]. intros H. injection H as _ H. lra.
Qed.

(** C2, as the code has it.  Neither engine sorts the points of a curve
    or forces its survival down: each computes on the points as
    supplied.  On curves that the cleaning only reorders (read in time
    order, survival never rises and never exceeds 1), and whatever the
    order in which their points are supplied, [estimateCoxPH] returns
    on the supplied curves what it returns on the cleaned curves, and
    [logRankTest] works on the same grid and estimates the same events.
    [logRankTest] reads its at-risk counts in the supplied order: it
    returns the same result on supplied and cleaned curves when, in
    addition, every curve supplies its times for the first time in
    increasing order, as a curve in time order does; without that
    addition its two results can differ. *)
Theorem engines_agree_on_falling_curves :
  (forall (data : list SurvivalData) (subtypeCounts : SubtypeCounts),
     List.Forall falling data ->
     estimateCoxPH (map monotonic data) subtypeCounts
     = estimateCoxPH data subtypeCounts /\
     sortedTimes (map monotonic data) = sortedTimes data /\
     List.Forall
       (fun g =>
          events (groupDataOf (sortedTimes data) (monotonic g))
          = events (groupDataOf (sortedTimes data) g)) data /\
     (List.Forall timesInOrder data ->
      logRankTest.logRankTest (map monotonic data)
      = logRankTest.logRankTest data) /\
     (List.Forall (fun g => ascending (timePoints g)) data ->
      List.Forall timesInOrder data)) /\
  (exists data : list SurvivalData,
     List.Forall falling data /\
     logRankTest.logRankTest data
     <> logRankTest.logRankTest (map monotonic data)).
Proof.
  split.
  - intros data c Hf. split; [|split; [|split; [|split]]].
    + rewrite map_monotonic_falling by assumption. apply estimateCoxPH_sorted.
    + apply sortedTimes_monotonic.
    + eapply List.Forall_impl; [|exact Hf]. intros g Hg.
      now apply events_falling.
    + intros Ho. now apply logRankTest_falling.
    + apply List.Forall_impl. intros g. apply ascending_timesInOrder.
  - exists unorderedData. split; [exact unorderedData_falling|].
    apply logRankTest_reads_supplied_order.
Qed.

Lemma engines_agree_on_falling_curves_witness :
  (map monotonic unorderedData <> unorderedData /\
   estimateCoxPH (map monotonic unorderedData) None
   = estimateCoxPH unorderedData None /\
   sortedTimes (map monotonic unorderedData) = sortedTimes unorderedData /\
   List.Forall
     (fun g =>
        events (groupDataOf (sortedTimes unorderedData) (monotonic g))
        = events (groupDataOf (sortedTimes unorderedData) g))
     unorderedData) /\
  (map monotonic resuppliedData <> resuppliedData /\
   logRankTest.logRankTest (map monotonic resuppliedData)
   = logRankTest.logRankTest resuppliedData).
Proof.
  destruct (proj1 engines_agree_on_falling_curves unorderedData None
              unorderedData_falling) as [Hcox [Hgrid [Hev _]]].
  destruct (proj1 engines_agree_on_falling_curves resuppliedData None
              resuppliedData_falling) as [_ [_ [_ [Hlr _]]]].
  split; [split; [|split; [exact Hcox | split; [exact Hgrid | exact Hev]]]
         | split; [|exact (Hlr resuppliedData_timesInOrder)]].
  - rewrite unorderedData_cleaned. unfold unorderedData, point.
    intros H. injection H as H _. lra.
  - rewrite resuppliedData_cleaned. unfold resuppliedData, point.
    intros H. injection H as _ H _. lra.
Defined.

End EnginesAndCleaning.
